(** * The [tags] search-index update processor

    A shallow embedding of [onIndexSetup] and [onIndexUpdate], the two
    functions behind [tagsSearchIndex], together with a model of the
    relational queries they issue and of the calls they make to the
    search engine.

    - Integers ([Int] columns, [Date] values taken as milliseconds) are [Z].
    - The object put under [metrics] of an indexed document is a JS object
      built by spreading, so it is a finite map from field names to values.
    - [async]/[await] code runs one call after the other; it is written in
      a state-and-error monad over the outside world, and every call made
      to the database or to the search engine is recorded, with its answer,
      in a trace.
    - [console.log] calls are left out. *)

From stdpp Require Import gmap strings list.
From Stdlib Require Import ZArith Lia Sorted.

Open Scope Z_scope.

(** ** Constants *)

Definition READ_BATCH_SIZE : nat := 100.
Definition INDEX_NAME : string := "tags".

(** ** Relational data *)

(** The enumeration [MetricTimeframe] of the database schema. *)
Inductive MetricTimeframe := Day | Week | Month | Year | AllTime.

#[global] Instance MetricTimeframe_eq_dec : EqDecision MetricTimeframe.
Proof. solve_decision. Defined.

(** A row of the metrics relation of a tag. *)
Record TagMetricRow := {
  tm_timeframe : MetricTimeframe;
  tm_postCount : Z;
  tm_articleCount : Z;
  tm_followerCount : Z;
  tm_modelCount : Z;
  tm_imageCount : Z;
  tm_hiddenCount : Z;
}.

(** What the nested [select] keeps of a metrics row. *)
Record TagMetricSelect := {
  postCount : Z;
  articleCount : Z;
  followerCount : Z;
  modelCount : Z;
  imageCount : Z;
  hiddenCount : Z;
}.

(** A row of [searchIndexUpdateQueue]. *)
Record QueueRow := {
  queue_type : string;
  queue_id : Z;
}.

(** What [select: { id: true }] keeps of a queue row. *)
Record QueueItem := { qi_id : Z }.

(** The [where] object of [db.tag.findMany]: the two equality filters and
    the optional [OR] list, whose members are of three shapes. *)
Inductive TagWhereClause :=
| CreatedAtGt (t : Z)
| UpdatedAtGt (t : Z)
| IdIn (ids : list Z).

Record TagWhereInput := {
  where_unlisted : bool;
  where_adminOnly : bool;
  where_OR : option (list TagWhereClause);
}.

Record TagFindManyArgs := {
  fm_skip : nat;
  fm_take : nat;
  fm_metrics_timeframe : MetricTimeframe;
  fm_where : TagWhereInput;
}.

Record QueueFindManyArgs := { qfm_type : string }.

(** ** Search-engine data *)

(** Of an enqueued task the code reads the [taskUid] only; of an index it
    reads nothing, it calls its methods. *)
Record EnqueuedTask := { taskUid : nat }.
Record Index := { index_uid : string }.

Definition Error := string.

Section TagsSearchIndex.

(** The type of the [nsfw] column is declared in the database schema; the
    code only copies the value. *)
Context {NsfwLevel : Type}.

Record TagRow := {
  tag_id : Z;
  tag_name : string;
  tag_nsfw : NsfwLevel;
  tag_isCategory : bool;
  tag_unlisted : bool;
  tag_adminOnly : bool;
  tag_createdAt : Z;
  tag_updatedAt : Z;
  tag_metrics : list TagMetricRow;
}.

(** A record as [db.tag.findMany] returns it under the [select] of
    [onIndexUpdate]. *)
Record TagRecord := {
  rec_id : Z;
  rec_name : string;
  rec_nsfw : NsfwLevel;
  rec_isCategory : bool;
  rec_metrics : list TagMetricSelect;
}.

(** An index-ready record. *)
Record TagDocument := {
  doc_id : Z;
  doc_name : string;
  doc_nsfw : NsfwLevel;
  doc_isCategory : bool;
  doc_metrics : gmap string Z;
}.

(** ** The queries, as the relational store answers them *)

Definition selectMetric (m : TagMetricRow) : TagMetricSelect :=
  {| postCount := tm_postCount m;
     articleCount := tm_articleCount m;
     followerCount := tm_followerCount m;
     modelCount := tm_modelCount m;
     imageCount := tm_imageCount m;
     hiddenCount := tm_hiddenCount m |}.

Definition selectTag (tf : MetricTimeframe) (r : TagRow) : TagRecord :=
  {| rec_id := tag_id r;
     rec_name := tag_name r;
     rec_nsfw := tag_nsfw r;
     rec_isCategory := tag_isCategory r;
     rec_metrics :=
       map selectMetric
           (List.filter (fun m => bool_decide (tm_timeframe m = tf)) (tag_metrics r)) |}.

Definition clauseMatches (c : TagWhereClause) (r : TagRow) : bool :=
  match c with
  | CreatedAtGt t => t <? tag_createdAt r
  | UpdatedAtGt t => t <? tag_updatedAt r
  | IdIn ids => bool_decide (tag_id r ∈ ids)
  end.

(** An absent [OR] puts no condition; a present one asks for one of its
    members to hold. *)
Definition tagMatches (w : TagWhereInput) (r : TagRow) : bool :=
  Bool.eqb (tag_unlisted r) (where_unlisted w)
  && Bool.eqb (tag_adminOnly r) (where_adminOnly w)
  && match where_OR w with
     | None => true
     | Some cs => List.existsb (fun c => clauseMatches c r) cs
     end.

Definition tagFindMany (rows : list TagRow) (a : TagFindManyArgs) : list TagRecord :=
  map (selectTag (fm_metrics_timeframe a))
      (take (fm_take a) (drop (fm_skip a) (List.filter (tagMatches (fm_where a)) rows))).

Definition queueFindMany (rows : list QueueRow) (a : QueueFindManyArgs) : list QueueItem :=
  map (fun q => {| qi_id := queue_id q |})
      (List.filter (fun q => bool_decide (queue_type q = qfm_type a)) rows).

(** ** The pure parts of [onIndexUpdate] *)

(** The [where] object of the tag query. *)
Definition tagWhere (lastUpdatedAt : option Z) (queuedItems : list QueueItem) : TagWhereInput :=
  {| where_unlisted := false;
     where_adminOnly := false;
     where_OR :=
       match lastUpdatedAt with
       | None => None
       | Some t => Some [CreatedAtGt t; UpdatedAtGt t; IdIn (map qi_id queuedItems)]
       end |}.

Definition tagFindManyArgs (offset : nat) (lastUpdatedAt : option Z)
    (queuedItems : list QueueItem) : TagFindManyArgs :=
  {| fm_skip := offset;
     fm_take := READ_BATCH_SIZE;
     fm_metrics_timeframe := AllTime;
     fm_where := tagWhere lastUpdatedAt queuedItems |}.

(** [{ ...m }] for a selected metrics row [m]. *)
Definition spreadMetric (m : TagMetricSelect) : gmap string Z :=
  <["postCount" := postCount m]>
  (<["articleCount" := articleCount m]>
  (<["followerCount" := followerCount m]>
  (<["modelCount" := modelCount m]>
  (<["imageCount" := imageCount m]>
  (<["hiddenCount" := hiddenCount m]> ∅))))).

(** The names of the metric fields. *)
Definition metricFields : list string :=
  ["postCount"; "articleCount"; "followerCount"; "modelCount"; "imageCount"; "hiddenCount"].

(** [{ ...(tagRecord.metrics[0] || {}) }] *)
Definition flattenMetrics (ms : list TagMetricSelect) : gmap string Z :=
  match ms !! 0%nat with
  | Some m => spreadMetric m
  | None => ∅
  end.

(** The callback of [tags.map] building [indexReadyRecords]. *)
Definition indexReadyRecord (tagRecord : TagRecord) : TagDocument :=
  {| doc_id := rec_id tagRecord;
     doc_name := rec_name tagRecord;
     doc_nsfw := rec_nsfw tagRecord;
     doc_isCategory := rec_isCategory tagRecord;
     doc_metrics := flattenMetrics (rec_metrics tagRecord) |}.

(** ** Calls to the outside, and their trace *)

(** An awaited promise resolves with a value or rejects with an error. *)
Inductive Result (A : Type) :=
| Resolved (a : A)
| Rejected (e : Error).
#[global] Arguments Resolved {A} a.
#[global] Arguments Rejected {A} e.

(** One constructor per call the two functions make, with the arguments
    passed and the answer received. *)
Inductive Event :=
| GetOrCreateIndex (indexName : string) (r : Result (option Index))
| UpdateSearchableAttributes (i : Index) (attrs : list string) (r : Result EnqueuedTask)
| UpdateSortableAttributes (i : Index) (attrs : list string) (r : Result EnqueuedTask)
| WaitForTasks (uids : list nat) (r : Result unit)
| QueueFindMany (a : QueueFindManyArgs) (r : Result (list QueueItem))
| TagFindMany (a : TagFindManyArgs) (r : Result (list TagRecord))
| UpdateDocuments (indexName : string) (docs : list TagDocument) (r : Result EnqueuedTask).

(** The state of what lies outside the process: the relational store and
    the search engine, both free to change between two calls. *)
Context {W : Type}.

Definition Call (A : Type) : Type := W -> Result A * W.

(** The search-engine client, as far as it is used. *)
Record MeiliSearch := {
  waitForTasks : list nat -> Call unit;
  index_updateDocuments : string -> list TagDocument -> Call EnqueuedTask;
}.

(** The database client, as far as it is used. *)
Record PrismaClient := {
  searchIndexUpdateQueue_findMany : QueueFindManyArgs -> Call (list QueueItem);
  tag_findMany : TagFindManyArgs -> Call (list TagRecord);
}.

Record SearchIndexRunContext := {
  db : PrismaClient;
  lastUpdatedAt : option Z;
}.

(** What the module imports: [client], which is [null] when no search
    engine is configured, [getOrCreateIndex], and the two methods called on
    the index it returns. *)
Record Imports := {
  client : option MeiliSearch;
  getOrCreateIndex : string -> Call (option Index);
  index_updateSearchableAttributes : Index -> list string -> Call EnqueuedTask;
  index_updateSortableAttributes : Index -> list string -> Call EnqueuedTask;
}.

Record World := {
  outside : W;
  trace : list Event;
}.

(** How a computation ends: it returns, it throws, or the model has no
    fuel left for a further turn of a loop. *)
Inductive Outcome (A : Type) :=
| Returned (a : A)
| Threw (e : Error)
| OutOfFuel.
#[global] Arguments Returned {A} a.
#[global] Arguments Threw {A} e.
#[global] Arguments OutOfFuel {A}.

Definition M (A : Type) : Type := World -> Outcome A * World.

Definition ret {A} (a : A) : M A := fun s => (Returned a, s).

Definition bind {A B} (m : M A) (k : A -> M B) : M B :=
  fun s =>
    match m s with
    | (Returned a, s') => k a s'
    | (Threw e, s') => (Threw e, s')
    | (OutOfFuel, s') => (OutOfFuel, s')
    end.

Definition outOfFuel {A} : M A := fun s => (OutOfFuel, s).

(** [await call]: the call is made, its answer is recorded, and a
    rejection is thrown. *)
Definition await {A} (call : Call A) (ev : Result A -> Event) : M A :=
  fun s =>
    let (r, x) := call (outside s) in
    let s' := {| outside := x; trace := trace s ++ [ev r] |} in
    match r with
    | Resolved a => (Returned a, s')
    | Rejected e => (Threw e, s')
    end.

Notation "'let!' x ':=' m 'in' k" := (bind m (fun x => k))
  (at level 10, x name, m at level 100, k at level 200).
Notation "'do!' m 'in' k" := (bind m (fun _ => k))
  (at level 10, m at level 100, k at level 200).

(** ** The two functions *)

Variable imports : Imports.

Definition onIndexSetup : M unit :=
  match client imports with
  | None => ret tt
  | Some client =>
      let! index := await (getOrCreateIndex imports INDEX_NAME) (GetOrCreateIndex INDEX_NAME) in
      match index with
      | None => ret tt
      | Some index =>
          let! updateSearchableAttributesTask :=
            await (index_updateSearchableAttributes imports index ["name"])
                  (UpdateSearchableAttributes index ["name"]) in
          let sortable :=
            ["creation_date"; "metrics.postCount"; "metrics.articleCount";
             "metrics.followerCount"; "metrics.modelCount"; "metrics.imageCount";
             "metrics.hiddenCount"] in
          let! sortableFieldsAttributesTask :=
            await (index_updateSortableAttributes imports index sortable)
                  (UpdateSortableAttributes index sortable) in
          let uids :=
            [taskUid updateSearchableAttributesTask; taskUid sortableFieldsAttributesTask] in
          await (waitForTasks client uids) (WaitForTasks uids)
      end
  end.

(** The [while] loop of [onIndexUpdate], from the state [(offset, tagTasks)];
    one unit of fuel per test of the loop condition. It returns [tagTasks]
    as they are when the loop is left. *)
Fixpoint fetchLoop (client : MeiliSearch) (ctx : SearchIndexRunContext)
    (queuedItems : list QueueItem) (fuel : nat) (offset : nat)
    (tagTasks : list EnqueuedTask) : M (list EnqueuedTask) :=
  match fuel with
  | O => outOfFuel
  | S fuel =>
      if (offset <? READ_BATCH_SIZE)%nat then
        let args := tagFindManyArgs offset (lastUpdatedAt ctx) queuedItems in
        let! tags := await (tag_findMany (db ctx) args) (TagFindMany args) in
        if (length tags =? 0)%nat then ret tagTasks
        else
          let indexReadyRecords := map indexReadyRecord tags in
          let! task := await (index_updateDocuments client INDEX_NAME indexReadyRecords)
                             (UpdateDocuments INDEX_NAME indexReadyRecords) in
          fetchLoop client ctx queuedItems fuel (offset + length tags)%nat (tagTasks ++ [task])
      else ret tagTasks
  end.

Definition onIndexUpdate (fuel : nat) (ctx : SearchIndexRunContext) : M unit :=
  match client imports with
  | None => ret tt
  | Some client =>
      do! onIndexSetup in
      let offset := 0%nat in
      let tagTasks : list EnqueuedTask := [] in
      let queueArgs := {| qfm_type := INDEX_NAME |} in
      let! queuedItems := await (searchIndexUpdateQueue_findMany (db ctx) queueArgs)
                                (QueueFindMany queueArgs) in
      let! tagTasks := fetchLoop client ctx queuedItems fuel offset tagTasks in
      let uids := map taskUid tagTasks in
      await (waitForTasks client uids) (WaitForTasks uids)
  end.

(** ** A database client answering from a store *)

(** The client over a store whose two relations are read off the outside
    world, which moves on by [next] at every query: the tables may differ
    from one query to the next. *)
Definition prismaClient (tags : W -> list TagRow) (queue : W -> list QueueRow)
    (next : W -> W) : PrismaClient :=
  {| searchIndexUpdateQueue_findMany a x := (Resolved (queueFindMany (queue x) a), next x);
     tag_findMany a x := (Resolved (tagFindMany (tags x) a), next x) |}.

(** A client that, whenever it resolves, answers the query on the tables
    as they are in the outside state the call is made in. It may reject. *)
Definition answersFrom (tagsAt : W -> list TagRow) (queueAt : W -> list QueueRow)
    (db : PrismaClient) : Prop :=
  (forall a x tags, (tag_findMany db a x).1 = Resolved tags ->
     tags = tagFindMany (tagsAt x) a)
  /\ (forall a x items, (searchIndexUpdateQueue_findMany db a x).1 = Resolved items ->
     items = queueFindMany (queueAt x) a).

(** The tags with these [ids] are visible rows of the table [rows]: every
    id is the id of a row that is neither unlisted nor admin-only and,
    ids being a key of the table, no hidden row has its id among them. *)
Definition onlyVisible (rows : list TagRow) (ids : list Z) : Prop :=
  (forall i, i ∈ ids ->
     exists row, row ∈ rows /\ tag_id row = i
       /\ tag_unlisted row = false /\ tag_adminOnly row = false)
  /\ (NoDup (map tag_id rows) ->
      forall row, row ∈ rows ->
      tag_unlisted row = true \/ tag_adminOnly row = true ->
      tag_id row ∉ ids).

(** ** Reading a trace *)

Definition isSetupEvent (ev : Event) : bool :=
  match ev with
  | GetOrCreateIndex _ _ | UpdateSearchableAttributes _ _ _
  | UpdateSortableAttributes _ _ _ | WaitForTasks _ _ => true
  | _ => false
  end.

Definition isLoopEvent (ev : Event) : bool :=
  match ev with
  | TagFindMany _ _ | UpdateDocuments _ _ _ => true
  | _ => false
  end.

Definition isQueueRead (ev : Event) : bool :=
  match ev with QueueFindMany _ _ => true | _ => false end.

Definition isTagFetch (ev : Event) : bool :=
  match ev with TagFindMany _ _ => true | _ => false end.

Definition isSubmission (ev : Event) : bool :=
  match ev with UpdateDocuments _ _ _ => true | _ => false end.

(** The task handles [updateDocuments] resolved with, in order. *)
Fixpoint submittedTasks (evs : list Event) : list EnqueuedTask :=
  match evs with
  | [] => []
  | UpdateDocuments _ _ (Resolved task) :: evs => task :: submittedTasks evs
  | _ :: evs => submittedTasks evs
  end.

(** The pages [db.tag.findMany] resolved with, each with its query. *)
Fixpoint fetchedPages (evs : list Event) : list (TagFindManyArgs * list TagRecord) :=
  match evs with
  | [] => []
  | TagFindMany a (Resolved tags) :: evs => (a, tags) :: fetchedPages evs
  | _ :: evs => fetchedPages evs
  end.

(** Pages that follow one another from [offset]: each is asked at the
    offset reached, only the last may be empty, and the offset moves by the
    number of records of the page. *)
Fixpoint pagesFrom (offset : nat) (ps : list (TagFindManyArgs * list TagRecord)) : Prop :=
  match ps with
  | [] => True
  | (a, tags) :: ps =>
      fm_skip a = offset
      /\ (tags = [] -> ps = [])
      /\ pagesFrom (offset + length tags) ps
  end.

(** The calls of the loop, turn after turn, from [offset] to the end of
    the loop. Without a call the loop has been left by its condition. A turn
    begins with a tag query at the offset reached, below [READ_BATCH_SIZE];
    it is the last one when the query rejects, when the page is empty and
    when the submission of the page rejects; after a page that holds
    records and a submission that resolves, the next turn is at the offset
    moved by the number of records of the page. *)
Fixpoint turnsFrom (offset : nat) (evs : list Event) : Prop :=
  match evs with
  | [] => (READ_BATCH_SIZE <= offset)%nat
  | TagFindMany a r :: evs =>
      (offset < READ_BATCH_SIZE)%nat
      /\ fm_skip a = offset
      /\ match r with
         | Rejected _ => evs = []
         | Resolved [] => evs = []
         | Resolved tags =>
             match evs with
             | UpdateDocuments _ _ (Rejected _) :: evs' => evs' = []
             | UpdateDocuments _ _ (Resolved _) :: evs' =>
                 turnsFrom (offset + length tags) evs'
             | _ => False
             end
         end
  | _ => False
  end.

(** What a run added to the trace. *)
Definition newEvents (s s' : World) : list Event :=
  drop (length (trace s)) (trace s').

(** ** The runs of the loop *)

(** [LoopRun client ctx queuedItems offset tagTasks evs o]: from the loop
    state [(offset, tagTasks)] the loop can make the calls [evs], getting
    the answers recorded there, and end with [o]. *)
Inductive LoopRun (client : MeiliSearch) (ctx : SearchIndexRunContext)
    (queuedItems : list QueueItem) :
    nat -> list EnqueuedTask -> list Event -> Outcome (list EnqueuedTask) -> Prop :=
| LoopRun_limit offset tagTasks :
    (READ_BATCH_SIZE <= offset)%nat ->
    LoopRun client ctx queuedItems offset tagTasks [] (Returned tagTasks)
| LoopRun_fetch_rejected offset tagTasks x e :
    (offset < READ_BATCH_SIZE)%nat ->
    let args := tagFindManyArgs offset (lastUpdatedAt ctx) queuedItems in
    (tag_findMany (db ctx) args x).1 = Rejected e ->
    LoopRun client ctx queuedItems offset tagTasks
      [TagFindMany args (Rejected e)] (Threw e)
| LoopRun_break offset tagTasks x :
    (offset < READ_BATCH_SIZE)%nat ->
    let args := tagFindManyArgs offset (lastUpdatedAt ctx) queuedItems in
    (tag_findMany (db ctx) args x).1 = Resolved [] ->
    LoopRun client ctx queuedItems offset tagTasks
      [TagFindMany args (Resolved [])] (Returned tagTasks)
| LoopRun_submit_rejected offset tagTasks x tags y e :
    (offset < READ_BATCH_SIZE)%nat ->
    let args := tagFindManyArgs offset (lastUpdatedAt ctx) queuedItems in
    (tag_findMany (db ctx) args x).1 = Resolved tags ->
    tags <> [] ->
    let docs := map indexReadyRecord tags in
    (index_updateDocuments client INDEX_NAME docs y).1 = Rejected e ->
    LoopRun client ctx queuedItems offset tagTasks
      [TagFindMany args (Resolved tags); UpdateDocuments INDEX_NAME docs (Rejected e)]
      (Threw e)
| LoopRun_next offset tagTasks x tags y task evs o :
    (offset < READ_BATCH_SIZE)%nat ->
    let args := tagFindManyArgs offset (lastUpdatedAt ctx) queuedItems in
    (tag_findMany (db ctx) args x).1 = Resolved tags ->
    tags <> [] ->
    let docs := map indexReadyRecord tags in
    (index_updateDocuments client INDEX_NAME docs y).1 = Resolved task ->
    LoopRun client ctx queuedItems (offset + length tags)%nat (tagTasks ++ [task]) evs o ->
    LoopRun client ctx queuedItems offset tagTasks
      (TagFindMany args (Resolved tags) :: UpdateDocuments INDEX_NAME docs (Resolved task) :: evs)
      o
| LoopRun_fuel offset tagTasks :
    LoopRun client ctx queuedItems offset tagTasks [] OutOfFuel.

End TagsSearchIndex.

(** ** The runs of [onIndexUpdate] once [onIndexSetup] has returned *)

Section Runs.

Context {NsfwLevel W : Type}.
Implicit Types (client : @MeiliSearch NsfwLevel W) (ctx : @SearchIndexRunContext NsfwLevel W).

(** The outcome of awaiting a promise as the last thing done. *)
Definition settle {A} (r : Result A) : Outcome A :=
  match r with
  | Resolved a => Returned a
  | Rejected e => Threw e
  end.

(** [UpdateRun client ctx x evs o]: with the outside in state [x] when
    setup has returned, the rest of [onIndexUpdate] can make the calls
    [evs] and end with [o]. *)
Inductive UpdateRun client ctx (x : W) : list Event -> Outcome unit -> Prop :=
| UpdateRun_queue_rejected e :
    let queueArgs := {| qfm_type := INDEX_NAME |} in
    (searchIndexUpdateQueue_findMany (db ctx) queueArgs x).1 = Rejected e ->
    UpdateRun client ctx x [QueueFindMany queueArgs (Rejected e)] (Threw e)
| UpdateRun_loop_threw queuedItems evs e :
    let queueArgs := {| qfm_type := INDEX_NAME |} in
    (searchIndexUpdateQueue_findMany (db ctx) queueArgs x).1 = Resolved queuedItems ->
    LoopRun client ctx queuedItems 0 [] evs (Threw e) ->
    UpdateRun client ctx x (QueueFindMany queueArgs (Resolved queuedItems) :: evs) (Threw e)
| UpdateRun_loop_fuel queuedItems evs :
    let queueArgs := {| qfm_type := INDEX_NAME |} in
    (searchIndexUpdateQueue_findMany (db ctx) queueArgs x).1 = Resolved queuedItems ->
    LoopRun client ctx queuedItems 0 [] evs OutOfFuel ->
    UpdateRun client ctx x (QueueFindMany queueArgs (Resolved queuedItems) :: evs) OutOfFuel
| UpdateRun_wait queuedItems evs tagTasks y r :
    let queueArgs := {| qfm_type := INDEX_NAME |} in
    (searchIndexUpdateQueue_findMany (db ctx) queueArgs x).1 = Resolved queuedItems ->
    LoopRun client ctx queuedItems 0 [] evs (Returned tagTasks) ->
    let uids := map taskUid tagTasks in
    (waitForTasks client uids y).1 = r ->
    UpdateRun client ctx x
      (QueueFindMany queueArgs (Resolved queuedItems) :: evs ++ [WaitForTasks uids r])
      (settle r).

End Runs.

(** ** The runs of [onIndexSetup], and more readings of a trace *)

(** The attributes [onIndexSetup] declares sortable. *)
Definition SORTABLE_ATTRIBUTES : list string :=
  ["creation_date"; "metrics.postCount"; "metrics.articleCount";
   "metrics.followerCount"; "metrics.modelCount"; "metrics.imageCount";
   "metrics.hiddenCount"].

Section SetupRuns.

Context {NsfwLevel W : Type}.
Variable imports : @Imports NsfwLevel W.
Implicit Types (client : @MeiliSearch NsfwLevel W).

(** [SetupRun client evs o]: with a client at hand, [onIndexSetup] can make
    the calls [evs], getting the answers recorded there, and end with [o]. *)
Inductive SetupRun client : list (@Event NsfwLevel) -> Outcome unit -> Prop :=
| SetupRun_index_rejected x e :
    (getOrCreateIndex imports INDEX_NAME x).1 = Rejected e ->
    SetupRun client [GetOrCreateIndex INDEX_NAME (Rejected e)] (Threw e)
| SetupRun_no_index x :
    (getOrCreateIndex imports INDEX_NAME x).1 = Resolved None ->
    SetupRun client [GetOrCreateIndex INDEX_NAME (Resolved None)] (Returned tt)
| SetupRun_searchable_rejected x index y e :
    (getOrCreateIndex imports INDEX_NAME x).1 = Resolved (Some index) ->
    (index_updateSearchableAttributes imports index ["name"] y).1 = Rejected e ->
    SetupRun client
      [GetOrCreateIndex INDEX_NAME (Resolved (Some index));
       UpdateSearchableAttributes index ["name"] (Rejected e)]
      (Threw e)
| SetupRun_sortable_rejected x index y searchableTask z e :
    (getOrCreateIndex imports INDEX_NAME x).1 = Resolved (Some index) ->
    (index_updateSearchableAttributes imports index ["name"] y).1 = Resolved searchableTask ->
    (index_updateSortableAttributes imports index SORTABLE_ATTRIBUTES z).1 = Rejected e ->
    SetupRun client
      [GetOrCreateIndex INDEX_NAME (Resolved (Some index));
       UpdateSearchableAttributes index ["name"] (Resolved searchableTask);
       UpdateSortableAttributes index SORTABLE_ATTRIBUTES (Rejected e)]
      (Threw e)
| SetupRun_wait x index y searchableTask z sortableTask w r :
    (getOrCreateIndex imports INDEX_NAME x).1 = Resolved (Some index) ->
    (index_updateSearchableAttributes imports index ["name"] y).1 = Resolved searchableTask ->
    (index_updateSortableAttributes imports index SORTABLE_ATTRIBUTES z).1
      = Resolved sortableTask ->
    let uids := [taskUid searchableTask; taskUid sortableTask] in
    (waitForTasks client uids w).1 = r ->
    SetupRun client
      [GetOrCreateIndex INDEX_NAME (Resolved (Some index));
       UpdateSearchableAttributes index ["name"] (Resolved searchableTask);
       UpdateSortableAttributes index SORTABLE_ATTRIBUTES (Resolved sortableTask);
       WaitForTasks uids r]
      (settle r).

End SetupRuns.

Section MoreReadings.

Context {NsfwLevel : Type}.
Implicit Types (ev : @Event NsfwLevel) (evs : list (@Event NsfwLevel)).

(** Whether the call recorded resolved, and the error it rejected with. *)
Definition rejection ev : option Error :=
  match ev with
  | GetOrCreateIndex _ (Rejected e)
  | UpdateSearchableAttributes _ _ (Rejected e)
  | UpdateSortableAttributes _ _ (Rejected e)
  | WaitForTasks _ (Rejected e)
  | QueueFindMany _ (Rejected e)
  | TagFindMany _ (Rejected e)
  | UpdateDocuments _ _ (Rejected e) => Some e
  | _ => None
  end.

Definition resolved ev : bool :=
  match rejection ev with
  | Some _ => false
  | None => true
  end.

(** What [updateDocuments] was called with, call after call, whether the
    call resolved or not. *)
Fixpoint submissions evs : list (string * list (@TagDocument NsfwLevel)) :=
  match evs with
  | [] => []
  | UpdateDocuments indexName docs _ :: evs => (indexName, docs) :: submissions evs
  | _ :: evs => submissions evs
  end.

(** The queries [db.tag.findMany] was called with, call after call. *)
Fixpoint tagQueries evs : list TagFindManyArgs :=
  match evs with
  | [] => []
  | TagFindMany a _ :: evs => a :: tagQueries evs
  | _ :: evs => tagQueries evs
  end.

(** The calls [evs] of a computation ending with [o] stop at the first
    rejection: all have resolved, but for the last one when the computation
    throws, which has rejected with the error thrown. *)
Definition stopsAtRejection {A} evs (o : Outcome A) : Prop :=
  match o with
  | Threw e =>
      exists init last, evs = init ++ [last]
        /\ forallb resolved init = true /\ rejection last = Some e
  | _ => forallb resolved evs = true
  end.

(** The pages that hold a record. *)
Definition nonEmptyPages (ps : list (TagFindManyArgs * list (@TagRecord NsfwLevel))) :
    list (list (@TagRecord NsfwLevel)) :=
  List.filter (fun tags => negb (length tags =? 0)%nat) (map snd ps).

(** The records of the pages fetched, page after page. *)
Definition fetchedRecords evs : list (@TagRecord NsfwLevel) :=
  concat (map snd (fetchedPages evs)).

(** What the loop passes to [updateDocuments] for the page [tags]. *)
Definition submissionOf (tags : list (@TagRecord NsfwLevel)) :
    string * list (@TagDocument NsfwLevel) :=
  (INDEX_NAME, map indexReadyRecord tags).

End MoreReadings.

(** ** Sample surroundings *)

Module Samples.

(** A search engine that accepts everything; the outside world is the
    counter it numbers its tasks with. *)
Definition acceptingClient : @MeiliSearch bool nat :=
  {| waitForTasks _ x := (Resolved tt, x);
     index_updateDocuments _ _ x := (Resolved {| taskUid := x |}, S x) |}.

Definition acceptingImports : @Imports bool nat :=
  {| client := Some acceptingClient;
     getOrCreateIndex indexName x := (Resolved (Some {| index_uid := indexName |}), x);
     index_updateSearchableAttributes _ _ x := (Resolved {| taskUid := x |}, S x);
     index_updateSortableAttributes _ _ x := (Resolved {| taskUid := x |}, S x) |}.

(** No search engine configured. *)
Definition noClientImports : @Imports bool nat :=
  {| client := None;
     getOrCreateIndex _ x := (Resolved None, x);
     index_updateSearchableAttributes _ _ x := (Rejected "no client", x);
     index_updateSortableAttributes _ _ x := (Rejected "no client", x) |}.

(** A client is there, but [getOrCreateIndex] yields no index. *)
Definition noIndexImports : @Imports bool nat :=
  {| client := Some acceptingClient;
     getOrCreateIndex _ x := (Resolved None, x);
     index_updateSearchableAttributes _ _ x := (Resolved {| taskUid := x |}, S x);
     index_updateSortableAttributes _ _ x := (Resolved {| taskUid := x |}, S x) |}.

(** The engine turns down the sortable attributes. *)
Definition rejectingImports : @Imports bool nat :=
  {| client := Some acceptingClient;
     getOrCreateIndex indexName x := (Resolved (Some {| index_uid := indexName |}), x);
     index_updateSearchableAttributes _ _ x := (Resolved {| taskUid := x |}, S x);
     index_updateSortableAttributes _ _ x := (Rejected "invalid_settings_sortable_attributes", x) |}.

Definition tagRow (i : Z) (unlisted adminOnly : bool) (createdAt updatedAt : Z)
    (metrics : list TagMetricRow) : @TagRow bool :=
  {| tag_id := i; tag_name := "tag"; tag_nsfw := false; tag_isCategory := false;
     tag_unlisted := unlisted; tag_adminOnly := adminOnly;
     tag_createdAt := createdAt; tag_updatedAt := updatedAt;
     tag_metrics := metrics |}.

(** [n] listed tags, numbered from 1, without metrics. *)
Definition listedTags (n : nat) : list (@TagRow bool) :=
  map (fun i => tagRow (Z.of_nat i) false false 0 0 []) (seq 1 n).

(** A store that does not change during the run. *)
Definition staticDb (tags : list (@TagRow bool)) (queue : list QueueRow) : @PrismaClient bool nat :=
  prismaClient (fun _ => tags) (fun _ => queue) (fun x => x).

(** A store where the queue holds one entry for every step the outside
    has made: it grows after every query. *)
Definition growingQueueDb (tags : list (@TagRow bool)) : @PrismaClient bool nat :=
  prismaClient (fun _ => tags)
    (fun x => map (fun i => {| queue_type := INDEX_NAME; queue_id := Z.of_nat i |}) (seq 1 x))
    S.

Definition start : @World bool nat := {| outside := 0%nat; trace := [] |}.

Definition allTimeMetrics : TagMetricRow :=
  {| tm_timeframe := AllTime; tm_postCount := 3; tm_articleCount := 1;
     tm_followerCount := 8; tm_modelCount := 5; tm_imageCount := 13;
     tm_hiddenCount := 0 |}.

Definition dayMetrics : TagMetricRow :=
  {| tm_timeframe := Day; tm_postCount := 1; tm_articleCount := 0;
     tm_followerCount := 2; tm_modelCount := 0; tm_imageCount := 4;
     tm_hiddenCount := 0 |}.

(** With the watermark at 100: tags 1 to 3 have changed since, tag 4 has
    not but is queued, tag 5 is unlisted, tag 6 is for administrators and
    tag 7 is old and queued for another index only. *)
Definition sampleTags : list (@TagRow bool) :=
  [ tagRow 1 false false 10 200 [dayMetrics; allTimeMetrics];
    tagRow 2 false false 10 200 [];
    tagRow 3 false false 300 300 [dayMetrics];
    tagRow 4 false false 10 50 [];
    tagRow 5 true false 10 200 [];
    tagRow 6 false true 500 500 [];
    tagRow 7 false false 10 50 [] ].

Definition sampleQueue : list QueueRow :=
  [ {| queue_type := "tags"; queue_id := 4 |};
    {| queue_type := "models"; queue_id := 7 |} ].

Definition incrementalCtx : @SearchIndexRunContext bool nat :=
  {| db := staticDb sampleTags sampleQueue; lastUpdatedAt := Some 100 |}.

Definition backfillCtx : @SearchIndexRunContext bool nat :=
  {| db := staticDb sampleTags sampleQueue; lastUpdatedAt := None |}.

(** One listed tag more than [READ_BATCH_SIZE]. *)
Definition largeCtx : @SearchIndexRunContext bool nat :=
  {| db := staticDb (listedTags (S READ_BATCH_SIZE)) []; lastUpdatedAt := None |}.

Definition movingCtx : @SearchIndexRunContext bool nat :=
  {| db := growingQueueDb (listedTags 5); lastUpdatedAt := Some 0 |}.



(** A run from [start], with fuel to spare. *)
Definition run (imports : @Imports bool nat) (ctx : @SearchIndexRunContext bool nat) :
    Outcome unit * @World bool nat :=
  onIndexUpdate imports (S READ_BATCH_SIZE) ctx start.

End Samples.

(** * The notification processors

    [utils.notifications.ts] merges the processors of all notification
    types into one object, [notificationProcessors], and derives from it
    the batches the processors run in and the types a user can toggle. The
    merged object is taken by its entries, in the order [Object.entries]
    lists them; of a processor, the fields read here are modelled. Numbers
    are taken as integers. *)

Module Notifications.

Section Definitions.

Context {Notification Message : Type}.

Record NotificationProcessor := {
  displayName : string;
  priority : option Z;
  toggleable : option bool;
  prepareMessage : option (Notification -> Message);
}.

(** [{ ...v, key }] *)
Record KeyedProcessor := {
  key : string;
  processor : NotificationProcessor;
}.

(** [x.priority ?? 0] *)
Definition priorityOrZero (n : KeyedProcessor) : Z :=
  match priority (processor n) with
  | Some p => p
  | None => 0
  end.

(** [Array.prototype.sort] with the comparator
    [(a, b) => (a.priority ?? 0) - (b.priority ?? 0)]. The sort is stable
    and the comparator orders integers, so the result is the one
    arrangement of the array that is in non-decreasing order of
    [priority ?? 0] and keeps elements of equal order as they were; it is
    computed here by insertion from the right. *)
Fixpoint insertByPriority (n : KeyedProcessor) (sorted : list KeyedProcessor) :
    list KeyedProcessor :=
  match sorted with
  | [] => [n]
  | m :: sorted' =>
      if priorityOrZero n <=? priorityOrZero m then n :: m :: sorted'
      else m :: insertByPriority n sorted'
  end.

Definition sortByPriority (l : list KeyedProcessor) : list KeyedProcessor :=
  foldr insertByPriority [] l.

(** In non-decreasing order of [priority ?? 0]. *)
Definition ordered (l : list KeyedProcessor) : Prop :=
  StronglySorted (fun n m => priorityOrZero n <= priorityOrZero m) l.

Variable notificationProcessors : list (string * NotificationProcessor).

Definition notifications : list KeyedProcessor :=
  sortByPriority
    (map (fun '(k, v) => {| key := k; processor := v |}) notificationProcessors).

(** The state of the loop that fills [notificationBatches]: the array is
    [closed ++ [currentBatch]], the batch [currentBatch] being the very
    array last pushed, so that pushing to it changes the last batch. *)
Record BatchState := {
  closed : list (list KeyedProcessor);
  currentBatch : list KeyedProcessor;
}.

(** [currentBatch[0]?.priority] *)
Definition headPriority (batch : list KeyedProcessor) : option Z :=
  match batch with
  | [] => None
  | n :: _ => priority (processor n)
  end.

(** One turn of the loop. [priority !== currentBatch[0]?.priority] holds
    unless the head of the current batch has a priority, equal to
    [priority]. *)
Definition batchStep (st : BatchState) (notification : KeyedProcessor) : BatchState :=
  let priority := priorityOrZero notification in
  if bool_decide (headPriority (currentBatch st) = Some priority)
  then {| closed := closed st; currentBatch := currentBatch st ++ [notification] |}
  else {| closed := closed st ++ [currentBatch st]; currentBatch := [notification] |}.

Definition batchesOf (l : list KeyedProcessor) : list (list KeyedProcessor) :=
  let st := fold_left batchStep l {| closed := []; currentBatch := [] |} in
  closed st ++ [currentBatch st].

Definition notificationBatches : list (list KeyedProcessor) :=
  batchesOf notifications.

(** What the loop keeps of its batches: the members of a batch whose head
    has a priority all have that priority, [?? 0] taken, and a batch whose
    head has none has no other member; a batch does not start with a
    notification that the batch before it would have taken. *)
Definition grouped (batch : list KeyedProcessor) : Prop :=
  match batch with
  | [] => True
  | n :: rest =>
      match priority (processor n) with
      | Some p => Forall (fun m => priorityOrZero m = p) rest
      | None => rest = []
      end
  end.

Definition apart (batch batch' : list KeyedProcessor) : Prop :=
  match batch' with
  | [] => True
  | n' :: _ => headPriority batch <> Some (priorityOrZero n')
  end.

Record BatchInvariant (st : BatchState) : Prop := {
  inv_layout :
    (closed st = [] /\ currentBatch st = [])
    \/ (exists batches, closed st = [] :: batches
          /\ Forall (fun b => b <> []) batches /\ currentBatch st <> []);
  inv_grouped : Forall grouped (closed st ++ [currentBatch st]);
  inv_apart : Sorted apart (closed st ++ [currentBatch st]);
}.

Definition getNotificationTypes : gmap string string :=
  fold_left
    (fun notificationTypes '(type, p) =>
       match toggleable p with
       | Some false => notificationTypes
       | _ => <[type := displayName p]> notificationTypes
       end)
    notificationProcessors ∅.

End Definitions.

(** Four processors: two without a priority, then one with priority 0 and
    one more without, and one that runs first and cannot be toggled. *)
Definition sampleProcessor (name : string) (p : option Z) (t : option bool) :
    @NotificationProcessor unit string :=
  {| displayName := name; priority := p; toggleable := t; prepareMessage := None |}.

Definition sampleProcessors : list (string * @NotificationProcessor unit string) :=
  [ ("new-mention", sampleProcessor "New @mentions" None None);
    ("new-review", sampleProcessor "New reviews" None (Some true));
    ("new-comment", sampleProcessor "New comments" (Some 0) None);
    ("new-reaction", sampleProcessor "Reactions" None None);
    ("system-announcement", sampleProcessor "System" (Some (-1)) (Some false)) ].

(** Three processors, each with a priority of its own choosing. *)
Definition prioritisedProcessors : list (string * @NotificationProcessor unit string) :=
  [ ("new-model-version", sampleProcessor "New versions" (Some 1) None);
    ("model-download-milestone", sampleProcessor "Download milestones" (Some 0) None);
    ("new-model-from-following", sampleProcessor "New models" (Some 1) (Some true)) ].

End Notifications.

(** * The query helpers of the autocomplete search

    [checkAIR] and [parseQuery] of [AutocompleteSearch.tsx] read the text
    typed in the search box with regular expressions. A JS string is the
    list of its UTF-16 code units. The regular expressions are kept as
    syntax trees and run by a backtracking matcher that tries the
    alternatives in the order the language does: the left branch of [|]
    first, a longer repetition before a shorter one, an optional part
    before its absence. *)

Module Autocomplete.

Definition jsString := list N.

(** The code units of a string literal of the source, all of them ASCII. *)
Definition lit (s : string) : jsString :=
  map Ascii.N_of_ascii (String.list_ascii_of_string s).

Definition between (lo hi c : N) : bool := (lo <=? c)%N && (c <=? hi)%N.

(** [\d], [\w], [\s] and [[A-Za-z0-9_.-]] without the [u] flag. *)
Definition isDigit (c : N) : bool := between 48 57 c.

Definition isAlpha (c : N) : bool := between 65 90 c || between 97 122 c.

Definition isWord (c : N) : bool := isAlpha c || isDigit c || (c =? 95)%N.

Definition isSpace (c : N) : bool :=
  between 9 13 c || (c =? 32)%N || (c =? 160)%N || (c =? 5760)%N
  || between 8192 8202 c || (c =? 8232)%N || (c =? 8233)%N || (c =? 8239)%N
  || (c =? 8287)%N || (c =? 12288)%N || (c =? 65279)%N.

Definition isHashChar (c : N) : bool := isWord c || (c =? 46)%N || (c =? 45)%N.

(** ** Regular expressions *)

Inductive regex :=
| Eps
| Bol                                  (* ^ *)
| Chr (c : N)                          (* a pattern character *)
| PlusCls (p : N -> bool)              (* a class, once or more, greedy *)
| Seq (r1 r2 : regex)
| Alt (r1 r2 : regex)                  (* r1|r2 *)
| Opt (r : regex)                      (* r?, greedy *)
| Capture (name : option string) (r : regex).   (* (r) and (?<name>r) *)

(** The pattern characters of a literal, one after the other. *)
Fixpoint litRe (cs : jsString) : regex :=
  match cs with
  | [] => Eps
  | c :: cs => Seq (Chr c) (litRe cs)
  end.

(** The named groups that took part in a match, latest first. *)
Definition Groups := list (string * jsString).

Fixpoint group (name : string) (gs : Groups) : option jsString :=
  match gs with
  | [] => None
  | (n, v) :: gs => if String.eqb n name then Some v else group name gs
  end.

Definition record (name : option string) (v : jsString) (gs : Groups) : Groups :=
  match name with
  | Some n => (n, v) :: gs
  | None => gs
  end.

Section Matcher.

Context {R : Type}.

(** [p+] from position [pos], where [rest] is what is left of the input:
    as many characters as match, then one fewer, down to one, until the
    continuation accepts. *)
Fixpoint plusCls (p : N -> bool) (pos : nat) (rest : jsString)
    (k : nat -> jsString -> option R) : option R :=
  match rest with
  | c :: rest' =>
      if p c then
        match plusCls p (S pos) rest' k with
        | Some res => Some res
        | None => k (S pos) rest'
        end
      else None
  | [] => None
  end.

Fixpoint matchRe (r : regex) (pos : nat) (rest : jsString) (gs : Groups)
    (k : nat -> jsString -> Groups -> option R) : option R :=
  match r with
  | Eps => k pos rest gs
  | Bol => if (pos =? 0)%nat then k pos rest gs else None
  | Chr c =>
      match rest with
      | x :: rest' => if (x =? c)%N then k (S pos) rest' gs else None
      | [] => None
      end
  | PlusCls p => plusCls p pos rest (fun pos' rest' => k pos' rest' gs)
  | Seq r1 r2 =>
      matchRe r1 pos rest gs (fun pos1 rest1 gs1 => matchRe r2 pos1 rest1 gs1 k)
  | Alt r1 r2 =>
      match matchRe r1 pos rest gs k with
      | Some res => Some res
      | None => matchRe r2 pos rest gs k
      end
  | Opt r =>
      match matchRe r pos rest gs k with
      | Some res => Some res
      | None => k pos rest gs
      end
  | Capture name r =>
      matchRe r pos rest gs
        (fun pos' rest' gs' => k pos' rest' (record name (take (pos' - pos) rest) gs'))
  end.

End Matcher.

(** What a regular expression can match, whatever the order of the
    attempts: [Matches r pos rest gs pos' rest' gs'] when [r] can take the
    input from position [pos] to position [pos'], leaving [rest'] of
    [rest] and adding its groups to [gs]. *)
Inductive Matches : regex -> nat -> jsString -> Groups -> nat -> jsString -> Groups -> Prop :=
| Matches_Eps pos rest gs : Matches Eps pos rest gs pos rest gs
| Matches_Bol rest gs : Matches Bol 0 rest gs 0 rest gs
| Matches_Chr c pos rest gs : Matches (Chr c) pos (c :: rest) gs (S pos) rest gs
| Matches_PlusCls p pos run rest gs :
    run <> [] -> forallb p run = true ->
    Matches (PlusCls p) pos (run ++ rest) gs (pos + length run) rest gs
| Matches_Seq r1 r2 pos rest gs pos1 rest1 gs1 pos2 rest2 gs2 :
    Matches r1 pos rest gs pos1 rest1 gs1 ->
    Matches r2 pos1 rest1 gs1 pos2 rest2 gs2 ->
    Matches (Seq r1 r2) pos rest gs pos2 rest2 gs2
| Matches_Alt_l r1 r2 pos rest gs pos' rest' gs' :
    Matches r1 pos rest gs pos' rest' gs' ->
    Matches (Alt r1 r2) pos rest gs pos' rest' gs'
| Matches_Alt_r r1 r2 pos rest gs pos' rest' gs' :
    Matches r2 pos rest gs pos' rest' gs' ->
    Matches (Alt r1 r2) pos rest gs pos' rest' gs'
| Matches_Opt_some r pos rest gs pos' rest' gs' :
    Matches r pos rest gs pos' rest' gs' ->
    Matches (Opt r) pos rest gs pos' rest' gs'
| Matches_Opt_none r pos rest gs : Matches (Opt r) pos rest gs pos rest gs
| Matches_Capture name r pos rest gs pos' rest' gs' :
    Matches r pos rest gs pos' rest' gs' ->
    Matches (Capture name r) pos rest gs pos' rest'
      (record name (take (pos' - pos) rest) gs').

(** A match: where it starts and ends, what is left of the input after
    it, and its named groups. *)
Record Match := {
  m_start : nat;
  m_end : nat;
  m_rest : jsString;
  m_groups : Groups;
}.

Definition matchAt (r : regex) (pos : nat) (rest : jsString) : option Match :=
  matchRe r pos rest []
    (fun pos' rest' gs =>
       Some {| m_start := pos; m_end := pos'; m_rest := rest'; m_groups := gs |}).

(** The first match at or after [pos]: every position is tried, the end of
    the input included. *)
Fixpoint search (r : regex) (pos : nat) (rest : jsString) : option Match :=
  match matchAt r pos rest with
  | Some m => Some m
  | None =>
      match rest with
      | [] => None
      | _ :: rest' => search r (S pos) rest'
      end
  end.

(** The matches of a global regular expression from [pos] on, as
    [matchAll] and [replace] go through them: after a match the search
    goes on from its end, one further when the match is empty. [None] when
    the fuel does not suffice. *)
Fixpoint matchesFrom (fuel : nat) (r : regex) (pos : nat) (rest : jsString) :
    option (list Match) :=
  match fuel with
  | O => None
  | S fuel =>
      match search r pos rest with
      | None => Some []
      | Some m =>
          if (m_end m =? m_start m)%nat then
            match m_rest m with
            | [] => Some [m]
            | _ :: rest' => cons m <$> matchesFrom fuel r (S (m_end m)) rest'
            end
          else cons m <$> matchesFrom fuel r (m_end m) (m_rest m)
      end
  end.

(** [s.matchAll(r)] for a global [r] whose [lastIndex] is 0. *)
Definition matchAll (r : regex) (s : jsString) : option (list Match) :=
  matchesFrom (S (S (length s))) r 0 s.

(** What is left of the input, read from [pos], when the matches are cut
    out. *)
Fixpoint cutOut (ms : list Match) (pos : nat) (rest : jsString) : jsString :=
  match ms with
  | [] => rest
  | m :: ms =>
      take (m_start m - pos) rest
      ++ cutOut ms (m_end m) (drop (m_end m - pos) rest)
  end.

(** [s.replace(r, '')] for a global [r]. *)
Definition replaceAllWithEmpty (r : regex) (s : jsString) : option jsString :=
  ms ← matchAll r s; Some (cutOut ms 0 s).

(** ** Other string functions *)

Fixpoint trimStart (s : jsString) : jsString :=
  match s with
  | c :: s' => if isSpace c then trimStart s' else s
  | [] => []
  end.

Definition trim (s : jsString) : jsString :=
  reverse (trimStart (reverse (trimStart s))).

Fixpoint join (sep : jsString) (parts : list jsString) : jsString :=
  match parts with
  | [] => []
  | [part] => part
  | part :: parts => part ++ sep ++ join sep parts
  end.

(** The characters [encodeURIComponent] leaves as they are. *)
Definition isUnreserved (c : N) : bool :=
  isAlpha c || isDigit c
  || existsb (N.eqb c) (lit "-_.!~*'()").

Definition hexDigit (d : N) : N :=
  if (d <? 10)%N then (48 + d)%N else (55 + d)%N.

Definition percent (octet : N) : jsString :=
  [37%N; hexDigit (octet / 16); hexDigit (octet mod 16)].

(** The octets of the UTF-8 form of a code point. *)
Definition utf8 (cp : N) : list N :=
  if (cp <? 128)%N then [cp]
  else if (cp <? 2048)%N then [192 + cp / 64; 128 + cp mod 64]%N
  else if (cp <? 65536)%N then
    [224 + cp / 4096; 128 + (cp / 64) mod 64; 128 + cp mod 64]%N
  else
    [240 + cp / 262144; 128 + (cp / 4096) mod 64; 128 + (cp / 64) mod 64;
     128 + cp mod 64]%N.

(** [encodeURIComponent]; [None] stands for the [URIError] thrown on a
    surrogate without its pair. *)
Fixpoint encodeURIComponent (s : jsString) : option jsString :=
  match s with
  | [] => Some []
  | c :: s' =>
      if isUnreserved c then cons c <$> encodeURIComponent s'
      else if between 55296 57343 c then
        if between 55296 56319 c then
          match s' with
          | d :: s'' =>
              if between 56320 57343 d then
                let cp := (65536 + (c - 55296) * 1024 + (d - 56320))%N in
                app (concat (map percent (utf8 cp))) <$> encodeURIComponent s''
              else None
          | [] => None
          end
        else None
      else app (concat (map percent (utf8 c))) <$> encodeURIComponent s'
  end.

(** ** [queryFilters] *)

(** [keyof DataIndex]: what [indexName] can be. *)
Inductive TargetIndex := models | images | articles | users | collections | bounties.

Definition indexName (index : TargetIndex) : string :=
  match index with
  | models => "models"
  | images => "images"
  | articles => "articles"
  | users => "users"
  | collections => "collections"
  | bounties => "bounties"
  end.

Record FilterAttributes := {
  AIR : option regex;
  filters : list (string * regex);
  searchPageMap : list (string * string);
}.

(** [(^|\s+)(?<not>!|-)?MARK(?<value>CLASS+)] *)
Definition filterRe (mark : regex) (cls : N -> bool) : regex :=
  Seq (Capture None (Alt Bol (PlusCls isSpace)))
    (Seq (Opt (Capture (Some "not") (Alt (Chr 33) (Chr 45))))
       (Seq mark (Capture (Some "value") (PlusCls cls)))).

(** [/^civitai:(?<modelId>\d+)@(?<modelVersionId>\d+)/g] *)
Definition airRe : regex :=
  Seq Bol
    (Seq (litRe (lit "civitai:"))
       (Seq (Capture (Some "modelId") (PlusCls isDigit))
          (Seq (Chr 64) (Capture (Some "modelVersionId") (PlusCls isDigit))))).

Definition modelsFilters : FilterAttributes :=
  {| AIR := Some airRe;
     filters :=
       [ ("tags.name", filterRe (Chr 35) isWord);
         ("user.username", filterRe (Chr 64) isWord);
         ("versions.hashes", filterRe (litRe (lit "hash:")) isHashChar) ];
     searchPageMap := [ ("user.username", "users"); ("tags.name", "tags") ] |}.

(** [queryFilters[index]] *)
Definition queryFilters (index : TargetIndex) : option FilterAttributes :=
  match index with
  | models => Some modelsFilters
  | _ => None
  end.

Fixpoint lookup (key : string) (m : list (string * string)) : option string :=
  match m with
  | [] => None
  | (k, v) :: m => if String.eqb k key then Some v else lookup key m
  end.

(** ** [checkAIR] *)

(** [!s] for a string or [undefined]. *)
Definition falsy (s : option jsString) : bool :=
  match s with
  | None | Some [] => true
  | _ => false
  end.

Definition orEmpty (s : option jsString) : jsString :=
  match s with
  | Some s => s
  | None => []
  end.

(** [None] of the outer option is an exception; [null] is the inner
    [None]. *)
Definition checkAIR (index : TargetIndex) (query : jsString) : option (option jsString) :=
  match queryFilters index with
  | None => Some None
  | Some filterAttributes =>
      match AIR filterAttributes with
      | None => Some None
      | Some AIR =>
          ms ← matchAll AIR query;
          match ms with
          | [] => Some None
          | match_ :: _ =>
              match index with
              | models =>
                  let modelId := group "modelId" (m_groups match_) in
                  let modelVersionId := group "modelVersionId" (m_groups match_) in
                  if falsy modelId || falsy modelVersionId then Some None
                  else
                    Some (Some (lit "/models/" ++ orEmpty modelId
                                ++ lit "?modelVersionId=" ++ orEmpty modelVersionId))
              | _ => Some None
              end
          end
      end
  end.

(** ** [parseQuery] *)

Record ParsedQuery := {
  pq_query : jsString;
  pq_filters : jsString;
  pq_searchPageQuery : jsString;
}.

(** The variables [query], [filters] and [searchPageQuery] of the loop. *)
Record ParseState := {
  query : jsString;
  filtersFound : list jsString;
  searchPageFound : list jsString;
}.

(** The body of the inner loop, for one match. *)
Definition addMatch (filterAttributes : FilterAttributes) (attribute : string)
    (st : ParseState) (match_ : Match) : option ParseState :=
  let cleanedMatch := trim <$> group "value" (m_groups match_) in
  let not := bool_decide (group "not" (m_groups match_) <> None) in
  let shown := match cleanedMatch with Some v => v | None => lit "undefined" end in
  encoded ← encodeURIComponent (orEmpty cleanedMatch);
  let page :=
    match lookup attribute (searchPageMap filterAttributes) with
    | Some page => page
    | None => attribute
    end in
  Some {| query := query st;
          filtersFound :=
            filtersFound st
            ++ [(if not then lit "NOT " else []) ++ lit attribute ++ lit " = " ++ shown];
          searchPageFound := searchPageFound st ++ [lit page ++ lit "=" ++ encoded] |}.

Fixpoint addMatches (filterAttributes : FilterAttributes) (attribute : string)
    (st : ParseState) (ms : list Match) : option ParseState :=
  match ms with
  | [] => Some st
  | m :: ms =>
      st' ← addMatch filterAttributes attribute st m;
      addMatches filterAttributes attribute st' ms
  end.

(** The body of the outer loop, for one attribute and its expression. *)
Definition parseAttribute (filterAttributes : FilterAttributes) (st : ParseState)
    (entry : string * regex) : option ParseState :=
  let '(attribute, regex) := entry in
  ms ← matchAll regex (query st);
  st' ← addMatches filterAttributes attribute st ms;
  cleaned ← replaceAllWithEmpty regex (query st');
  Some {| query :=
            if bool_decide (length cleaned = 0%nat)
               && negb (bool_decide (length (filtersFound st') = 0%nat))
            then lit " " else cleaned;
          filtersFound := filtersFound st';
          searchPageFound := searchPageFound st' |}.

Fixpoint parseAttributes (filterAttributes : FilterAttributes) (st : ParseState)
    (entries : list (string * regex)) : option ParseState :=
  match entries with
  | [] => Some st
  | entry :: entries =>
      st' ← parseAttribute filterAttributes st entry;
      parseAttributes filterAttributes st' entries
  end.

Definition parseQuery (index : TargetIndex) (query : jsString) : option ParsedQuery :=
  let st := {| query := query; filtersFound := []; searchPageFound := [] |} in
  st' ← match queryFilters index with
        | Some filterAttributes =>
            parseAttributes filterAttributes st (filters filterAttributes)
        | None => Some st
        end;
  Some {| pq_query := Autocomplete.query st';
          pq_filters := join (lit " AND ") (filtersFound st');
          pq_searchPageQuery := join (lit "&") (searchPageFound st') |}.

(** A filter found and the part of the search page query that goes with
    it: the same value, of the characters the expressions capture, under
    the attribute on one side and under its page on the other. *)
Definition attributePages : list (string * string) :=
  [ ("tags.name", "tags"); ("user.username", "users");
    ("versions.hashes", "versions.hashes") ].

Definition FilterItem (filter part : jsString) : Prop :=
  exists attribute page (negated : bool) value,
    (attribute, page) ∈ attributePages
    /\ value <> [] /\ forallb isHashChar value = true
    /\ filter = (if negated then lit "NOT " else [])
                 ++ lit attribute ++ lit " = " ++ value
    /\ part = lit page ++ lit "=" ++ value.

End Autocomplete.

(** * Properties *)

Section Properties.

Context {NsfwLevel W : Type}.
Variable imports : @Imports NsfwLevel W.
Implicit Types (client : @MeiliSearch NsfwLevel W) (ctx : @SearchIndexRunContext NsfwLevel W).
Implicit Types (s : @World NsfwLevel W) (evs : list (@Event NsfwLevel)).
Implicit Types (row : @TagRow NsfwLevel) (tags : list (@TagRecord NsfwLevel)).

(** ** The queries *)

Lemma tagMatches_tagWhere_Some (watermark : Z) queuedItems row :
  tagMatches (tagWhere (Some watermark) queuedItems) row = true
  <-> tag_unlisted row = false
      /\ tag_adminOnly row = false
      /\ (watermark < tag_createdAt row
          \/ watermark < tag_updatedAt row
          \/ tag_id row ∈ map qi_id queuedItems).
Proof.
  unfold tagMatches, tagWhere. simpl.
  rewrite !andb_true_iff, !orb_true_iff, !Z.ltb_lt, bool_decide_eq_true.
  destruct (tag_unlisted row), (tag_adminOnly row); simpl; intuition congruence.
Qed.

Lemma tagMatches_tagWhere_None queuedItems row :
  tagMatches (tagWhere None queuedItems) row = true
  <-> tag_unlisted row = false /\ tag_adminOnly row = false.
Proof.
  unfold tagMatches, tagWhere. simpl.
  destruct (tag_unlisted row), (tag_adminOnly row); simpl; intuition congruence.
Qed.

Lemma tagFindMany_elem (rows : list (@TagRow NsfwLevel)) a (t : @TagRecord NsfwLevel) :
  t ∈ tagFindMany rows a ->
  exists row, row ∈ rows
    /\ tagMatches (fm_where a) row = true
    /\ t = selectTag (fm_metrics_timeframe a) row.
Proof.
  unfold tagFindMany. intros Hin.
  apply list_elem_of_In, in_map_iff in Hin as (row & <- & Hin).
  apply list_elem_of_In in Hin.
  assert (row ∈ List.filter (tagMatches (fm_where a)) rows) as Hf.
  { rewrite <- (take_drop (fm_skip a)). apply elem_of_app. right.
    rewrite <- (take_drop (fm_take a) (drop _ _)). apply elem_of_app. by left. }
  apply list_elem_of_In, filter_In in Hf as [Hrow Hm].
  exists row. by rewrite list_elem_of_In.
Qed.

Lemma prismaClient_answersFrom (tagsAt : W -> list (@TagRow NsfwLevel))
    (queueAt : W -> list QueueRow) (next : W -> W) :
  answersFrom tagsAt queueAt (prismaClient tagsAt queueAt next).
Proof. split; simpl; by intros a x ? [= <-]. Qed.

Lemma key_determines_row (rows : list (@TagRow NsfwLevel)) row row' :
  NoDup (map tag_id rows) -> row ∈ rows -> row' ∈ rows ->
  tag_id row = tag_id row' -> row = row'.
Proof.
  induction rows as [|r rows IH]; simpl; intros Hnd Hin Hin' Hid.
  - by apply elem_of_nil in Hin.
  - apply NoDup_cons in Hnd as [Hr Hnd].
    apply elem_of_cons in Hin as [->|Hin]; apply elem_of_cons in Hin' as [->|Hin'].
    + done.
    + destruct Hr. rewrite Hid. apply list_elem_of_In, in_map, list_elem_of_In, Hin'.
    + destruct Hr. rewrite <- Hid. apply list_elem_of_In, in_map, list_elem_of_In, Hin.
    + by apply IH.
Qed.

(** What a page answered from a table holds. *)
Lemma tagFindMany_onlyVisible (rows : list (@TagRow NsfwLevel)) offset lu queuedItems :
  let tags := tagFindMany rows (tagFindManyArgs offset lu queuedItems) in
  (forall t, t ∈ tags ->
     exists row, row ∈ rows /\ tag_unlisted row = false /\ tag_adminOnly row = false
       /\ t = selectTag AllTime row)
  /\ onlyVisible rows (map rec_id tags).
Proof.
  simpl.
  assert (forall t, t ∈ tagFindMany rows (tagFindManyArgs offset lu queuedItems) ->
     exists row, row ∈ rows /\ tag_unlisted row = false /\ tag_adminOnly row = false
       /\ t = selectTag AllTime row) as Hsel.
  { intros t Ht. apply tagFindMany_elem in Ht as (row & Hrow & Hm & ->).
    exists row. split; [done|]. simpl in Hm.
    destruct lu as [watermark|].
    - apply tagMatches_tagWhere_Some in Hm as (Hu & Ha & _). done.
    - apply tagMatches_tagWhere_None in Hm as (Hu & Ha). done. }
  split; [done|].
  assert (forall i, i ∈ map rec_id (tagFindMany rows (tagFindManyArgs offset lu queuedItems)) ->
     exists row, row ∈ rows /\ tag_id row = i
       /\ tag_unlisted row = false /\ tag_adminOnly row = false) as Hids.
  { intros i Hi. apply list_elem_of_In, in_map_iff in Hi as (t & <- & Ht).
    apply list_elem_of_In, Hsel in Ht as (row & Hrow & Hu & Ha & ->). by exists row. }
  split; [done|].
  intros Hnd row Hrow Hhidden Hi.
  apply Hids in Hi as (row' & Hrow' & Hid & Hu & Ha).
  assert (row' = row) as -> by by apply (key_determines_row rows).
  destruct Hhidden; congruence.
Qed.

Lemma queueFindMany_ids (rows : list QueueRow) (ty : string) (i : Z) :
  i ∈ map qi_id (queueFindMany rows {| qfm_type := ty |})
  <-> exists q, q ∈ rows /\ queue_type q = ty /\ queue_id q = i.
Proof.
  unfold queueFindMany. rewrite map_map. simpl.
  rewrite list_elem_of_In, in_map_iff. split.
  - intros (q & <- & Hq). apply filter_In in Hq as [Hq Hty].
    apply bool_decide_eq_true in Hty. exists q. by rewrite list_elem_of_In.
  - intros (q & Hq & Hty & <-). exists q. split; [done|].
    apply filter_In. split; [by apply list_elem_of_In|]. by apply bool_decide_eq_true.
Qed.

(** ** The monad *)

Lemma await_inv {A} (call : Call A) (ev : Result A -> Event) s o s' :
  await call ev s = (o, s') ->
  exists r,
    (call (outside s)).1 = r
    /\ outside s' = (call (outside s)).2
    /\ trace s' = trace s ++ [ev r]
    /\ o = match r with Resolved a => Returned a | Rejected e => Threw e end.
Proof.
  unfold await. destruct (call (outside s)) as [r x].
  destruct r; intros [= <- <-]; eexists; simpl; eauto.
Qed.

Lemma bind_inv {A B} (m : M A) (k : A -> M B) s (o : Outcome B) (s' : @World NsfwLevel W) :
  bind m k s = (o, s') ->
  (exists a s1, m s = (Returned a, s1) /\ k a s1 = (o, s'))
  \/ (exists e, m s = (Threw e, s') /\ o = Threw e)
  \/ (m s = (OutOfFuel, s') /\ o = OutOfFuel).
Proof.
  unfold bind. destruct (m s) as [[a|e|] s1]; intros H.
  - left. eauto.
  - right. left. injection H as <- <-. eauto.
  - right. right. injection H as <- <-. eauto.
Qed.

Lemma bind_unfold {A B} (m : M A) (k : A -> M B) (s : @World NsfwLevel W) :
  bind m k s =
  match m s with
  | (Returned a, s') => k a s'
  | (Threw e, s') => (Threw e, s')
  | (OutOfFuel, s') => (OutOfFuel, s')
  end.
Proof. reflexivity. Qed.

Lemma bind_await {A B} (call : Call A) (ev : Result A -> Event) (k : A -> M B) s :
  bind (await call ev) k s =
  let r := (call (outside s)).1 in
  let s1 := {| outside := (call (outside s)).2; trace := trace s ++ [ev r] |} in
  match r with
  | Resolved a => k a s1
  | Rejected e => (Threw e, s1)
  end.
Proof. unfold bind, await. by destruct (call (outside s)) as [[a|e] x]. Qed.

(** One awaited call of a run [H], with its answer [r] and the equation
    [E] saying which call gave it. *)
Ltac await_step H r E :=
  rewrite bind_await in H; cbv zeta in H;
  match type of H with
  | context [match (?c).1 with _ => _ end] => destruct (c.1) as [r|r] eqn:E
  end.

Lemma newEvents_app s s' evs : trace s' = trace s ++ evs -> newEvents s s' = evs.
Proof. unfold newEvents. intros ->. by rewrite drop_app_length. Qed.

(** ** [onIndexSetup] *)

(** Setup makes setup calls only, and it needs no fuel. *)
Lemma onIndexSetup_trace s o s' :
  onIndexSetup imports s = (o, s') ->
  exists evs, trace s' = trace s ++ evs
    /\ forallb isSetupEvent evs = true
    /\ o <> OutOfFuel.
Proof.
  unfold onIndexSetup. destruct (client imports) as [c|].
  - intros H. await_step H r1 E1; [destruct r1 as [index|]|].
    + await_step H r2 E2.
      * await_step H r3 E3.
        -- apply await_inv in H as (r4 & _ & _ & T4 & ->). simpl in T4.
           eexists. rewrite T4, <- !app_assoc. split; [done|].
           split; [done|]. by destruct r4.
        -- injection H as <- <-. simpl. eexists. rewrite <- !app_assoc. done.
      * injection H as <- <-. simpl. eexists. rewrite <- !app_assoc. done.
    + injection H as <- <-. simpl. eexists. done.
    + injection H as <- <-. simpl. eexists. done.
  - intros [= <- <-]. exists []. by rewrite app_nil_r.
Qed.

(** ** The loop *)

Lemma fetchLoop_run client ctx queuedItems fuel : forall offset tagTasks s o s',
  fetchLoop client ctx queuedItems fuel offset tagTasks s = (o, s') ->
  exists evs, trace s' = trace s ++ evs
    /\ LoopRun client ctx queuedItems offset tagTasks evs o.
Proof.
  induction fuel as [|fuel IH]; intros offset tagTasks s o s' H; simpl in H.
  - injection H as <- <-. exists []. rewrite app_nil_r. split; [done|]. apply LoopRun_fuel.
  - destruct (Nat.ltb_spec offset READ_BATCH_SIZE) as [Hlt|Hge].
    + await_step H tags E1.
      * destruct (Nat.eqb_spec (length tags) 0) as [Hlen|Hlen].
        -- injection H as <- <-. apply nil_length_inv in Hlen. subst tags.
           eexists. split; [done|]. by eapply LoopRun_break.
        -- assert (tags <> []) as Hne by (by intros ->).
           await_step H task E2.
           ++ apply IH in H as (evs & T & R). simpl in T.
              eexists. rewrite T, <- !app_assoc. split; [done|].
              simpl. by eapply LoopRun_next.
           ++ injection H as <- <-. simpl.
              eexists. rewrite <- !app_assoc. split; [done|].
              simpl. by eapply LoopRun_submit_rejected.
      * injection H as <- <-. simpl.
        eexists. split; [done|]. by eapply LoopRun_fetch_rejected.
    + injection H as <- <-. exists []. rewrite app_nil_r. split; [done|].
      by apply LoopRun_limit.
Qed.

(** The loop needs at most one test of its condition per unit of distance
    between the offset and [READ_BATCH_SIZE], and one more. *)
Lemma fetchLoop_enough_fuel client ctx queuedItems fuel : forall offset tagTasks s,
  (READ_BATCH_SIZE - offset < fuel)%nat ->
  (fetchLoop client ctx queuedItems fuel offset tagTasks s).1 <> OutOfFuel.
Proof.
  induction fuel as [|fuel IH]; intros offset tagTasks s Hfuel; [lia|].
  simpl. destruct (Nat.ltb_spec offset READ_BATCH_SIZE) as [Hlt|Hge]; [|done].
  rewrite bind_await. cbv zeta.
  destruct ((tag_findMany (db ctx) _ _).1) as [tags|e]; [|done].
  destruct (Nat.eqb_spec (length tags) 0) as [Hlen|Hlen]; [done|].
  rewrite bind_await. cbv zeta.
  destruct ((index_updateDocuments client _ _ _).1) as [task|e]; [|done].
  apply IH. lia.
Qed.

Lemma fetchLoop_fuel_irrelevant client ctx queuedItems fuel :
  forall fuel' offset tagTasks s,
  (READ_BATCH_SIZE - offset < fuel)%nat ->
  (READ_BATCH_SIZE - offset < fuel')%nat ->
  fetchLoop client ctx queuedItems fuel offset tagTasks s
  = fetchLoop client ctx queuedItems fuel' offset tagTasks s.
Proof.
  induction fuel as [|fuel IH]; intros fuel' offset tagTasks s Hfuel Hfuel'; [lia|].
  destruct fuel' as [|fuel']; [lia|].
  simpl. destruct (Nat.ltb_spec offset READ_BATCH_SIZE) as [Hlt|Hge]; [|done].
  rewrite !bind_await. cbv zeta.
  destruct ((tag_findMany (db ctx) _ _).1) as [tags|e]; [|done].
  destruct (Nat.eqb_spec (length tags) 0) as [Hlen|Hlen]; [done|].
  rewrite !bind_await. cbv zeta.
  destruct ((index_updateDocuments client _ _ _).1) as [task|e]; [|done].
  apply IH; lia.
Qed.

(** *** What a run of the loop looks like *)

Lemma LoopRun_events client ctx queuedItems offset tagTasks evs o :
  LoopRun client ctx queuedItems offset tagTasks evs o ->
  forallb isLoopEvent evs = true.
Proof. induction 1; simpl; auto. Qed.

Lemma LoopRun_tasks client ctx queuedItems offset tagTasks evs o :
  LoopRun client ctx queuedItems offset tagTasks evs o ->
  forall tagTasks', o = Returned tagTasks' ->
  tagTasks' = tagTasks ++ submittedTasks evs.
Proof.
  induction 1; intros tagTasks' Ho; simplify_eq; simpl; rewrite ?app_nil_r; try done.
  rewrite (IHLoopRun _ eq_refl), <- app_assoc. done.
Qed.

Lemma LoopRun_pages client ctx queuedItems offset tagTasks evs o :
  LoopRun client ctx queuedItems offset tagTasks evs o ->
  pagesFrom offset (fetchedPages evs).
Proof.
  induction 1; simpl; auto.
  split; [done|]. split; [done|]. done.
Qed.

Lemma LoopRun_fetch client ctx queuedItems offset tagTasks evs o :
  LoopRun client ctx queuedItems offset tagTasks evs o ->
  forall a r, TagFindMany a r ∈ evs ->
  a = tagFindManyArgs (fm_skip a) (lastUpdatedAt ctx) queuedItems
  /\ exists x, (tag_findMany (db ctx) a x).1 = r.
Proof.
  induction 1; intros a r Hin;
    repeat (apply elem_of_cons in Hin as [Hin|Hin]; simplify_eq);
    try (by apply elem_of_nil in Hin); eauto.
Qed.

Lemma LoopRun_submit client ctx queuedItems offset tagTasks evs o :
  LoopRun client ctx queuedItems offset tagTasks evs o ->
  forall indexName docs r, UpdateDocuments indexName docs r ∈ evs ->
  indexName = INDEX_NAME
  /\ exists a tags, TagFindMany a (Resolved tags) ∈ evs
       /\ tags <> [] /\ docs = map indexReadyRecord tags.
Proof.
  induction 1; intros indexName docs' r Hin;
    repeat (apply elem_of_cons in Hin as [Hin|Hin]; simplify_eq);
    try (by apply elem_of_nil in Hin).
  - split; [done|]. eexists _, _. split; [apply elem_of_cons; by left|done].
  - split; [done|]. eexists _, _. split; [apply elem_of_cons; by left|done].
  - destruct (IHLoopRun _ _ _ Hin) as (-> & a & tags' & Hf & Hne & ->).
    split; [done|]. exists a, tags'. split; [|done].
    rewrite !elem_of_cons. auto.
Qed.

(** ** [onIndexUpdate] *)

Lemma onIndexUpdate_run c fuel ctx s o s' :
  client imports = Some c ->
  onIndexUpdate imports fuel ctx s = (o, s') ->
  exists o1 s1, onIndexSetup imports s = (o1, s1)
    /\ match o1 with
       | Returned _ =>
           exists evs, trace s' = trace s1 ++ evs /\ UpdateRun c ctx (outside s1) evs o
       | Threw e => o = Threw e /\ s' = s1
       | OutOfFuel => o = OutOfFuel /\ s' = s1
       end.
Proof.
  unfold onIndexUpdate. intros -> H.
  apply bind_inv in H as [(a & s1 & H1 & H)|[(e & H1 & ->)|[H1 ->]]];
    [|by exists (Threw e), s'|by exists OutOfFuel, s'].
  exists (Returned a), s1. split; [done|].
  await_step H queuedItems E.
  - apply bind_inv in H as [(tagTasks & s2 & H2 & H)|[(e & H2 & ->)|[H2 ->]]];
      apply fetchLoop_run in H2 as (evs & T & R); simpl in T.
    + apply await_inv in H as (r & A & _ & T' & ->).
      eexists. rewrite T', T, <- !app_assoc. split; [done|].
      simpl. by eapply UpdateRun_wait.
    + eexists. rewrite T, <- !app_assoc. split; [done|]. by eapply UpdateRun_loop_threw.
    + eexists. rewrite T, <- !app_assoc. split; [done|]. by eapply UpdateRun_loop_fuel.
  - injection H as <- <-. simpl. eexists. split; [done|].
    by eapply UpdateRun_queue_rejected.
Qed.

Lemma setup_event_in evs ev :
  forallb isSetupEvent evs = true -> ev ∈ evs -> isSetupEvent ev = true.
Proof.
  intros Hall Hin. apply list_elem_of_In in Hin.
  by apply (proj1 (forallb_forall _ _) Hall).
Qed.

Lemma loop_event_in evs ev :
  forallb isLoopEvent evs = true -> ev ∈ evs -> isLoopEvent ev = true.
Proof.
  intros Hall Hin. apply list_elem_of_In in Hin.
  by apply (proj1 (forallb_forall _ _) Hall).
Qed.

(** A run is a run of setup, then nothing more or a run of the rest. *)
Lemma onIndexUpdate_shape fuel ctx s o s' :
  onIndexUpdate imports fuel ctx s = (o, s') ->
  exists setupEvs rest,
    trace s' = trace s ++ setupEvs ++ rest
    /\ forallb isSetupEvent setupEvs = true
    /\ (rest = [] \/ exists c x, client imports = Some c /\ UpdateRun c ctx x rest o).
Proof.
  intros H. destruct (client imports) as [c|] eqn:Hc.
  - destruct (onIndexUpdate_run _ _ _ _ _ _ Hc H) as (o1 & s1 & H1 & Hrest).
    destruct (onIndexSetup_trace _ _ _ H1) as (evs1 & T1 & Hall & _).
    destruct o1 as [a|e|].
    + destruct Hrest as (rest & T & R). exists evs1, rest.
      rewrite T, T1, <- app_assoc. split; [done|]. split; [done|]. right. by exists c, (outside s1).
    + destruct Hrest as [-> ->]. exists evs1, []. rewrite app_nil_r. auto.
    + destruct Hrest as [-> ->]. exists evs1, []. rewrite app_nil_r. auto.
  - unfold onIndexUpdate in H. rewrite Hc in H. injection H as <- <-.
    exists [], []. rewrite app_nil_r. auto.
Qed.

(** Every tag query of a run is built from the run's watermark and from
    the queue entries the run has read, and its answer is the database's. *)
Lemma onIndexUpdate_fetch fuel ctx s o s' a r :
  onIndexUpdate imports fuel ctx s = (o, s') ->
  TagFindMany a r ∈ newEvents s s' ->
  let queueArgs := {| qfm_type := INDEX_NAME |} in
  exists queuedItems,
    QueueFindMany queueArgs (Resolved queuedItems) ∈ newEvents s s'
    /\ (exists x, (searchIndexUpdateQueue_findMany (db ctx) queueArgs x).1
                  = Resolved queuedItems)
    /\ a = tagFindManyArgs (fm_skip a) (lastUpdatedAt ctx) queuedItems
    /\ exists x, (tag_findMany (db ctx) a x).1 = r.
Proof.
  intros H Hin. simpl.
  destruct (onIndexUpdate_shape _ _ _ _ _ H) as (evs1 & rest & T & Hall & Hrest).
  rewrite (newEvents_app _ _ _ T) in *.
  apply elem_of_app in Hin as [Hin|Hin].
  { by apply (setup_event_in _ _ Hall) in Hin. }
  destruct Hrest as [->|(c & x & Hc & R)]; [by apply elem_of_nil in Hin|].
  assert (forall items evs o2, LoopRun c ctx items 0 [] evs o2 ->
            (searchIndexUpdateQueue_findMany (db ctx) {| qfm_type := INDEX_NAME |} x).1
            = Resolved items ->
            TagFindMany a r ∈ evs ->
            forall tl, exists queuedItems,
              QueueFindMany {| qfm_type := INDEX_NAME |} (Resolved queuedItems)
                ∈ evs1 ++ QueueFindMany {| qfm_type := INDEX_NAME |} (Resolved items)
                           :: evs ++ tl
              /\ (exists x, (searchIndexUpdateQueue_findMany (db ctx)
                               {| qfm_type := INDEX_NAME |} x).1 = Resolved queuedItems)
              /\ a = tagFindManyArgs (fm_skip a) (lastUpdatedAt ctx) queuedItems
              /\ exists x, (tag_findMany (db ctx) a x).1 = r) as Hloop.
  { intros items evs o2 L E Hin' tl.
    destruct (LoopRun_fetch _ _ _ _ _ _ _ L _ _ Hin') as [Ha Hx].
    exists items. split; [rewrite elem_of_app, elem_of_cons; auto|].
    split; [by exists x|]. done. }
  inversion R as [e queueArgs E|items evs e queueArgs E L|items evs queueArgs E L
                 |items evs tagTasks y rw queueArgs E L uids A]; subst;
    repeat (apply elem_of_cons in Hin as [Hin|Hin]; simplify_eq);
    try (by apply elem_of_nil in Hin).
  - specialize (Hloop _ _ _ L E Hin []). by rewrite app_nil_r in Hloop.
  - specialize (Hloop _ _ _ L E Hin []). by rewrite app_nil_r in Hloop.
  - apply elem_of_app in Hin as [Hin|Hin].
    + by apply (Hloop _ _ _ L E Hin).
    + apply elem_of_cons in Hin as [Hin|Hin]; [done|by apply elem_of_nil in Hin].
Qed.

(** Every submission of a run carries the transformed records of a
    non-empty page the run has fetched. *)
Lemma onIndexUpdate_submit fuel ctx s o s' indexName docs r :
  onIndexUpdate imports fuel ctx s = (o, s') ->
  UpdateDocuments indexName docs r ∈ newEvents s s' ->
  indexName = INDEX_NAME
  /\ exists a tags, TagFindMany a (Resolved tags) ∈ newEvents s s'
       /\ tags <> [] /\ docs = map indexReadyRecord tags.
Proof.
  intros H Hin. destruct (onIndexUpdate_shape _ _ _ _ _ H) as (evs1 & rest & T & Hall & Hrest).
  rewrite (newEvents_app _ _ _ T) in *.
  apply elem_of_app in Hin as [Hin|Hin].
  { by apply (setup_event_in _ _ Hall) in Hin. }
  destruct Hrest as [->|(c & x & Hc & R)]; [by apply elem_of_nil in Hin|].
  assert (forall items evs o2, LoopRun c ctx items 0 [] evs o2 ->
            UpdateDocuments indexName docs r ∈ evs ->
            forall tl, indexName = INDEX_NAME
            /\ exists a tags,
                 TagFindMany a (Resolved tags)
                   ∈ evs1 ++ QueueFindMany {| qfm_type := INDEX_NAME |} (Resolved items)
                              :: evs ++ tl
                 /\ tags <> [] /\ docs = map indexReadyRecord tags) as Hloop.
  { intros items evs o2 L Hin' tl.
    destruct (LoopRun_submit _ _ _ _ _ _ _ L _ _ _ Hin') as (-> & a & tags & Hf & Hne & ->).
    split; [done|]. exists a, tags. split; [|done].
    rewrite elem_of_app, elem_of_cons, elem_of_app. auto. }
  inversion R as [e queueArgs E|items evs e queueArgs E L|items evs queueArgs E L
                 |items evs tagTasks y rw queueArgs E L uids A]; subst;
    repeat (apply elem_of_cons in Hin as [Hin|Hin]; simplify_eq);
    try (by apply elem_of_nil in Hin).
  - specialize (Hloop _ _ _ L Hin []). by rewrite app_nil_r in Hloop.
  - specialize (Hloop _ _ _ L Hin []). by rewrite app_nil_r in Hloop.
  - apply elem_of_app in Hin as [Hin|Hin].
    + by apply (Hloop _ _ _ L Hin).
    + apply elem_of_cons in Hin as [Hin|Hin]; [done|by apply elem_of_nil in Hin].
Qed.

(** ** Which records a run selects *)

(** C2, as amended. With a watermark, and a database answering from its
    tables, a row passes the filter of every tag query of a run exactly
    when it is neither unlisted nor admin-only and was created after the
    watermark, or updated after it, or has its id in an entry for the index
    of the queue as the run has read it. *)
Theorem selected_iff_visible_and_changed_or_queued
    tagsAt queueAt fuel ctx s o s' watermark a r :
  answersFrom tagsAt queueAt (db ctx) ->
  lastUpdatedAt ctx = Some watermark ->
  onIndexUpdate imports fuel ctx s = (o, s') ->
  TagFindMany a r ∈ newEvents s s' ->
  exists x,
    QueueFindMany {| qfm_type := INDEX_NAME |}
      (Resolved (queueFindMany (queueAt x) {| qfm_type := INDEX_NAME |}))
      ∈ newEvents s s'
    /\ forall row,
         tagMatches (fm_where a) row = true
         <-> tag_unlisted row = false
             /\ tag_adminOnly row = false
             /\ (watermark < tag_createdAt row
                 \/ watermark < tag_updatedAt row
                 \/ exists q, q ∈ queueAt x
                      /\ queue_type q = INDEX_NAME /\ queue_id q = tag_id row).
Proof.
  intros [_ Hstore] Hwm H Hin.
  destruct (onIndexUpdate_fetch _ _ _ _ _ _ _ H Hin) as (queuedItems & Hq & (x & Hx) & Ha & _).
  apply Hstore in Hx. subst queuedItems.
  exists x. split; [done|]. intros row.
  rewrite Ha, Hwm, <- (queueFindMany_ids (queueAt x) INDEX_NAME (tag_id row)).
  apply tagMatches_tagWhere_Some.
Qed.

(** Without a watermark, every tag query of a run carries no [OR]
    condition: a row passes its filter exactly when it is neither unlisted
    nor admin-only, whatever its dates and whatever the queue holds. *)
Lemma no_restriction_without_watermark fuel ctx s o s' a r :
  lastUpdatedAt ctx = None ->
  onIndexUpdate imports fuel ctx s = (o, s') ->
  TagFindMany a r ∈ newEvents s s' ->
  where_OR (fm_where a) = None
  /\ forall row,
       tagMatches (fm_where a) row = true
       <-> tag_unlisted row = false /\ tag_adminOnly row = false.
Proof.
  intros Hwm H Hin.
  destruct (onIndexUpdate_fetch _ _ _ _ _ _ _ H Hin) as (queuedItems & _ & _ & Ha & _).
  rewrite Ha, Hwm. split; [done|]. intros row. apply tagMatches_tagWhere_None.
Qed.

(** C9. When the database answers from its tables, every record of every
    page a run fetches, and every document the run submits, comes from a
    row of the table, as it was when the page was fetched, that has
    [unlisted = false] and [adminOnly = false]; ids being a key of the
    table, no row hidden at that moment is among them, whatever its dates
    and whatever the queue holds. *)
Theorem hidden_tags_never_indexed tagsAt queueAt fuel ctx s o s' :
  answersFrom tagsAt queueAt (db ctx) ->
  onIndexUpdate imports fuel ctx s = (o, s') ->
  (forall a tags, TagFindMany a (Resolved tags) ∈ newEvents s s' ->
     exists x,
       (forall t, t ∈ tags ->
          exists row, row ∈ tagsAt x
            /\ tag_unlisted row = false /\ tag_adminOnly row = false
            /\ t = selectTag AllTime row)
       /\ onlyVisible (tagsAt x) (map rec_id tags))
  /\ (forall indexName docs r, UpdateDocuments indexName docs r ∈ newEvents s s' ->
     exists x,
       (forall d, d ∈ docs ->
          exists row, row ∈ tagsAt x
            /\ tag_unlisted row = false /\ tag_adminOnly row = false
            /\ d = indexReadyRecord (selectTag AllTime row))
       /\ onlyVisible (tagsAt x) (map doc_id docs)).
Proof.
  intros [Hstore _] H.
  assert (forall a tags, TagFindMany a (Resolved tags) ∈ newEvents s s' ->
     exists x,
       (forall t, t ∈ tags ->
          exists row, row ∈ tagsAt x
            /\ tag_unlisted row = false /\ tag_adminOnly row = false
            /\ t = selectTag AllTime row)
       /\ onlyVisible (tagsAt x) (map rec_id tags)) as Hfetch.
  { intros a tags Hin.
    destruct (onIndexUpdate_fetch _ _ _ _ _ _ _ H Hin) as (queuedItems & _ & _ & Ha & x & Hx).
    rewrite (Hstore _ _ _ Hx), Ha. exists x. apply tagFindMany_onlyVisible. }
  split; [done|].
  intros indexName docs r Hin.
  destruct (onIndexUpdate_submit _ _ _ _ _ _ _ _ H Hin) as (_ & a & tags & Hf & _ & ->).
  destruct (Hfetch _ _ Hf) as (x & Hsel & Hvis). exists x. split.
  - intros d Hd. apply list_elem_of_In, in_map_iff in Hd as (t & <- & Ht).
    apply list_elem_of_In, Hsel in Ht as (row & Hrow & Hu & Ha & ->). by exists row.
  - by rewrite map_map.
Qed.

(** ** The transformation *)

Lemma spreadMetric_dom (m : TagMetricSelect) :
  dom (spreadMetric m) = list_to_set (C := gset string) metricFields.
Proof. unfold spreadMetric. rewrite !dom_insert_L, dom_empty_L. simpl. set_solver. Qed.

(** C4, as amended. The document of a fetched row keeps the selected
    columns. Its [metrics] object is the spread of the first all-time
    metrics row, holding the six metric fields with the values of that
    row, and it is the empty object when the row has no all-time metrics. *)
Theorem metrics_flattened_or_empty row :
  let doc := indexReadyRecord (selectTag AllTime row) in
  doc_id doc = tag_id row
  /\ doc_name doc = tag_name row
  /\ doc_nsfw doc = tag_nsfw row
  /\ doc_isCategory doc = tag_isCategory row
  /\ match List.filter (fun m => bool_decide (tm_timeframe m = AllTime)) (tag_metrics row) with
     | [] => doc_metrics doc = ∅ /\ forall field, doc_metrics doc !! field = None
     | m :: _ =>
         doc_metrics doc !! "postCount" = Some (tm_postCount m)
         /\ doc_metrics doc !! "articleCount" = Some (tm_articleCount m)
         /\ doc_metrics doc !! "followerCount" = Some (tm_followerCount m)
         /\ doc_metrics doc !! "modelCount" = Some (tm_modelCount m)
         /\ doc_metrics doc !! "imageCount" = Some (tm_imageCount m)
         /\ doc_metrics doc !! "hiddenCount" = Some (tm_hiddenCount m)
         /\ dom (doc_metrics doc) = list_to_set (C := gset string) metricFields
     end.
Proof.
  simpl. repeat (split; [done|]).
  destruct (List.filter _ (tag_metrics row)) as [|m ms]; simpl.
  - split; [done|]. intros field. apply lookup_empty.
  - unfold flattenMetrics. simpl. repeat (split; [done|]). apply spreadMetric_dom.
Qed.

(** ** Runs without a search engine, and runs whose setup fails *)

(** C10. Without a client, [onIndexUpdate] returns at once: it throws
    nothing and makes no call, so the trace and the outside are as they
    were; so does [onIndexSetup]. *)
Theorem absent_client_returns_at_once fuel ctx s :
  client imports = None ->
  onIndexUpdate imports fuel ctx s = (Returned tt, s)
  /\ newEvents s (onIndexUpdate imports fuel ctx s).2 = []
  /\ onIndexSetup imports s = (Returned tt, s).
Proof.
  intros Hc. unfold onIndexUpdate, onIndexSetup. rewrite Hc. simpl.
  split; [done|]. split; [|done]. unfold newEvents. apply drop_all.
Qed.

(** When [getOrCreateIndex] resolves to no index, setup returns without
    an error after that one call. *)
Lemma missing_index_setup_returns c s :
  client imports = Some c ->
  (getOrCreateIndex imports INDEX_NAME (outside s)).1 = Resolved None ->
  exists s1, onIndexSetup imports s = (Returned tt, s1)
    /\ newEvents s s1 = [GetOrCreateIndex INDEX_NAME (Resolved None)].
Proof.
  intros Hc Hnone. unfold onIndexSetup. rewrite Hc, bind_await. cbv zeta.
  rewrite Hnone. eexists. split; [done|]. by apply newEvents_app.
Qed.

(** C5, as amended. When setup throws, whichever of its calls rejected,
    [onIndexUpdate] throws the same error where setup stopped: the queue is
    not read, no tags are fetched and no documents are submitted. A
    [getOrCreateIndex] that resolves to no index is not such a failure. *)
Theorem setup_error_stops_run fuel ctx s e s1 :
  onIndexSetup imports s = (Threw e, s1) ->
  onIndexUpdate imports fuel ctx s = (Threw e, s1)
  /\ (forall ev, ev ∈ newEvents s s1 ->
        isQueueRead ev = false /\ isTagFetch ev = false /\ isSubmission ev = false)
  /\ client imports <> None
  /\ (getOrCreateIndex imports INDEX_NAME (outside s)).1 <> Resolved None.
Proof.
  intros H1.
  assert (client imports <> None) as Hc.
  { intros Hc. unfold onIndexSetup in H1. by rewrite Hc in H1. }
  split; [|split; [|split; [done|]]].
  - unfold onIndexUpdate. destruct (client imports) as [c|]; [|done].
    unfold bind. by rewrite H1.
  - destruct (onIndexSetup_trace _ _ _ H1) as (evs & T & Hall & _).
    rewrite (newEvents_app _ _ _ T). intros ev Hin.
    apply (setup_event_in _ _ Hall) in Hin. by destruct ev.
  - intros Hnone. destruct (client imports) as [c|] eqn:Hc'; [|done].
    destruct (missing_index_setup_returns c s Hc' Hnone) as (s2 & H2 & _).
    by rewrite H2 in H1.
Qed.

(** ** The task handles *)

(** A run that returns with a client at hand has made, as its last
    call, one [waitForTasks] that resolved, and that call was given the
    handle of every [updateDocuments] that resolved during the run, in
    order; between the read of the queue and this call the run has only
    fetched pages and submitted documents. *)
Lemma returned_run_awaits_all_handles c fuel ctx s s' :
  client imports = Some c ->
  onIndexUpdate imports fuel ctx s = (Returned tt, s') ->
  exists setupEvs queuedItems loopEvs,
    newEvents s s'
    = setupEvs
      ++ QueueFindMany {| qfm_type := INDEX_NAME |} (Resolved queuedItems)
      :: loopEvs
      ++ [WaitForTasks (map taskUid (submittedTasks loopEvs)) (Resolved tt)]
    /\ forallb isSetupEvent setupEvs = true
    /\ forallb isLoopEvent loopEvs = true
    /\ forall indexName docs task,
         UpdateDocuments indexName docs (Resolved task) ∈ newEvents s s' ->
         UpdateDocuments indexName docs (Resolved task) ∈ loopEvs
         /\ taskUid task ∈ map taskUid (submittedTasks loopEvs).
Proof.
  intros Hc H.
  destruct (onIndexUpdate_run _ _ _ _ _ _ Hc H) as (o1 & s1 & H1 & Hrest).
  destruct (onIndexSetup_trace _ _ _ H1) as (evs1 & T1 & Hall & _).
  destruct o1 as [a|e|]; [|by destruct Hrest|by destruct Hrest].
  destruct Hrest as (rest & T & R).
  inversion R as [| | |items evs tagTasks y rw queueArgs E L uids A Hevs Ho]; subst.
  subst queueArgs uids.
  destruct ((waitForTasks c _ y).1) as [[]|e]; [|done].
  pose proof (LoopRun_tasks _ _ _ _ _ _ _ L _ eq_refl) as Htasks. simpl in Htasks.
  pose proof (LoopRun_events _ _ _ _ _ _ _ L) as Hloop.
  subst tagTasks.
  exists evs1, items, evs.
  assert (trace s' = trace s ++ evs1
            ++ QueueFindMany {| qfm_type := INDEX_NAME |} (Resolved items)
            :: evs ++ [WaitForTasks (map taskUid (submittedTasks evs)) (Resolved tt)]) as T'.
  { rewrite T, T1, <- app_assoc. done. }
  rewrite (newEvents_app _ _ _ T').
  split; [done|]. split; [done|]. split; [done|].
  intros indexName docs task Hin.
  assert (UpdateDocuments indexName docs (Resolved task) ∈ evs) as Hin'.
  { apply elem_of_app in Hin as [Hin|Hin].
    { by apply (setup_event_in _ _ Hall) in Hin. }
    apply elem_of_cons in Hin as [Hin|Hin]; [done|].
    apply elem_of_app in Hin as [Hin|Hin]; [done|].
    apply elem_of_cons in Hin as [Hin|Hin]; [done|by apply elem_of_nil in Hin]. }
  split; [done|].
  clear -Hin'. induction evs as [|ev evs IH]; [by apply elem_of_nil in Hin'|].
  apply elem_of_cons in Hin' as [<-|Hin'].
  - simpl. apply elem_of_cons. by left.
  - specialize (IH Hin'). destruct ev as [| | | | | |? ? [t|]]; simpl; try done.
    apply elem_of_cons. by right.
Qed.

(** ** The snapshot of the queue *)

Lemma loop_events_no_queue_read evs :
  forallb isLoopEvent evs = true -> existsb isQueueRead evs = false.
Proof.
  induction evs as [|ev evs IH]; [done|]. simpl.
  intros [Hev Hall]%andb_true_iff. rewrite (IH Hall). by destruct ev.
Qed.

Lemma setup_events_no_db_call evs :
  forallb isSetupEvent evs = true ->
  existsb isQueueRead evs = false /\ existsb isTagFetch evs = false.
Proof.
  induction evs as [|ev evs IH]; [done|]. simpl.
  intros [Hev Hall]%andb_true_iff. destruct (IH Hall) as [-> ->]. by destruct ev.
Qed.

Lemma UpdateRun_snapshot c ctx x evs o :
  UpdateRun c ctx x evs o ->
  let queueArgs := {| qfm_type := INDEX_NAME |} in
  let answer := (searchIndexUpdateQueue_findMany (db ctx) queueArgs x).1 in
  exists rest,
    evs = QueueFindMany queueArgs answer :: rest
    /\ existsb isQueueRead rest = false
    /\ forall a r, TagFindMany a r ∈ rest ->
         exists queuedItems, answer = Resolved queuedItems
           /\ a = tagFindManyArgs (fm_skip a) (lastUpdatedAt ctx) queuedItems.
Proof.
  intros R. simpl.
  inversion R as [e queueArgs E|items evs' e queueArgs E L|items evs' queueArgs E L
                 |items evs' tagTasks y rw queueArgs E L uids A]; subst; subst queueArgs;
    rewrite E; eexists; (split; [done|]).
  - split; [done|]. intros a r Hin. by apply elem_of_nil in Hin.
  - split; [by eapply loop_events_no_queue_read, LoopRun_events|].
    intros a r Hin. exists items. split; [done|]. by eapply LoopRun_fetch.
  - split; [by eapply loop_events_no_queue_read, LoopRun_events|].
    intros a r Hin. exists items. split; [done|]. by eapply LoopRun_fetch.
  - split.
    + rewrite existsb_app. simpl.
      by erewrite loop_events_no_queue_read by by eapply LoopRun_events.
    + intros a r Hin. exists items. split; [done|].
      apply elem_of_app in Hin as [Hin|Hin]; [by eapply LoopRun_fetch|].
      apply elem_of_cons in Hin as [Hin|Hin]; [done|by apply elem_of_nil in Hin].
Qed.

(** C7. Once setup has returned, the run reads the queue once, asking for
    the entries whose type is the index name, before any page is fetched,
    and does not read it again: every tag query that follows is built from
    the entries this one read returned, whatever the queue has become. With
    a database answering from its tables, these are the entries for the
    index that the queue held when setup returned. *)
Theorem queue_read_once_before_pages c fuel ctx s s1 o s' :
  client imports = Some c ->
  onIndexSetup imports s = (Returned tt, s1) ->
  onIndexUpdate imports fuel ctx s = (o, s') ->
  let queueArgs := {| qfm_type := INDEX_NAME |} in
  let answer := (searchIndexUpdateQueue_findMany (db ctx) queueArgs (outside s1)).1 in
  exists rest,
    newEvents s s' = newEvents s s1 ++ QueueFindMany queueArgs answer :: rest
    /\ existsb isQueueRead (newEvents s s1) = false
    /\ existsb isTagFetch (newEvents s s1) = false
    /\ existsb isQueueRead rest = false
    /\ (forall a r, TagFindMany a r ∈ rest ->
          exists queuedItems, answer = Resolved queuedItems
            /\ a = tagFindManyArgs (fm_skip a) (lastUpdatedAt ctx) queuedItems)
    /\ (forall tagsAt queueAt queuedItems i,
          answersFrom tagsAt queueAt (db ctx) ->
          answer = Resolved queuedItems ->
          i ∈ map qi_id queuedItems
          <-> exists q, q ∈ queueAt (outside s1)
                /\ queue_type q = INDEX_NAME /\ queue_id q = i).
Proof.
  intros Hc H1 H. simpl.
  destruct (onIndexUpdate_run _ _ _ _ _ _ Hc H) as (o1 & s1' & H1' & Hrest).
  rewrite H1 in H1'. injection H1' as <- <-.
  destruct Hrest as (evs & T & R).
  destruct (onIndexSetup_trace _ _ _ H1) as (evs1 & T1 & Hall & _).
  destruct (UpdateRun_snapshot _ _ _ _ _ R) as (rest & -> & Hq & Hfetch).
  destruct (setup_events_no_db_call _ Hall) as [Hq1 Hf1].
  exists rest. rewrite (newEvents_app _ _ _ T1).
  assert (trace s' = trace s ++ evs1
            ++ QueueFindMany {| qfm_type := INDEX_NAME |}
                 (searchIndexUpdateQueue_findMany (db ctx) {| qfm_type := INDEX_NAME |}
                    (outside s1)).1 :: rest) as T'.
  { by rewrite T, T1, <- app_assoc. }
  rewrite (newEvents_app _ _ _ T').
  repeat (split; [done|]). intros tagsAt queueAt queuedItems i [_ Hstore] Hanswer.
  apply Hstore in Hanswer. subst queuedItems. apply queueFindMany_ids.
Qed.

(** ** Termination of the loop *)

Lemma fetchedPages_app evs1 evs2 :
  fetchedPages (evs1 ++ evs2) = fetchedPages evs1 ++ fetchedPages evs2.
Proof.
  induction evs1 as [|ev evs1 IH]; [done|].
  destruct ev as [| | | | |a [tags|e]|]; simpl; by rewrite ?IH.
Qed.

Lemma fetchedPages_setup evs :
  forallb isSetupEvent evs = true -> fetchedPages evs = [].
Proof.
  induction evs as [|ev evs IH]; [done|]. simpl.
  intros [Hev Hall]%andb_true_iff. destruct ev; try done; by apply IH.
Qed.

Lemma onIndexUpdate_pages fuel ctx s o s' :
  onIndexUpdate imports fuel ctx s = (o, s') ->
  pagesFrom 0 (fetchedPages (newEvents s s')).
Proof.
  intros H. destruct (onIndexUpdate_shape _ _ _ _ _ H) as (evs1 & rest & T & Hall & Hrest).
  rewrite (newEvents_app _ _ _ T), fetchedPages_app, (fetchedPages_setup _ Hall). simpl.
  destruct Hrest as [->|(c & x & Hc & R)]; [done|].
  inversion R as [e queueArgs E|items evs e queueArgs E L|items evs queueArgs E L
                 |items evs tagTasks y rw queueArgs E L uids A]; subst; simpl;
    rewrite ?fetchedPages_app, ?app_nil_r; try done;
    by eapply LoopRun_pages.
Qed.

Lemma onIndexUpdate_enough_fuel fuel ctx s :
  (READ_BATCH_SIZE < fuel)%nat ->
  (onIndexUpdate imports fuel ctx s).1 <> OutOfFuel.
Proof.
  intros Hfuel. unfold onIndexUpdate. destruct (client imports) as [c|]; [|done].
  unfold bind at 1. destruct (onIndexSetup imports s) as [[a|e|] s1] eqn:H1; [|done|].
  - rewrite bind_await. cbv zeta.
    destruct ((searchIndexUpdateQueue_findMany (db ctx) _ _).1) as [items|e]; [|done].
    unfold bind.
    match goal with |- context [fetchLoop c ctx items fuel 0 [] ?s2] =>
      pose proof (fetchLoop_enough_fuel c ctx items fuel 0 [] s2) as Hloop;
      destruct (fetchLoop c ctx items fuel 0 [] s2) as [[tagTasks|e|] s3]
    end; simpl; [|done|exfalso; apply Hloop; [lia|done]].
    unfold await. by destruct (waitForTasks c _ _) as [[u|e] y].
  - by destruct (onIndexSetup_trace _ _ _ H1) as (_ & _ & _ & Hno).
Qed.

Lemma onIndexUpdate_fuel_irrelevant fuel fuel' ctx s :
  (READ_BATCH_SIZE < fuel)%nat ->
  (READ_BATCH_SIZE < fuel')%nat ->
  onIndexUpdate imports fuel ctx s = onIndexUpdate imports fuel' ctx s.
Proof.
  intros Hfuel Hfuel'. unfold onIndexUpdate. destruct (client imports) as [c|]; [|done].
  rewrite !(bind_unfold (onIndexSetup imports)).
  destruct (onIndexSetup imports s) as [[a|e|] s1]; [|done|done].
  rewrite !bind_await. cbv zeta.
  destruct ((searchIndexUpdateQueue_findMany (db ctx) _ _).1) as [items|e]; [|done].
  unfold bind. by rewrite (fetchLoop_fuel_irrelevant c ctx items fuel fuel') by lia.
Qed.

Lemma LoopRun_turns client ctx queuedItems offset tagTasks evs o :
  LoopRun client ctx queuedItems offset tagTasks evs o ->
  o <> OutOfFuel -> turnsFrom offset evs.
Proof.
  induction 1 as [| | | offset tagTasks x tags y e Hlt args E Hne docs E'
                 | offset tagTasks x tags y task evs o Hlt args E Hne docs E' L IH |];
    intros Ho; simpl; try done.
  - by destruct tags.
  - destruct tags; [done|]. split; [done|]. split; [done|]. by apply IH.
Qed.

Lemma setup_events_no_loop_event evs :
  forallb isSetupEvent evs = true -> List.filter isLoopEvent evs = [].
Proof.
  induction evs as [|ev evs IH]; [done|]. simpl.
  intros [Hev Hall]%andb_true_iff. rewrite (IH Hall). by destruct ev.
Qed.

Lemma loop_events_kept evs :
  forallb isLoopEvent evs = true -> List.filter isLoopEvent evs = evs.
Proof.
  induction evs as [|ev evs IH]; [done|]. simpl.
  intros [-> Hall]%andb_true_iff. by rewrite (IH Hall).
Qed.

Lemma onIndexUpdate_turns fuel ctx s o s' queuedItems :
  onIndexUpdate imports fuel ctx s = (o, s') ->
  o <> OutOfFuel ->
  QueueFindMany {| qfm_type := INDEX_NAME |} (Resolved queuedItems) ∈ newEvents s s' ->
  turnsFrom 0 (List.filter isLoopEvent (newEvents s s')).
Proof.
  intros H Ho Hin.
  destruct (onIndexUpdate_shape _ _ _ _ _ H) as (evs1 & rest & T & Hall & Hrest).
  rewrite (newEvents_app _ _ _ T) in *.
  rewrite List.filter_app, (setup_events_no_loop_event _ Hall). simpl.
  apply elem_of_app in Hin as [Hin|Hin].
  { by apply (setup_event_in _ _ Hall) in Hin. }
  destruct Hrest as [->|(c & x & Hc & R)]; [by apply elem_of_nil in Hin|].
  inversion R as [e queueArgs E|items evs e queueArgs E L|items evs queueArgs E L
                 |items evs tagTasks y rw queueArgs E L uids A]; subst; simpl.
  - apply elem_of_cons in Hin as [Hin|Hin]; [done|by apply elem_of_nil in Hin].
  - rewrite (loop_events_kept _ (LoopRun_events _ _ _ _ _ _ _ L)).
    by eapply LoopRun_turns.
  - done.
  - rewrite List.filter_app, (loop_events_kept _ (LoopRun_events _ _ _ _ _ _ _ L)). simpl.
    rewrite app_nil_r. by eapply LoopRun_turns.
Qed.

(** C8. With more fuel than [READ_BATCH_SIZE], a run never stops for
    want of fuel, whatever the database and the engine answer, and its
    result is the same for all such amounts. The pages it fetches follow
    one another from offset 0: only the last one may be empty, and after
    each other one the offset has moved by the number of records that page
    returned. When the run has read the queue, its tag queries and
    submissions are the turns of the loop from offset 0: a turn ends the
    loop when its query or its submission rejects and when its page is
    empty; otherwise the page holds a record and the next turn, which is
    there as long as the offset is below [READ_BATCH_SIZE], asks at the
    offset plus the number of records of the page. *)
Theorem fetch_loop_terminates fuel ctx s :
  (READ_BATCH_SIZE < fuel)%nat ->
  exists o s',
    onIndexUpdate imports fuel ctx s = (o, s')
    /\ o <> OutOfFuel
    /\ (forall fuel', (READ_BATCH_SIZE < fuel')%nat ->
          onIndexUpdate imports fuel' ctx s = (o, s'))
    /\ pagesFrom 0 (fetchedPages (newEvents s s'))
    /\ (forall queuedItems,
          QueueFindMany {| qfm_type := INDEX_NAME |} (Resolved queuedItems) ∈ newEvents s s' ->
          turnsFrom 0 (List.filter isLoopEvent (newEvents s s'))).
Proof.
  intros Hfuel. destruct (onIndexUpdate imports fuel ctx s) as [o s'] eqn:H.
  pose proof (onIndexUpdate_enough_fuel fuel ctx s Hfuel) as Hno. rewrite H in Hno.
  exists o, s'. split; [done|]. split; [done|]. split; [|split].
  - intros fuel' Hfuel'. by rewrite <- H, (onIndexUpdate_fuel_irrelevant fuel fuel').
  - by eapply onIndexUpdate_pages.
  - intros queuedItems Hin. by eapply onIndexUpdate_turns.
Qed.

End Properties.

(** * The properties on the samples *)

Import Samples.

(** C1. The loop also ends when the offset reaches [READ_BATCH_SIZE]. With
    one listed tag more than that, under a store that does not change, the
    run fetches a single page, of [READ_BATCH_SIZE] records, and returns;
    the page at the offset reached is not empty, and its tag is in none of
    the documents submitted. *)
Theorem limit_ends_loop_before_empty_page :
  let '(o, s') := run acceptingImports largeCtx in
  o = Returned tt
  /\ map (fun p => (fm_skip p.1, length p.2)) (fetchedPages (trace s')) = [(0, 100)]%nat
  /\ map rec_id (tagFindMany (listedTags (S READ_BATCH_SIZE))
                   (tagFindManyArgs READ_BATCH_SIZE None [])) = [101]
  /\ existsb
       (fun ev =>
          match ev with
          | UpdateDocuments _ docs _ => existsb (fun d => doc_id d =? 101) docs
          | _ => false
          end) (trace s') = false.
Proof. vm_compute. done. Qed.

(** C2: the claim fails. An unlisted tag created after the watermark does
    not pass the filter. *)
Lemma changed_but_unlisted_not_selected :
  ~ (forall (watermark : Z) (queuedItems : list QueueItem) (row : @TagRow bool),
       tagMatches (tagWhere (Some watermark) queuedItems) row = true
       <-> (watermark < tag_createdAt row
            \/ watermark < tag_updatedAt row
            \/ tag_id row ∈ map qi_id queuedItems)).
Proof.
  intros Hclaim.
  destruct (Hclaim 100 [] (tagRow 5 true false 200 200 [])) as [_ Hsel].
  discriminate Hsel. left. done.
Qed.

Lemma selected_iff_visible_and_changed_or_queued_witness :
  let a := tagFindManyArgs 0 (Some 100) [{| qi_id := 4 |}] in
  exists x : nat,
    QueueFindMany {| qfm_type := INDEX_NAME |}
      (Resolved (queueFindMany sampleQueue {| qfm_type := INDEX_NAME |}))
      ∈ newEvents start (run acceptingImports incrementalCtx).2
    /\ forall row : @TagRow bool,
         tagMatches (fm_where a) row = true
         <-> tag_unlisted row = false
             /\ tag_adminOnly row = false
             /\ (100 < tag_createdAt row
                 \/ 100 < tag_updatedAt row
                 \/ exists q, q ∈ sampleQueue
                      /\ queue_type q = INDEX_NAME /\ queue_id q = tag_id row).
Proof.
  apply (selected_iff_visible_and_changed_or_queued acceptingImports
           (fun _ => sampleTags) (fun _ => sampleQueue)
           (S READ_BATCH_SIZE) incrementalCtx start
           (run acceptingImports incrementalCtx).1 (run acceptingImports incrementalCtx).2
           100 (tagFindManyArgs 0 (Some 100) [{| qi_id := 4 |}])
           (Resolved (tagFindMany sampleTags
                        (tagFindManyArgs 0 (Some 100) [{| qi_id := 4 |}])))).
  - apply prismaClient_answersFrom.
  - reflexivity.
  - reflexivity.
  - apply (list_elem_of_lookup_2 _ 5). vm_compute. reflexivity.
Defined.

(** C4: the claim fails. The document of a tag without all-time metrics
    has no [postCount] under [metrics]. *)
Lemma metric_fields_omitted_without_row :
  ~ (forall row : @TagRow bool,
       List.filter (fun m => bool_decide (tm_timeframe m = AllTime)) (tag_metrics row) = [] ->
       forall field, field ∈ metricFields ->
       is_Some (doc_metrics (indexReadyRecord (selectTag AllTime row)) !! field)).
Proof.
  intros Hclaim.
  destruct (Hclaim (tagRow 3 false false 300 300 [dayMetrics]) eq_refl "postCount")
    as [v Hv].
  - apply elem_of_cons. by left.
  - vm_compute in Hv. discriminate Hv.
Qed.

(** C5: the claim fails. With a client at hand and [getOrCreateIndex]
    yielding no index, no attribute is set, and yet the run reads the
    queue, fetches the tags and submits their documents. *)
Lemma missing_index_run_still_writes :
  let '(o, s') := run noIndexImports backfillCtx in
  (getOrCreateIndex noIndexImports INDEX_NAME (outside start)).1 = Resolved None
  /\ o = Returned tt
  /\ map isSetupEvent (trace s')
     = [true; false; false; false; false; true]
  /\ map isTagFetch (trace s') = [false; false; true; false; true; false]
  /\ map isSubmission (trace s') = [false; false; false; true; false; false]
  /\ map (fun p => map rec_id p.2) (fetchedPages (trace s')) = [[1; 2; 3; 4; 7]; []].
Proof. vm_compute. done. Qed.

Lemma setup_error_stops_run_witness :
  let s1 := (onIndexSetup rejectingImports start).2 in
  onIndexSetup rejectingImports start = (Threw "invalid_settings_sortable_attributes", s1)
  /\ onIndexUpdate rejectingImports (S READ_BATCH_SIZE) backfillCtx start
     = (Threw "invalid_settings_sortable_attributes", s1)
  /\ (forall ev, ev ∈ newEvents start s1 ->
        isQueueRead ev = false /\ isTagFetch ev = false /\ isSubmission ev = false)
  /\ client rejectingImports <> None
  /\ (getOrCreateIndex rejectingImports INDEX_NAME (outside start)).1 <> Resolved None.
Proof.
  split; [reflexivity|].
  apply (setup_error_stops_run rejectingImports (S READ_BATCH_SIZE) backfillCtx start).
  reflexivity.
Defined.

(** C6. Without a watermark the tag queries carry no restriction on
    dates or on the queue, and yet the run is no full backfill. With one
    listed tag more than [READ_BATCH_SIZE], under a store that does not
    change, every one of the tags passes the filter of the one tag query the
    run makes; the run returns having fetched and submitted the first
    [READ_BATCH_SIZE] of them, and the last tag is in no page and in no
    document. *)
Theorem backfill_misses_rows_past_first_page :
  let '(o, s') := run acceptingImports largeCtx in
  lastUpdatedAt largeCtx = None
  /\ o = Returned tt
  /\ map (fun a => (fm_skip a, where_OR (fm_where a))) (tagQueries (trace s'))
     = [(0%nat, None)]
  /\ map tag_id
       (List.filter (tagMatches (tagWhere None [])) (listedTags (S READ_BATCH_SIZE)))
     = map Z.of_nat (seq 1 101)
  /\ map rec_id (fetchedRecords (trace s')) = map Z.of_nat (seq 1 100)
  /\ map (fun sub => map doc_id sub.2) (submissions (trace s'))
     = [map Z.of_nat (seq 1 100)].
Proof. vm_compute. done. Qed.

Lemma hidden_tags_never_indexed_witness :
  let s' := (run acceptingImports incrementalCtx).2 in
  (forall a tags, TagFindMany a (Resolved tags) ∈ newEvents start s' ->
     exists x : nat,
       (forall t, t ∈ tags ->
          exists row, row ∈ sampleTags
            /\ tag_unlisted row = false /\ tag_adminOnly row = false
            /\ t = selectTag AllTime row)
       /\ onlyVisible sampleTags (map rec_id tags))
  /\ (forall indexName docs r, UpdateDocuments indexName docs r ∈ newEvents start s' ->
     exists x : nat,
       (forall d, d ∈ docs ->
          exists row, row ∈ sampleTags
            /\ tag_unlisted row = false /\ tag_adminOnly row = false
            /\ d = indexReadyRecord (selectTag AllTime row))
       /\ onlyVisible sampleTags (map doc_id docs)).
Proof.
  apply (hidden_tags_never_indexed acceptingImports (fun _ => sampleTags)
           (fun _ => sampleQueue) (S READ_BATCH_SIZE) incrementalCtx
           start (run acceptingImports incrementalCtx).1).
  - apply prismaClient_answersFrom.
  - reflexivity.
Defined.

Lemma absent_client_returns_at_once_witness :
  client noClientImports = None
  /\ onIndexUpdate noClientImports (S READ_BATCH_SIZE) backfillCtx start = (Returned tt, start)
  /\ newEvents start (onIndexUpdate noClientImports (S READ_BATCH_SIZE) backfillCtx start).2 = []
  /\ onIndexSetup noClientImports start = (Returned tt, start).
Proof.
  split; [reflexivity|].
  apply (absent_client_returns_at_once noClientImports (S READ_BATCH_SIZE) backfillCtx start).
  reflexivity.
Defined.

Lemma queue_read_once_before_pages_witness :
  let s1 := (onIndexSetup acceptingImports start).2 in
  let s' := (run acceptingImports movingCtx).2 in
  let queueArgs := {| qfm_type := INDEX_NAME |} in
  let answer := (searchIndexUpdateQueue_findMany (db movingCtx) queueArgs (outside s1)).1 in
  answer = Resolved [{| qi_id := 1 |}; {| qi_id := 2 |}]
  /\ exists rest,
    newEvents start s' = newEvents start s1 ++ QueueFindMany queueArgs answer :: rest
    /\ existsb isQueueRead (newEvents start s1) = false
    /\ existsb isTagFetch (newEvents start s1) = false
    /\ existsb isQueueRead rest = false
    /\ (forall a r, TagFindMany a r ∈ rest ->
          exists queuedItems, answer = Resolved queuedItems
            /\ a = tagFindManyArgs (fm_skip a) (lastUpdatedAt movingCtx) queuedItems)
    /\ (forall tagsAt queueAt queuedItems i,
          answersFrom tagsAt queueAt (db movingCtx) ->
          answer = Resolved queuedItems ->
          i ∈ map qi_id queuedItems
          <-> exists q, q ∈ queueAt (outside s1)
                /\ queue_type q = INDEX_NAME /\ queue_id q = i).
Proof.
  split; [reflexivity|].
  apply (queue_read_once_before_pages acceptingImports acceptingClient
           (S READ_BATCH_SIZE) movingCtx start
           (onIndexSetup acceptingImports start).2
           (run acceptingImports movingCtx).1).
  - reflexivity.
  - reflexivity.
  - reflexivity.
Defined.

Lemma fetch_loop_terminates_witness :
  exists o s',
    onIndexUpdate acceptingImports 101 backfillCtx start = (o, s')
    /\ o <> OutOfFuel
    /\ (forall fuel', (READ_BATCH_SIZE < fuel')%nat ->
          onIndexUpdate acceptingImports fuel' backfillCtx start = (o, s'))
    /\ pagesFrom 0 (fetchedPages (newEvents start s'))
    /\ (forall queuedItems,
          QueueFindMany {| qfm_type := INDEX_NAME |} (Resolved queuedItems)
            ∈ newEvents start s' ->
          turnsFrom 0 (List.filter isLoopEvent (newEvents start s'))).
Proof.
  apply (fetch_loop_terminates acceptingImports 101 backfillCtx start).
  unfold READ_BATCH_SIZE. lia.
Defined.

(** * More properties of the two functions *)

Section MoreProperties.

Context {NsfwLevel W : Type}.
Variable imports : @Imports NsfwLevel W.
Implicit Types (client : @MeiliSearch NsfwLevel W) (ctx : @SearchIndexRunContext NsfwLevel W).
Implicit Types (s : @World NsfwLevel W) (evs : list (@Event NsfwLevel)).
Implicit Types (row : @TagRow NsfwLevel) (tags : list (@TagRecord NsfwLevel)).

(** ** The shape of a run *)

Lemma onIndexSetup_run c s o s' :
  client imports = Some c ->
  onIndexSetup imports s = (o, s') ->
  exists evs, trace s' = trace s ++ evs /\ SetupRun imports c evs o.
Proof.
  unfold onIndexSetup. intros -> H.
  rewrite bind_await in H. cbv zeta in H.
  destruct ((getOrCreateIndex imports INDEX_NAME (outside s)).1) as [[index|]|e] eqn:E1.
  - rewrite bind_await in H. cbv zeta in H. simpl in H.
    match type of H with context [match ?c with _ => _ end] =>
      destruct c as [t1|e] eqn:E2 end.
    + rewrite bind_await in H. cbv zeta in H. simpl in H.
      match type of H with context [match ?c with _ => _ end] =>
        destruct c as [t2|e] eqn:E3 end.
      * apply await_inv in H as (r & A & _ & T & ->). simpl in T.
        eexists. rewrite T, <- !app_assoc. split; [done|]. simpl.
        by eapply (SetupRun_wait imports c).
      * injection H as <- <-. simpl. eexists. rewrite <- !app_assoc. split; [done|].
        by eapply SetupRun_sortable_rejected.
    + injection H as <- <-. simpl. eexists. rewrite <- !app_assoc. split; [done|].
      by eapply SetupRun_searchable_rejected.
  - injection H as <- <-. simpl. eexists. split; [done|]. by eapply SetupRun_no_index.
  - injection H as <- <-. simpl. eexists. split; [done|]. by eapply SetupRun_index_rejected.
Qed.

(** A run does nothing, or it runs setup and stops there with its error,
    or it runs setup and then the rest. *)
Lemma onIndexUpdate_cases fuel ctx s o s' :
  onIndexUpdate imports fuel ctx s = (o, s') ->
  (client imports = None /\ o = Returned tt /\ newEvents s s' = [])
  \/ exists c setupEvs,
       client imports = Some c
       /\ ((exists e, SetupRun imports c setupEvs (Threw e)
               /\ o = Threw e /\ newEvents s s' = setupEvs)
           \/ (exists x rest, SetupRun imports c setupEvs (Returned tt)
                  /\ UpdateRun c ctx x rest o
                  /\ newEvents s s' = setupEvs ++ rest)).
Proof.
  intros H. destruct (client imports) as [c|] eqn:Hc.
  - right. exists c.
    destruct (onIndexUpdate_run _ _ _ _ _ _ _ Hc H) as (o1 & s1 & H1 & Hrest).
    destruct (onIndexSetup_run _ _ _ _ Hc H1) as (evs1 & T1 & R1).
    exists evs1. split; [done|]. destruct o1 as [[]|e|].
    + right. destruct Hrest as (rest & T & R). exists (outside s1), rest.
      split; [done|]. split; [done|]. apply newEvents_app. by rewrite T, T1, app_assoc.
    + left. destruct Hrest as [-> ->]. exists e. split; [done|]. split; [done|].
      by apply newEvents_app.
    + by destruct (onIndexSetup_trace _ _ _ _ H1) as (_ & _ & _ & Hno).
  - left. unfold onIndexUpdate in H. rewrite Hc in H. injection H as <- <-.
    split; [done|]. split; [done|]. unfold newEvents. apply drop_all.
Qed.

(** ** Rejections *)

Lemma stopsAtRejection_app {A} evs1 evs2 (o : Outcome A) :
  forallb resolved evs1 = true ->
  stopsAtRejection evs2 o ->
  stopsAtRejection (evs1 ++ evs2) o.
Proof.
  intros H1. destruct o as [a|e|]; simpl.
  - intros H2. by rewrite forallb_app, H1, H2.
  - intros (init & last & -> & Hinit & Hlast). exists (evs1 ++ init), last.
    rewrite app_assoc, forallb_app, H1, Hinit. done.
  - intros H2. by rewrite forallb_app, H1, H2.
Qed.

Lemma SetupRun_stops c evs o : SetupRun imports c evs o -> stopsAtRejection evs o.
Proof.
  destruct 1 as [x e E|x E|x index y e E1 E2|x index y t1 z e E1 E2 E3
                |x index y t1 z t2 w r E1 E2 E3 uids E4]; simpl.
  - by exists [], (GetOrCreateIndex INDEX_NAME (Rejected e)).
  - done.
  - by exists [GetOrCreateIndex INDEX_NAME (Resolved (Some index))],
      (UpdateSearchableAttributes index ["name"] (Rejected e)).
  - by exists [GetOrCreateIndex INDEX_NAME (Resolved (Some index));
               UpdateSearchableAttributes index ["name"] (Resolved t1)],
      (UpdateSortableAttributes index SORTABLE_ATTRIBUTES (Rejected e)).
  - destruct r as [[]|e]; simpl; [done|].
    by exists [GetOrCreateIndex INDEX_NAME (Resolved (Some index));
               UpdateSearchableAttributes index ["name"] (Resolved t1);
               UpdateSortableAttributes index SORTABLE_ATTRIBUTES (Resolved t2)],
      (WaitForTasks uids (Rejected e)).
Qed.

Lemma LoopRun_stops c ctx queuedItems offset tagTasks evs o :
  LoopRun c ctx queuedItems offset tagTasks evs o -> stopsAtRejection evs o.
Proof.
  induction 1 as [| offset tagTasks x e Hlt args E | | offset tagTasks x tags y e Hlt args E Hne docs E'
                 | offset tagTasks x tags y task evs o Hlt args E Hne docs E' L IH |]; simpl; try done.
  - by exists [], (TagFindMany args (Rejected e)).
  - by exists [TagFindMany args (Resolved tags)], (UpdateDocuments INDEX_NAME docs (Rejected e)).
  - by apply (stopsAtRejection_app
                [TagFindMany args (Resolved tags); UpdateDocuments INDEX_NAME docs (Resolved task)]).
Qed.

Lemma UpdateRun_stops c ctx x evs o : UpdateRun c ctx x evs o -> stopsAtRejection evs o.
Proof.
  destruct 1 as [e queueArgs E|items evs e queueArgs E L|items evs queueArgs E L
                |items evs tagTasks y r queueArgs E L uids A].
  - by exists [], (QueueFindMany queueArgs (Rejected e)).
  - by apply (stopsAtRejection_app [QueueFindMany queueArgs (Resolved items)]),
      (LoopRun_stops _ _ _ _ _ _ _ L).
  - by apply (stopsAtRejection_app [QueueFindMany queueArgs (Resolved items)]),
      (LoopRun_stops _ _ _ _ _ _ _ L).
  - pose proof (LoopRun_stops _ _ _ _ _ _ _ L) as Hloop. simpl in Hloop.
    destruct r as [[]|e]; simpl.
    + by rewrite forallb_app, Hloop.
    + exists (QueueFindMany queueArgs (Resolved items) :: evs), (WaitForTasks uids (Rejected e)).
      simpl. by rewrite Hloop.
Qed.

(** X1. In every run the calls stop at the first rejection: when the run
    returns every call it made has resolved, and when it throws, every
    call has resolved but the last one, which rejected with the error the
    run throws. No call follows a rejected one, and no rejection is
    swallowed. *)
Theorem calls_stop_at_first_rejection fuel ctx s :
  stopsAtRejection
    (newEvents s (onIndexUpdate imports fuel ctx s).2)
    (onIndexUpdate imports fuel ctx s).1.
Proof.
  destruct (onIndexUpdate imports fuel ctx s) as [o s'] eqn:H. simpl.
  destruct (onIndexUpdate_cases _ _ _ _ _ H)
    as [(_ & -> & ->)|(c & evs1 & _ & [(e & R1 & -> & ->)|(x & rest & R1 & R & ->)])].
  - done.
  - by apply (SetupRun_stops c).
  - apply stopsAtRejection_app; [by apply (SetupRun_stops c evs1 (Returned tt))|].
    by apply (UpdateRun_stops c ctx x).
Qed.

(** ** Pages and submissions *)

Lemma submissions_app evs1 evs2 :
  submissions (evs1 ++ evs2) = submissions evs1 ++ submissions evs2.
Proof.
  induction evs1 as [|ev evs1 IH]; [done|]. destruct ev; simpl; by rewrite ?IH.
Qed.

Lemma tagQueries_app evs1 evs2 :
  tagQueries (evs1 ++ evs2) = tagQueries evs1 ++ tagQueries evs2.
Proof.
  induction evs1 as [|ev evs1 IH]; [done|]. destruct ev; simpl; by rewrite ?IH.
Qed.

Lemma nonEmptyPages_app (ps1 ps2 : list (TagFindManyArgs * list (@TagRecord NsfwLevel))) :
  nonEmptyPages (ps1 ++ ps2) = nonEmptyPages ps1 ++ nonEmptyPages ps2.
Proof. unfold nonEmptyPages. by rewrite map_app, List.filter_app. Qed.

Lemma SetupRun_events c evs o :
  SetupRun imports c evs o -> forallb isSetupEvent evs = true.
Proof. by destruct 1. Qed.

Lemma setup_events_readings evs :
  forallb isSetupEvent evs = true ->
  submissions evs = [] /\ fetchedPages evs = [] /\ tagQueries evs = [].
Proof.
  induction evs as [|ev evs IH]; [done|]. simpl.
  intros [Hev Hall]%andb_true_iff. destruct ev; try done; by apply IH.
Qed.

Lemma LoopRun_submissions c ctx queuedItems offset tagTasks evs o :
  LoopRun c ctx queuedItems offset tagTasks evs o ->
  submissions evs = map submissionOf (nonEmptyPages (fetchedPages evs)).
Proof.
  induction 1 as [| | | offset tagTasks x tags y e Hlt args E Hne docs E'
                 | offset tagTasks x tags y task evs o Hlt args E Hne docs E' L IH |];
    simpl; try done.
  - unfold nonEmptyPages. simpl. by destruct tags.
  - unfold nonEmptyPages in *. simpl. rewrite IH. by destruct tags.
Qed.

Lemma UpdateRun_submissions c ctx x evs o :
  UpdateRun c ctx x evs o ->
  submissions evs = map submissionOf (nonEmptyPages (fetchedPages evs)).
Proof.
  destruct 1 as [e queueArgs E|items evs e queueArgs E L|items evs queueArgs E L
                |items evs tagTasks y r queueArgs E L uids A]; simpl.
  - done.
  - by eapply LoopRun_submissions.
  - by eapply LoopRun_submissions.
  - rewrite submissions_app, fetchedPages_app, nonEmptyPages_app, map_app. simpl.
    rewrite !app_nil_r. by eapply LoopRun_submissions.
Qed.

(** X2. In every run, [updateDocuments] is called once for each non-empty
    page fetched and for nothing else, in the order of the pages, on the
    index [INDEX_NAME], with the transformed records of that page in the
    order of the page: no fetched record is left out of a submission,
    submitted twice or moved. *)
Theorem one_submission_per_page fuel ctx s :
  let evs := newEvents s (onIndexUpdate imports fuel ctx s).2 in
  submissions evs
  = map (fun tags => (INDEX_NAME, map indexReadyRecord tags))
        (nonEmptyPages (fetchedPages evs)).
Proof.
  destruct (onIndexUpdate imports fuel ctx s) as [o s'] eqn:H. simpl.
  destruct (onIndexUpdate_cases _ _ _ _ _ H)
    as [(_ & -> & ->)|(c & evs1 & _ & [(e & R1 & -> & ->)|(x & rest & R1 & R & ->)])].
  - done.
  - by destruct (setup_events_readings _ (SetupRun_events _ _ _ R1)) as (-> & -> & _).
  - rewrite submissions_app, fetchedPages_app, nonEmptyPages_app, map_app.
    destruct (setup_events_readings _ (SetupRun_events _ _ _ R1)) as (-> & -> & _).
    simpl. by apply (UpdateRun_submissions c ctx x rest o).
Qed.

(** ** The task handles, whatever the outcome *)





(** ** The work of a run is bounded *)

Lemma LoopRun_queries c ctx queuedItems offset tagTasks evs o :
  LoopRun c ctx queuedItems offset tagTasks evs o ->
  Forall (fun a => fm_take a = READ_BATCH_SIZE
                   /\ (offset <= fm_skip a < READ_BATCH_SIZE)%nat) (tagQueries evs)
  /\ (length (tagQueries evs) <= READ_BATCH_SIZE - offset)%nat.
Proof.
  induction 1 as [| | | | offset tagTasks x tags y task evs o Hlt args E Hne docs E' L IH |];
    try subst args; simpl;
    try (split; [constructor|lia]; fail);
    try (split; [constructor; [simpl; lia|constructor]|lia]; fail).
  destruct IH as [IHq IHn]. split.
  - constructor; [simpl; lia|].
    eapply Forall_impl; [exact IHq|]. simpl. intros a [Ht Hs]. split; [done|lia].
  - assert (0 < length tags)%nat by (destruct tags; [done|simpl; lia]). lia.
Qed.

Lemma UpdateRun_queries c ctx x evs o :
  UpdateRun c ctx x evs o ->
  Forall (fun a => fm_take a = READ_BATCH_SIZE
                   /\ (fm_skip a < READ_BATCH_SIZE)%nat) (tagQueries evs)
  /\ (length (tagQueries evs) <= READ_BATCH_SIZE)%nat.
Proof.
  assert (forall items evs o2, LoopRun c ctx items 0 [] evs o2 ->
    Forall (fun a => fm_take a = READ_BATCH_SIZE
                     /\ (fm_skip a < READ_BATCH_SIZE)%nat) (tagQueries evs)
    /\ (length (tagQueries evs) <= READ_BATCH_SIZE)%nat) as Hloop.
  { intros items evs' o2 L. destruct (LoopRun_queries _ _ _ _ _ _ _ L) as [Hq Hn].
    split; [|lia]. eapply Forall_impl; [exact Hq|]. simpl. intros a [Ht Hs]. split; [done|lia]. }
  destruct 1 as [e queueArgs E|items evs e queueArgs E L|items evs queueArgs E L
                |items evs tagTasks y r queueArgs E L uids A]; simpl.
  - split; [constructor|lia].
  - by eapply Hloop.
  - by eapply Hloop.
  - rewrite tagQueries_app. simpl. rewrite app_nil_r. by eapply Hloop.
Qed.

(** X3. Whatever the database and the engine answer, every tag query of a
    run asks for [READ_BATCH_SIZE] records from an offset below
    [READ_BATCH_SIZE], and a run makes at most [READ_BATCH_SIZE] tag
    queries. *)
Theorem tag_queries_bounded fuel ctx s :
  let evs := newEvents s (onIndexUpdate imports fuel ctx s).2 in
  Forall (fun a => fm_take a = READ_BATCH_SIZE
                   /\ (fm_skip a < READ_BATCH_SIZE)%nat) (tagQueries evs)
  /\ (length (tagQueries evs) <= READ_BATCH_SIZE)%nat.
Proof.
  destruct (onIndexUpdate imports fuel ctx s) as [o s'] eqn:H. simpl.
  destruct (onIndexUpdate_cases _ _ _ _ _ H)
    as [(_ & -> & ->)|(c & evs1 & _ & [(e & R1 & -> & ->)|(x & rest & R1 & R & ->)])].
  - split; [constructor|simpl; lia].
  - destruct (setup_events_readings _ (SetupRun_events _ _ _ R1)) as (_ & _ & ->).
    split; [constructor|simpl; lia].
  - rewrite tagQueries_app.
    destruct (setup_events_readings _ (SetupRun_events _ _ _ R1)) as (_ & _ & ->).
    simpl. by apply (UpdateRun_queries c ctx x rest o).
Qed.

Lemma tagFindMany_length (rows : list (@TagRow NsfwLevel)) a :
  (length (tagFindMany rows a) <= fm_take a)%nat.
Proof. unfold tagFindMany. rewrite length_map, length_take. lia. Qed.

Lemma fetchedRecords_app evs1 evs2 :
  fetchedRecords (evs1 ++ evs2) = fetchedRecords evs1 ++ fetchedRecords evs2.
Proof. unfold fetchedRecords. by rewrite fetchedPages_app, map_app, concat_app. Qed.

Lemma LoopRun_records tagsAt queueAt c ctx queuedItems offset tagTasks evs o :
  answersFrom tagsAt queueAt (db ctx) ->
  LoopRun c ctx queuedItems offset tagTasks evs o ->
  Forall (fun p => (length p.2 <= READ_BATCH_SIZE)%nat) (fetchedPages evs)
  /\ ((offset < READ_BATCH_SIZE)%nat ->
      (offset + length (fetchedRecords evs) < 2 * READ_BATCH_SIZE)%nat)
  /\ ((READ_BATCH_SIZE <= offset)%nat -> fetchedRecords evs = []).
Proof.
  intros [Hstore _].
  assert (forall x offset' tags,
            (tag_findMany (db ctx)
               (tagFindManyArgs offset' (lastUpdatedAt ctx) queuedItems) x).1 = Resolved tags ->
            (length tags <= READ_BATCH_SIZE)%nat) as Hpage.
  { intros x offset' tags E. apply Hstore in E. rewrite E.
    apply (tagFindMany_length (tagsAt x)
             (tagFindManyArgs offset' (lastUpdatedAt ctx) queuedItems)). }
  induction 1 as [offset tagTasks Hge
                 | offset tagTasks x e Hlt args E
                 | offset tagTasks x Hlt args E
                 | offset tagTasks x tags y e Hlt args E Hne docs E'
                 | offset tagTasks x tags y task evs o Hlt args E Hne docs E' L IH
                 | offset tagTasks ];
    unfold fetchedRecords, READ_BATCH_SIZE in *; simpl.
  - split; [constructor|]. split; [lia|done].
  - split; [constructor|]. split; [lia|done].
  - split; [constructor; [simpl; lia|constructor]|]. split; [lia|done].
  - apply Hpage in E. rewrite app_nil_r.
    split; [constructor; [done|constructor]|]. split; lia.
  - apply Hpage in E. destruct IH as (IHp & IHlt & IHge).
    split; [by constructor|]. rewrite length_app. split; [|lia]. intros _.
    destruct (Nat.lt_ge_cases (offset + length tags) 100) as [Hlt'|Hge'].
    + specialize (IHlt Hlt'). lia.
    + rewrite (IHge Hge'). simpl. lia.
  - split; [constructor|]. split; [lia|done].
Qed.

Lemma UpdateRun_records tagsAt queueAt c ctx x evs o :
  answersFrom tagsAt queueAt (db ctx) ->
  UpdateRun c ctx x evs o ->
  Forall (fun p => (length p.2 <= READ_BATCH_SIZE)%nat) (fetchedPages evs)
  /\ (length (fetchedRecords evs) < 2 * READ_BATCH_SIZE)%nat.
Proof.
  intros Hstore.
  assert (forall items evs o2, LoopRun c ctx items 0 [] evs o2 ->
    Forall (fun p => (length p.2 <= READ_BATCH_SIZE)%nat) (fetchedPages evs)
    /\ (length (fetchedRecords evs) < 2 * READ_BATCH_SIZE)%nat) as Hloop.
  { intros items evs' o2 L.
    destruct (LoopRun_records _ _ _ _ _ _ _ _ _ Hstore L) as (Hp & Hlt & _).
    split; [done|]. assert (0 < READ_BATCH_SIZE)%nat as H0 by (unfold READ_BATCH_SIZE; lia).
    specialize (Hlt H0). lia. }
  destruct 1 as [e queueArgs E|items evs e queueArgs E L|items evs queueArgs E L
                |items evs tagTasks y r queueArgs E L uids A].
  - split; [constructor|]. unfold fetchedRecords, READ_BATCH_SIZE. simpl. lia.
  - unfold fetchedRecords. simpl. by apply (Hloop items evs (Threw e)).
  - unfold fetchedRecords. simpl. by apply (Hloop items evs OutOfFuel).
  - unfold fetchedRecords. simpl. rewrite fetchedPages_app. simpl. rewrite app_nil_r.
    by apply (Hloop items evs (Returned tagTasks)).
Qed.

(** X4. When the database answers from its tables, no page of a run holds
    more than [READ_BATCH_SIZE] records, and a run fetches fewer than twice
    [READ_BATCH_SIZE] records in all, however many rows pass the filter. *)
Theorem fetched_records_bounded tagsAt queueAt fuel ctx s :
  answersFrom tagsAt queueAt (db ctx) ->
  let evs := newEvents s (onIndexUpdate imports fuel ctx s).2 in
  Forall (fun p => (length p.2 <= READ_BATCH_SIZE)%nat) (fetchedPages evs)
  /\ (length (fetchedRecords evs) < 2 * READ_BATCH_SIZE)%nat.
Proof.
  intros Hstore.
  destruct (onIndexUpdate imports fuel ctx s) as [o s'] eqn:H. simpl.
  assert (fetchedRecords ([] : list (@Event NsfwLevel)) = []) as Hnil by done.
  destruct (onIndexUpdate_cases _ _ _ _ _ H)
    as [(_ & -> & ->)|(c & evs1 & _ & [(e & R1 & -> & ->)|(x & rest & R1 & R & ->)])].
  - split; [constructor|]. rewrite Hnil. unfold READ_BATCH_SIZE. simpl. lia.
  - unfold fetchedRecords.
    destruct (setup_events_readings _ (SetupRun_events _ _ _ R1)) as (_ & -> & _).
    split; [constructor|]. unfold READ_BATCH_SIZE. simpl. lia.
  - rewrite fetchedRecords_app, fetchedPages_app. unfold fetchedRecords at 1.
    destruct (setup_events_readings _ (SetupRun_events _ _ _ R1)) as (_ & -> & _).
    simpl. by apply (UpdateRun_records tagsAt queueAt c ctx x rest o).
Qed.

(** ** The attributes declared and the fields submitted *)

Lemma flattenMetrics_fields (ms : list TagMetricSelect) (field : string) :
  is_Some (flattenMetrics ms !! field) -> field ∈ metricFields.
Proof.
  unfold flattenMetrics. destruct (ms !! 0%nat) as [m|].
  - intros Hf. apply elem_of_dom in Hf. rewrite spreadMetric_dom in Hf.
    by apply elem_of_list_to_set in Hf.
  - rewrite lookup_empty. by intros [v Hv].
Qed.

Lemma UpdateRun_no_attributes c ctx x evs o i attrs r :
  UpdateRun c ctx x evs o -> UpdateSortableAttributes i attrs r ∈ evs -> False.
Proof.
  assert (forall items evs o2, LoopRun c ctx items 0 [] evs o2 ->
            UpdateSortableAttributes i attrs r ∈ evs -> False) as Hloop.
  { intros items evs' o2 L Hin.
    by apply (loop_event_in _ _ (LoopRun_events _ _ _ _ _ _ _ L)) in Hin. }
  destruct 1 as [e queueArgs E|items evs e queueArgs E L|items evs queueArgs E L
                |items evs tagTasks y rw queueArgs E L uids A]; intros Hin;
    apply elem_of_cons in Hin as [Hin|Hin]; try done.
  - by apply elem_of_nil in Hin.
  - by eapply Hloop.
  - by eapply Hloop.
  - apply elem_of_app in Hin as [Hin|Hin]; [by eapply Hloop|].
    apply elem_of_cons in Hin as [Hin|Hin]; [done|by apply elem_of_nil in Hin].
Qed.

(** X5. Every [updateSortableAttributes] of a run is given
    [SORTABLE_ATTRIBUTES], which holds, as [metrics.<field>], every field
    found under [metrics] in a document a run submits. A run that submits
    a document has begun in one of two ways: with the four calls of setup,
    all resolved, so that [SORTABLE_ATTRIBUTES] was declared on the index,
    and the wait for it over, before the submission; or with a
    [getOrCreateIndex] that yielded no index, in which case nothing was
    declared before the submission. *)
Theorem metrics_declared_before_submission_unless_no_index fuel ctx s :
  let evs := newEvents s (onIndexUpdate imports fuel ctx s).2 in
  (forall i attrs r, UpdateSortableAttributes i attrs r ∈ evs ->
     attrs = SORTABLE_ATTRIBUTES)
  /\ (forall indexName docs r d field,
        UpdateDocuments indexName docs r ∈ evs -> d ∈ docs ->
        is_Some (doc_metrics d !! field) ->
        ("metrics." +:+ field) ∈ SORTABLE_ATTRIBUTES)
  /\ (forall indexName docs r,
        UpdateDocuments indexName docs r ∈ evs ->
        (exists rest,
           evs = GetOrCreateIndex INDEX_NAME (Resolved None) :: rest
           /\ forall i attrs r', UpdateSortableAttributes i attrs r' ∉ evs)
        \/ (exists index searchableTask sortableTask uids rest,
              evs = [GetOrCreateIndex INDEX_NAME (Resolved (Some index));
                     UpdateSearchableAttributes index ["name"] (Resolved searchableTask);
                     UpdateSortableAttributes index SORTABLE_ATTRIBUTES
                       (Resolved sortableTask);
                     WaitForTasks uids (Resolved tt)] ++ rest
              /\ UpdateDocuments indexName docs r ∈ rest)).
Proof.
  destruct (onIndexUpdate imports fuel ctx s) as [o s'] eqn:H. simpl. split; [|split].
  - intros i attrs r Hin.
    assert (forall c evs1 o1, SetupRun imports c evs1 o1 ->
              UpdateSortableAttributes i attrs r ∈ evs1 -> attrs = SORTABLE_ATTRIBUTES)
      as Hsetup.
    { intros c evs1 o1 R1 Hin1.
      destruct R1; repeat (apply elem_of_cons in Hin1 as [Hin1|Hin1]; simplify_eq);
        try done; by apply elem_of_nil in Hin1. }
    destruct (onIndexUpdate_cases _ _ _ _ _ H)
      as [(_ & _ & Hn)|(c & evs1 & _ & [(e & R1 & _ & Hn)|(x & rest & R1 & R & Hn)])];
      rewrite Hn in Hin.
    + by apply elem_of_nil in Hin.
    + by eapply Hsetup.
    + apply elem_of_app in Hin as [Hin|Hin]; [by eapply Hsetup|].
      by destruct (UpdateRun_no_attributes _ _ _ _ _ _ _ _ R Hin).
  - intros indexName docs r d field Hin Hd Hf.
    destruct (onIndexUpdate_submit _ _ _ _ _ _ _ _ _ H Hin) as (_ & a & tags & _ & _ & ->).
    apply list_elem_of_In, in_map_iff in Hd as (t & <- & _).
    apply flattenMetrics_fields in Hf. unfold metricFields in Hf.
    repeat (apply elem_of_cons in Hf as [->|Hf]; [by vm_compute; set_solver|]).
    by apply elem_of_nil in Hf.
  - intros indexName docs r Hin.
    destruct (onIndexUpdate_cases _ _ _ _ _ H)
      as [(_ & _ & Hn)|(c & evs1 & _ & [(e & R1 & _ & Hn)|(x & rest & R1 & R & Hn)])];
      rewrite Hn in *.
    + by apply elem_of_nil in Hin.
    + by apply (setup_event_in _ _ (SetupRun_events _ _ _ R1)) in Hin.
    + assert (UpdateDocuments indexName docs r ∈ rest) as Hrest.
      { apply elem_of_app in Hin as [Hin|Hin]; [|done].
        by apply (setup_event_in _ _ (SetupRun_events _ _ _ R1)) in Hin. }
      inversion R1 as [|x0 E|  | |x0 index y t1 z t2 w rw E1 E2 E3 uids E4 Hevs Ho]; subst.
      * left. exists rest. split; [done|]. intros i attrs r' Hin'.
        apply elem_of_cons in Hin' as [Hin'|Hin']; [done|].
        by destruct (UpdateRun_no_attributes _ _ _ _ _ _ _ _ R Hin').
      * right. destruct ((waitForTasks c uids w).1) as [[]|e]; [|done].
        by exists index, t1, t2, uids, rest.
Qed.

(** ** A store that does not change during the run *)

Section UnchangingStore.

Variables (rows : list (@TagRow NsfwLevel)) (queue : list QueueRow) (next : W -> W).
Variables (c : @MeiliSearch NsfwLevel W) (ctx : @SearchIndexRunContext NsfwLevel W).
Hypothesis Hdb : db ctx = prismaClient (fun _ => rows) (fun _ => queue) next.

Lemma unchanging_page queuedItems x offset tags :
  (tag_findMany (db ctx) (tagFindManyArgs offset (lastUpdatedAt ctx) queuedItems) x).1
  = Resolved tags ->
  tags = map (selectTag AllTime)
           (take READ_BATCH_SIZE
              (drop offset
                 (List.filter (tagMatches (tagWhere (lastUpdatedAt ctx) queuedItems)) rows))).
Proof. rewrite Hdb. simpl. by intros [= <-]. Qed.

(** Past the limit, or past the last row that passes the filter, a loop
    that returns submits nothing more. *)
Lemma unchanging_loop_end queuedItems offset tagTasks evs tagTasks' :
  LoopRun c ctx queuedItems offset tagTasks evs (Returned tagTasks') ->
  (READ_BATCH_SIZE <= offset)%nat
  \/ (length (List.filter (tagMatches (tagWhere (lastUpdatedAt ctx) queuedItems)) rows)
      <= offset)%nat ->
  submissions evs = [].
Proof.
  intros L Hend.
  inversion L as [ | | | | offset' tagTasks0 x tags y task evs' o Hlt args E Hne docs E' L' | ];
    subst; try done.
  apply unchanging_page in E. destruct Hend as [Hend|Hend]; [lia|].
  rewrite (drop_ge _ _ Hend), take_nil in E. done.
Qed.

Lemma unchanging_loop queuedItems tagTasks evs tagTasks' :
  LoopRun c ctx queuedItems 0 tagTasks evs (Returned tagTasks') ->
  let eligible := List.filter (tagMatches (tagWhere (lastUpdatedAt ctx) queuedItems)) rows in
  submissions evs
  = match eligible with
    | [] => []
    | _ => [(INDEX_NAME,
             map (fun row => indexReadyRecord (selectTag AllTime row))
                 (take READ_BATCH_SIZE eligible))]
    end.
Proof.
  intros L. simpl.
  inversion L as [ | | offset' tagTasks0 x Hlt args E
                 | | offset' tagTasks0 x tags y task evs' o Hlt args E Hne docs E' L' | ];
    subst.
  - unfold READ_BATCH_SIZE in *. lia.
  - apply unchanging_page in E. rewrite drop_0 in E. simpl.
    destruct (List.filter _ rows) as [|row eligible]; [done|].
    unfold READ_BATCH_SIZE in E. done.
  - apply unchanging_page in E. rewrite drop_0 in E. simpl.
    assert (submissions evs' = []) as ->.
    { eapply unchanging_loop_end; [exact L'|]. simpl. rewrite E, length_map, length_take.
      lia. }
    subst docs. rewrite E, map_map.
    destruct (List.filter _ rows) as [|row eligible]; [|done].
    by rewrite take_nil in E.
Qed.

(** X6. With a client at hand and a store that does not change during
    the run, a run that returns has submitted, in one call, the documents
    of the first [READ_BATCH_SIZE] rows that pass the filter of the run, in
    the order of the table, and nothing else; it has submitted nothing when
    no row passes. The filter is built from the entries of the queue for
    the index. *)
Theorem unchanging_store_one_batch fuel s s' :
  client imports = Some c ->
  onIndexUpdate imports fuel ctx s = (Returned tt, s') ->
  let queuedItems := queueFindMany queue {| qfm_type := INDEX_NAME |} in
  let eligible := List.filter (tagMatches (tagWhere (lastUpdatedAt ctx) queuedItems)) rows in
  submissions (newEvents s s')
  = match eligible with
    | [] => []
    | _ => [(INDEX_NAME,
             map (fun row => indexReadyRecord (selectTag AllTime row))
                 (take READ_BATCH_SIZE eligible))]
    end.
Proof.
  intros Hc H. simpl.
  destruct (onIndexUpdate_cases _ _ _ _ _ H)
    as [(Hnone & _)|(c' & evs1 & Hc' & [(e & _ & He & _)|(x & rest & R1 & R & ->)])];
    [congruence|done|].
  assert (c' = c) as -> by congruence.
  rewrite submissions_app.
  destruct (setup_events_readings _ (SetupRun_events _ _ _ R1)) as (-> & _ & _). simpl.
  inversion R as [ | | |items evs tagTasks y r queueArgs E L uids A]; subst.
  subst queueArgs. rewrite Hdb in E. simpl in E. injection E as <-.
  simpl. rewrite submissions_app. simpl. rewrite app_nil_r.
  by apply (unchanging_loop _ _ _ _ L).
Qed.

End UnchangingStore.

End MoreProperties.



Lemma fetched_records_bounded_witness :
  let evs := newEvents start (run acceptingImports largeCtx).2 in
  Forall (fun p => (length p.2 <= READ_BATCH_SIZE)%nat) (fetchedPages evs)
  /\ (length (fetchedRecords evs) < 2 * READ_BATCH_SIZE)%nat.
Proof.
  apply (fetched_records_bounded acceptingImports
           (fun _ => listedTags (S READ_BATCH_SIZE)) (fun _ => [])
           (S READ_BATCH_SIZE) largeCtx start).
  apply prismaClient_answersFrom.
Defined.

Lemma unchanging_store_one_batch_witness :
  submissions (newEvents start (run acceptingImports incrementalCtx).2)
  = [(INDEX_NAME,
      map (fun row => indexReadyRecord (selectTag AllTime row))
          (take READ_BATCH_SIZE
             (List.filter
                (tagMatches (tagWhere (Some 100)
                               (queueFindMany sampleQueue {| qfm_type := INDEX_NAME |})))
                sampleTags)))].
Proof.
  apply (unchanging_store_one_batch acceptingImports sampleTags sampleQueue (fun x => x)
           acceptingClient incrementalCtx eq_refl (S READ_BATCH_SIZE) start
           (run acceptingImports incrementalCtx).2).
  - reflexivity.
  - vm_compute. reflexivity.
Defined.

(** * Properties of the notification processors *)

Module NotificationsFacts.

Import Notifications.

Section Facts.

Context {Notification Message : Type}.
Implicit Types (n m : @KeyedProcessor Notification Message).
Implicit Types (l batch : list (@KeyedProcessor Notification Message)).
Implicit Types (batches : list (list (@KeyedProcessor Notification Message))).
Implicit Types (st : @BatchState Notification Message).
Implicit Types (entries : list (string * @NotificationProcessor Notification Message)).

(** ** The sort *)

Lemma insertByPriority_perm n l : insertByPriority n l ≡ₚ n :: l.
Proof.
  induction l as [|m l IH]; simpl; [done|].
  destruct (priorityOrZero n <=? priorityOrZero m); [done|].
  rewrite IH. apply Permutation_swap.
Qed.

Lemma sortByPriority_perm l : sortByPriority l ≡ₚ l.
Proof.
  induction l as [|n l IH]; simpl; [done|].
  by rewrite insertByPriority_perm, IH.
Qed.

Lemma insertByPriority_ordered n l : ordered l -> ordered (insertByPriority n l).
Proof.
  unfold ordered. induction 1 as [|m l Hl IH Hm]; simpl.
  - repeat constructor.
  - destruct (Z.leb_spec (priorityOrZero n) (priorityOrZero m)) as [Hle|Hgt].
    + constructor; [by constructor|]. constructor; [done|].
      eapply Forall_impl; [exact Hm|]. simpl. intros; lia.
    + constructor; [done|]. rewrite insertByPriority_perm.
      constructor; [lia|done].
Qed.

Lemma sortByPriority_ordered l : ordered (sortByPriority l).
Proof.
  induction l as [|n l IH]; simpl; [constructor|]. by apply insertByPriority_ordered.
Qed.

(** Elements of equal order stay as they were. *)
Lemma insertByPriority_stable (p : Z) n l :
  filter (fun m => priorityOrZero m = p) (insertByPriority n l)
  = filter (fun m => priorityOrZero m = p) (n :: l).
Proof.
  induction l as [|m l IH]; simpl; [done|].
  destruct (Z.leb_spec (priorityOrZero n) (priorityOrZero m)) as [Hle|Hgt]; [done|].
  rewrite !filter_cons in *. rewrite IH.
  repeat case_decide; try done; lia.
Qed.

Lemma sortByPriority_stable (p : Z) l :
  filter (fun m => priorityOrZero m = p) (sortByPriority l)
  = filter (fun m => priorityOrZero m = p) l.
Proof.
  induction l as [|n l IH]; simpl; [done|].
  by rewrite insertByPriority_stable, !filter_cons, IH.
Qed.

(** X7. [notifications] holds every entry of [notificationProcessors]
    once, with its key, in non-decreasing order of [priority ?? 0];
    entries of equal order are in the order of the object. *)
Theorem notifications_sorted_by_priority entries :
  let keyed := map (fun '(k, v) => {| key := k; processor := v |}) entries in
  notifications entries ≡ₚ keyed
  /\ ordered (notifications entries)
  /\ forall p : Z,
       filter (fun m => priorityOrZero m = p) (notifications entries)
       = filter (fun m => priorityOrZero m = p) keyed.
Proof.
  simpl. unfold notifications. split; [apply sortByPriority_perm|].
  split; [apply sortByPriority_ordered|]. intros p. apply sortByPriority_stable.
Qed.

(** ** The batches *)

Lemma Sorted_snoc {A} (R : A -> A -> Prop) (xs : list A) (a b : A) :
  Sorted R (xs ++ [a]) -> R a b -> Sorted R (xs ++ [a; b]).
Proof.
  induction xs as [|x xs IH]; simpl; intros Hs Hab.
  - repeat constructor. done.
  - apply Sorted_inv in Hs as [Hs Hhd]. constructor; [by apply IH|].
    destruct xs; simpl in *; constructor; by apply HdRel_inv in Hhd.
Qed.

Lemma Sorted_last {A} (R : A -> A -> Prop) (xs : list A) (a a' : A) :
  Sorted R (xs ++ [a]) -> (forall z, R z a -> R z a') -> Sorted R (xs ++ [a']).
Proof.
  induction xs as [|x xs IH]; simpl; intros Hs Haa'.
  - repeat constructor.
  - apply Sorted_inv in Hs as [Hs Hhd]. constructor; [by apply IH|].
    destruct xs; simpl in *; constructor; apply HdRel_inv in Hhd; auto.
Qed.

Lemma batchStep_invariant st n : BatchInvariant st -> BatchInvariant (batchStep st n).
Proof.
  intros [Hlayout Hgrouped Hapart]. unfold batchStep.
  rewrite Forall_app, Forall_singleton in Hgrouped. destruct Hgrouped as [Hclosed Hcurrent].
  case_bool_decide as Hhead; constructor; simpl.
  - right. destruct Hlayout as [[_ Hc]|(batches & Hcl & Hne & Hc)].
    + by rewrite Hc in Hhead.
    + exists batches. split; [done|]. split; [done|]. by destruct (currentBatch st).
  - rewrite Forall_app, Forall_singleton. split; [done|].
    destruct (currentBatch st) as [|m rest]; [done|]. simpl in *.
    rewrite Hhead in *. rewrite Forall_app, Forall_singleton. done.
  - eapply Sorted_last; [exact Hapart|]. intros z Hz.
    by destruct (currentBatch st).
  - right. destruct Hlayout as [[Hcl Hc]|(batches & Hcl & Hne & Hc)].
    + exists []. by rewrite Hcl, Hc.
    + exists (batches ++ [currentBatch st]). rewrite Hcl. split; [done|].
      split; [|done]. rewrite Forall_app, Forall_singleton. done.
  - rewrite !Forall_app, !Forall_singleton. split; [done|].
    simpl. by destruct (priority (processor n)).
  - rewrite <- app_assoc. simpl. by apply Sorted_snoc.
Qed.

Lemma batches_invariant l st :
  BatchInvariant st -> BatchInvariant (fold_left batchStep l st).
Proof.
  revert st. induction l as [|n l IH]; simpl; [done|].
  intros st Hst. by apply IH, batchStep_invariant.
Qed.

Lemma batches_concat l st :
  concat (closed (fold_left batchStep l st) ++ [currentBatch (fold_left batchStep l st)])
  = concat (closed st ++ [currentBatch st]) ++ l.
Proof.
  revert st. induction l as [|n l IH]; intros st; simpl; [by rewrite app_nil_r|].
  rewrite IH. unfold batchStep. case_bool_decide; simpl;
    rewrite !concat_app; simpl; rewrite ?app_nil_r, <- ?app_assoc; done.
Qed.

Lemma initial_invariant :
  BatchInvariant
    ({| closed := []; currentBatch := [] |} : @BatchState Notification Message).
Proof.
  constructor; simpl.
  - by left.
  - by repeat constructor.
  - by repeat constructor.
Qed.

Lemma batchesOf_invariant l :
  exists batches,
    batchesOf l = [] :: batches
    /\ Forall (fun b => b <> []) batches
    /\ concat batches = l
    /\ Forall grouped batches
    /\ Sorted apart ([] :: batches).
Proof.
  unfold batchesOf.
  pose proof (batches_invariant l _ initial_invariant) as [Hlayout Hgrouped Hapart].
  pose proof (batches_concat l {| closed := []; currentBatch := [] |}) as Hconcat.
  simpl in Hconcat.
  destruct Hlayout as [[Hcl Hc]|(batches & Hcl & Hne & Hc)].
  - rewrite Hcl, Hc in *. exists []. simpl in *. by rewrite <- Hconcat.
  - rewrite Hcl in *.
    exists (batches
              ++ [currentBatch (fold_left batchStep l {| closed := []; currentBatch := [] |})]).
    split; [done|]. split; [by rewrite Forall_app, Forall_singleton|].
    split; [done|]. split; [|done]. simpl in Hgrouped. by apply Forall_cons in Hgrouped as [_ ?].
Qed.

(** X8. [notificationBatches] always begins with an empty batch, the one
    it is created with; every other batch holds a notification, and the
    batches after the first, put end to end, are [notifications]: each
    processor is in one batch, once, and the batches follow the sort. *)
Theorem first_batch_empty_rest_partition entries :
  exists batches,
    notificationBatches entries = [] :: batches
    /\ Forall (fun b => b <> []) batches
    /\ concat batches = notifications entries.
Proof.
  unfold notificationBatches.
  destruct (batchesOf_invariant (notifications entries))
    as (batches & Hb & Hne & Hconcat & _).
  by exists batches.
Qed.

Lemma grouped_uniform batch n m :
  grouped batch -> n ∈ batch -> m ∈ batch -> priorityOrZero n = priorityOrZero m.
Proof.
  destruct batch as [|h rest]; simpl; [by intros _ ?%elem_of_nil|].
  destruct (priority (processor h)) as [p|] eqn:Hp.
  - intros Hrest Hn Hm.
    assert (forall k, k ∈ h :: rest -> priorityOrZero k = p) as Hall.
    { intros k [->|Hk]%elem_of_cons.
      - unfold priorityOrZero. by rewrite Hp.
      - by apply (proj1 (Forall_forall _ _) Hrest). }
    by rewrite (Hall n), (Hall m).
  - intros -> Hn Hm. apply list_elem_of_singleton in Hn, Hm. by subst.
Qed.

Lemma StronglySorted_app_elem {A} (R : A -> A -> Prop) (xs ys : list A) x y :
  StronglySorted R (xs ++ ys) -> x ∈ xs -> y ∈ ys -> R x y.
Proof.
  induction xs as [|z xs IH]; simpl; intros Hs Hx Hy; [by apply elem_of_nil in Hx|].
  apply StronglySorted_inv in Hs as [Hs Hz].
  apply elem_of_cons in Hx as [->|Hx]; [|by apply IH].
  apply (proj1 (Forall_forall _ _) Hz), elem_of_app. by right.
Qed.

Lemma StronglySorted_app_r {A} (R : A -> A -> Prop) (xs ys : list A) :
  StronglySorted R (xs ++ ys) -> StronglySorted R ys.
Proof.
  induction xs as [|z xs IH]; simpl; [done|].
  intros Hs. by apply StronglySorted_inv in Hs as [Hs _]; apply IH.
Qed.

Lemma elem_of_concat {A} (x : A) (bs : list (list A)) :
  x ∈ concat bs <-> exists b, b ∈ bs /\ x ∈ b.
Proof.
  rewrite list_elem_of_In, in_concat. split; intros (b & Hb & Hx); exists b;
    by rewrite ?list_elem_of_In in *.
Qed.

Lemma concat_ordered_lookup {A} (R : A -> A -> Prop) (bs : list (list A)) :
  forall i j b b' x y,
  StronglySorted R (concat bs) ->
  (i < j)%nat -> bs !! i = Some b -> bs !! j = Some b' ->
  x ∈ b -> y ∈ b' -> R x y.
Proof.
  induction bs as [|b0 bs IH]; intros i j b b' x y Hs Hij Hi Hj Hx Hy; [done|].
  simpl in Hs. destruct j as [|j]; [lia|]. simpl in Hj.
  destruct i as [|i]; simpl in Hi.
  - injection Hi as ->. eapply StronglySorted_app_elem; [exact Hs|done|].
    apply elem_of_concat. exists b'. split; [by eapply list_elem_of_lookup_2|done].
  - apply (IH i j b b'); try done; [by eapply StronglySorted_app_r|lia].
Qed.

Lemma Sorted_lookup {A} (R : A -> A -> Prop) (bs : list A) :
  forall k b b', Sorted R bs -> bs !! k = Some b -> bs !! S k = Some b' -> R b b'.
Proof.
  induction bs as [|b0 bs IH]; intros k b b' Hs Hk HSk; [done|].
  apply Sorted_inv in Hs as [Hs Hhd]. destruct k as [|k]; simpl in *.
  - injection Hk as ->. destruct bs as [|b1 bs]; [done|]. simpl in HSk.
    injection HSk as ->. by apply HdRel_inv in Hhd.
  - by apply (IH k).
Qed.

(** X9. In [notificationBatches], the notifications of one batch have
    the same [priority ?? 0], and those of a later batch are not below
    those of an earlier one. A batch that starts with a notification
    without a priority holds that notification only: two notifications
    without priority are grouped only behind one with priority 0. *)
Theorem batches_grouped_by_priority entries :
  let batches := notificationBatches entries in
  (forall b n m, b ∈ batches -> n ∈ b -> m ∈ b ->
     priorityOrZero n = priorityOrZero m)
  /\ (forall n rest, (n :: rest) ∈ batches ->
        priority (processor n) = None -> rest = [])
  /\ (forall i j b b' n n',
        (i < j)%nat -> batches !! i = Some b -> batches !! j = Some b' ->
        n ∈ b -> n' ∈ b' -> priorityOrZero n <= priorityOrZero n').
Proof.
  simpl. unfold notificationBatches.
  destruct (batchesOf_invariant (notifications entries))
    as (batches & -> & Hne & Hconcat & Hgrouped & Hapart).
  assert (forall b, b ∈ [] :: batches -> grouped b) as Hg.
  { intros b [->|Hb]%elem_of_cons; [done|]. by apply (proj1 (Forall_forall _ _) Hgrouped). }
  split; [|split].
  - intros b n m Hb. by apply grouped_uniform, Hg.
  - intros n rest Hb Hnone. apply Hg in Hb. simpl in Hb. by rewrite Hnone in Hb.
  - intros i j b b' n n' Hij Hi Hj Hn Hn'.
    apply (concat_ordered_lookup (fun n m => priorityOrZero n <= priorityOrZero m) ([] :: batches) i j b b'); try done.
    simpl. rewrite Hconcat. apply sortByPriority_ordered.
Qed.

(** X10. When every processor has a priority, the batches of
    [notificationBatches] are the priorities: the notifications of a later
    batch are strictly above those of an earlier one, so that two
    notifications are in the same batch exactly when they have the same
    priority. *)
Theorem batches_are_priorities entries :
  Forall (fun e => priority e.2 <> None) entries ->
  let batches := notificationBatches entries in
  forall i j b b' n n',
    batches !! i = Some b -> batches !! j = Some b' -> n ∈ b -> n' ∈ b' ->
    ((i < j)%nat -> priorityOrZero n < priorityOrZero n')
    /\ (i = j <-> priorityOrZero n = priorityOrZero n').
Proof.
  intros Hexplicit. simpl. unfold notificationBatches.
  destruct (batchesOf_invariant (notifications entries))
    as (batches & Hb & Hne & Hconcat & Hgrouped & Hapart).
  rewrite Hb.
  assert (forall b, b ∈ [] :: batches -> grouped b) as Hg.
  { intros b [->|Hin]%elem_of_cons; [done|]. by apply (proj1 (Forall_forall _ _) Hgrouped). }
  assert (forall b n, b ∈ batches -> n ∈ b -> priority (processor n) <> None) as Hexp.
  { intros b n Hin Hn.
    assert (n ∈ notifications entries) as Hn'.
    { rewrite <- Hconcat. apply elem_of_concat. by exists b. }
    unfold notifications in Hn'. rewrite sortByPriority_perm in Hn'.
    apply list_elem_of_In, in_map_iff in Hn' as ([k v] & <- & He).
    apply list_elem_of_In in He.
    by apply (proj1 (Forall_forall _ _) Hexplicit (k, v)). }
  assert (StronglySorted (fun n m => priorityOrZero n <= priorityOrZero m)
            (concat ([] :: batches))) as Hsorted.
  { simpl. rewrite Hconcat. apply sortByPriority_ordered. }
  assert (forall i j b b' n n',
            (i < j)%nat -> ([] :: batches) !! i = Some b -> ([] :: batches) !! j = Some b' ->
            n ∈ b -> n' ∈ b' -> priorityOrZero n < priorityOrZero n') as Hlt.
  { intros i j b b' n n' Hij Hi Hj Hn Hn'.
    destruct j as [|k]; [lia|].
    destruct (([] :: batches) !! k) as [bk|] eqn:Hk;
      [|apply lookup_ge_None in Hk; apply lookup_lt_Some in Hj; lia].
    destruct k as [|k].
    { assert (i = 0%nat) as -> by lia. simpl in Hi. injection Hi as <-.
      by apply elem_of_nil in Hn. }
    assert (bk ∈ batches) as Hbk by (by eapply list_elem_of_lookup_2).
    destruct bk as [|m rest]; [by apply (proj1 (Forall_forall _ _) Hne) in Hbk|].
    destruct b' as [|h' rest']; [by apply elem_of_nil in Hn'|].
    pose proof (Sorted_lookup _ _ _ _ _ Hapart Hk Hj) as Hsep. simpl in Hsep.
    pose proof (Hexp _ m Hbk (list_elem_of_here _ _)) as Hm.
    assert (priorityOrZero m <> priorityOrZero h') as Hne'.
    { unfold priorityOrZero at 1. destruct (priority (processor m)); congruence. }
    assert (priorityOrZero m <= priorityOrZero h') as Hle.
    { apply (concat_ordered_lookup (fun n m => priorityOrZero n <= priorityOrZero m) ([] :: batches) (S k) (S (S k)) (m :: rest) (h' :: rest'));
        try done; [lia|apply list_elem_of_here|apply list_elem_of_here]. }
    assert (priorityOrZero h' = priorityOrZero n') as Hh'.
    { apply (grouped_uniform (h' :: rest')); [|apply list_elem_of_here|done].
      apply Hg. by eapply list_elem_of_lookup_2. }
    assert (priorityOrZero n <= priorityOrZero m) as Hnm.
    { destruct (decide (i = S k)) as [->|Hik].
      - rewrite Hk in Hi. injection Hi as <-.
        assert (priorityOrZero n = priorityOrZero m) as ->; [|lia].
        apply (grouped_uniform (m :: rest)); [|done|apply list_elem_of_here].
        apply Hg. by eapply list_elem_of_lookup_2.
      - apply (concat_ordered_lookup (fun n m => priorityOrZero n <= priorityOrZero m) ([] :: batches) i (S k) b (m :: rest));
          try done; [lia|apply list_elem_of_here]. }
    lia. }
  intros i j b b' n n' Hi Hj Hn Hn'. split; [intros Hij; by apply (Hlt i j b b')|].
  split.
  - intros <-. rewrite Hi in Hj. injection Hj as <-.
    apply (grouped_uniform b); [|done|done]. apply Hg. by eapply list_elem_of_lookup_2.
  - intros Heq. destruct (Nat.lt_trichotomy i j) as [Hij|[Hij|Hij]]; [|done|].
    + pose proof (Hlt i j b b' n n' Hij Hi Hj Hn Hn'). lia.
    + pose proof (Hlt j i b' b n' n Hij Hj Hi Hn' Hn). lia.
Qed.

(** ** The types a user can toggle *)

Lemma types_fold_absent entries (acc : gmap string string) (type : string) :
  (forall p, (type, p) ∈ entries -> toggleable p = Some false) ->
  fold_left
    (fun notificationTypes '(type, p) =>
       match toggleable p with
       | Some false => notificationTypes
       | _ => <[type := displayName p]> notificationTypes
       end) entries acc !! type
  = acc !! type.
Proof.
  revert acc. induction entries as [|[t p] entries IH]; intros acc Hall; simpl; [done|].
  rewrite IH.
  - destruct (decide (t = type)) as [->|Hne].
    + rewrite (Hall p) by apply list_elem_of_here. done.
    + destruct (toggleable p) as [[]|]; by rewrite ?lookup_insert_ne.
  - intros q Hq. apply Hall. by apply list_elem_of_further.
Qed.

Lemma types_fold_present entries (acc : gmap string string) (type : string) p :
  NoDup (map fst entries) ->
  (type, p) ∈ entries -> toggleable p <> Some false ->
  fold_left
    (fun notificationTypes '(type, p) =>
       match toggleable p with
       | Some false => notificationTypes
       | _ => <[type := displayName p]> notificationTypes
       end) entries acc !! type
  = Some (displayName p).
Proof.
  revert acc. induction entries as [|[t q] entries IH]; intros acc Hnd Hin Htog; simpl.
  - by apply elem_of_nil in Hin.
  - simpl in Hnd. apply NoDup_cons in Hnd as [Ht Hnd].
    apply elem_of_cons in Hin as [[= <- <-]|Hin]; [|by apply IH].
    rewrite types_fold_absent.
    + destruct (toggleable p) as [[]|]; by rewrite ?lookup_insert_eq.
    + intros q Hq. destruct Ht. apply list_elem_of_In, in_map_iff.
      exists (type, q). split; [done|]. by apply list_elem_of_In.
Qed.

Lemma types_fold_origin entries (acc : gmap string string) (type name : string) :
  fold_left
    (fun notificationTypes '(type, p) =>
       match toggleable p with
       | Some false => notificationTypes
       | _ => <[type := displayName p]> notificationTypes
       end) entries acc !! type
  = Some name ->
  (exists p, (type, p) ∈ entries /\ toggleable p <> Some false /\ displayName p = name)
  \/ acc !! type = Some name.
Proof.
  revert acc. induction entries as [|[t p] entries IH]; intros acc Hlook; simpl in *; [by right|].
  apply IH in Hlook as [(q & Hq & Htog & Hname)|Hlook].
  - left. exists q. split; [by apply list_elem_of_further|done].
  - destruct (toggleable p) as [[]|] eqn:Htog; [| by right |];
      (destruct (decide (t = type)) as [->|Hne];
       [rewrite lookup_insert_eq in Hlook; injection Hlook as <-; left; exists p;
        split; [apply list_elem_of_here|by rewrite Htog]
       |rewrite lookup_insert_ne in Hlook by done; by right]).
Qed.

(** X11. The keys of [notificationProcessors] being distinct, as those of
    an object are, [getNotificationTypes] maps a type to a name exactly
    when the type has a processor with that display name whose
    [toggleable] is not [false]: a processor marked [toggleable: false] is
    never listed, every other one is, under its display name. *)
Theorem toggleable_types_listed entries (type name : string) :
  NoDup (map fst entries) ->
  getNotificationTypes entries !! type = Some name
  <-> exists p, (type, p) ∈ entries
        /\ toggleable p <> Some false /\ displayName p = name.
Proof.
  intros Hnd. unfold getNotificationTypes. split.
  - intros Hlook. apply types_fold_origin in Hlook as [Hp|Hempty]; [done|].
    by rewrite lookup_empty in Hempty.
  - intros (p & Hp & Htog & <-). by apply types_fold_present.
Qed.

End Facts.

Lemma batches_are_priorities_witness :
  let n := {| key := "model-download-milestone";
              processor := sampleProcessor "Download milestones" (Some 0) None |} in
  let n' := {| key := "new-model-from-following";
               processor := sampleProcessor "New models" (Some 1) (Some true) |} in
  ((1 < 2)%nat -> priorityOrZero n < priorityOrZero n')
  /\ (1%nat = 2%nat <-> priorityOrZero n = priorityOrZero n').
Proof.
  apply (batches_are_priorities prioritisedProcessors) with
    (b := [{| key := "model-download-milestone";
              processor := sampleProcessor "Download milestones" (Some 0) None |}])
    (b' := [{| key := "new-model-version";
               processor := sampleProcessor "New versions" (Some 1) None |};
            {| key := "new-model-from-following";
               processor := sampleProcessor "New models" (Some 1) (Some true) |}]).
  - repeat constructor; discriminate.
  - vm_compute. reflexivity.
  - vm_compute. reflexivity.
  - apply (list_elem_of_lookup_2 _ 0). reflexivity.
  - apply (list_elem_of_lookup_2 _ 1). reflexivity.
Defined.

Lemma toggleable_types_listed_witness :
  getNotificationTypes sampleProcessors !! "new-review" = Some "New reviews"
  <-> exists p, ("new-review", p) ∈ sampleProcessors
        /\ toggleable p <> Some false /\ displayName p = "New reviews".
Proof.
  apply (toggleable_types_listed sampleProcessors "new-review" "New reviews").
  apply (bool_decide_unpack _). vm_compute. exact I.
Defined.

End NotificationsFacts.

(** * Properties of the query helpers *)

Module AutocompleteFacts.

Import Autocomplete.

(** ** The matcher *)

Lemma plusCls_sound {R} (p : N -> bool) (rest : jsString) :
  forall pos (k : nat -> jsString -> option R) res,
  plusCls p pos rest k = Some res ->
  exists run rest', rest = run ++ rest' /\ run <> [] /\ forallb p run = true
    /\ k (pos + length run)%nat rest' = Some res.
Proof.
  induction rest as [|c rest IH]; intros pos k res H; simpl in H; [done|].
  destruct (p c) eqn:Hc; [|done].
  destruct (plusCls p (S pos) rest k) as [res'|] eqn:Hmore.
  - injection H as ->. apply IH in Hmore as (run & rest' & -> & Hne & Hrun & Hk).
    exists (c :: run), rest'. simpl. rewrite Hc, Hrun.
    repeat split; [done|]. by rewrite Nat.add_succ_r.
  - exists [c], rest. simpl. rewrite Hc. repeat split; [done|].
    by rewrite Nat.add_1_r.
Qed.

Lemma matchRe_sound {R} (r : regex) :
  forall pos rest gs (k : nat -> jsString -> Groups -> option R) res,
  matchRe r pos rest gs k = Some res ->
  exists pos' rest' gs',
    Matches r pos rest gs pos' rest' gs' /\ k pos' rest' gs' = Some res.
Proof.
  induction r as [| |c|p|r1 IH1 r2 IH2|r1 IH1 r2 IH2|r IH|name r IH];
    intros pos rest gs k res H; simpl in H.
  - eexists _, _, _. split; [constructor|done].
  - destruct (Nat.eqb_spec pos 0) as [->|]; [|done].
    eexists _, _, _. split; [constructor|done].
  - destruct rest as [|x rest]; [done|].
    destruct (N.eqb_spec x c) as [->|]; [|done].
    eexists _, _, _. split; [constructor|done].
  - apply plusCls_sound in H as (run & rest' & -> & Hne & Hrun & Hk).
    eexists _, _, _. split; [by constructor|done].
  - apply IH1 in H as (pos1 & rest1 & gs1 & M1 & H).
    apply IH2 in H as (pos2 & rest2 & gs2 & M2 & H).
    eexists _, _, _. split; [by econstructor|done].
  - destruct (matchRe r1 pos rest gs k) as [res'|] eqn:H1.
    + injection H as ->. apply IH1 in H1 as (pos' & rest' & gs' & M & H).
      eexists _, _, _. split; [by apply Matches_Alt_l|done].
    + apply IH2 in H as (pos' & rest' & gs' & M & H).
      eexists _, _, _. split; [by apply Matches_Alt_r|done].
  - destruct (matchRe r pos rest gs k) as [res'|] eqn:H1.
    + injection H as ->. apply IH in H1 as (pos' & rest' & gs' & M & H).
      eexists _, _, _. split; [by apply Matches_Opt_some|done].
    + eexists _, _, _. split; [apply Matches_Opt_none|done].
  - apply IH in H as (pos' & rest' & gs' & M & H).
    eexists _, _, _. split; [by constructor|done].
Qed.

(** What is matched is a stretch of the input. *)
Lemma Matches_consumed r pos rest gs pos' rest' gs' :
  Matches r pos rest gs pos' rest' gs' ->
  exists consumed, rest = consumed ++ rest' /\ pos' = (pos + length consumed)%nat.
Proof.
  induction 1 as [pos rest gs|rest gs|c pos rest gs|p pos run rest gs Hne Hrun
                 |r1 r2 pos rest gs pos1 rest1 gs1 pos2 rest2 gs2 M1 IH1 M2 IH2
                 |r1 r2 pos rest gs pos' rest' gs' M IH
                 |r1 r2 pos rest gs pos' rest' gs' M IH
                 |r pos rest gs pos' rest' gs' M IH
                 |r pos rest gs
                 |name r pos rest gs pos' rest' gs' M IH].
  - exists []. split; [done|simpl; lia].
  - by exists [].
  - exists [c]. split; [done|simpl; lia].
  - by exists run.
  - destruct IH1 as (c1 & -> & ->), IH2 as (c2 & -> & ->).
    exists (c1 ++ c2). rewrite length_app, <- app_assoc. split; [done|lia].
  - done.
  - done.
  - done.
  - exists []. split; [done|simpl; lia].
  - done.
Qed.

Lemma matchAt_sound r pos rest m :
  matchAt r pos rest = Some m ->
  m_start m = pos
  /\ Matches r pos rest [] (m_end m) (m_rest m) (m_groups m).
Proof.
  unfold matchAt. intros H.
  apply matchRe_sound in H as (pos' & rest' & gs' & M & [= <-]). done.
Qed.

Lemma search_sound r : forall rest pos m,
  search r pos rest = Some m ->
  exists skipped searched,
    rest = skipped ++ searched
    /\ m_start m = (pos + length skipped)%nat
    /\ Matches r (m_start m) searched [] (m_end m) (m_rest m) (m_groups m).
Proof.
  induction rest as [|c rest IH]; intros pos m H; simpl in H.
  - destruct (matchAt r pos []) as [m'|] eqn:Hat; [|done]. injection H as ->.
    apply matchAt_sound in Hat as [Hs M]. exists [], []. rewrite Hs.
    split; [done|]. split; [simpl; lia|done].
  - destruct (matchAt r pos (c :: rest)) as [m'|] eqn:Hat.
    + injection H as ->. apply matchAt_sound in Hat as [Hs M].
      exists [], (c :: rest). rewrite Hs. split; [done|]. split; [simpl; lia|done].
    + apply IH in H as (skipped & searched & -> & Hs & M).
      exists (c :: skipped), searched. split; [done|]. split; [simpl; lia|done].
Qed.

(** A match found leaves no more of the input than there was, and less
    when it is not empty. *)
Lemma search_rest r rest pos m :
  search r pos rest = Some m ->
  (length (m_rest m) <= length rest)%nat
  /\ (m_start m <= m_end m)%nat
  /\ (m_end m <> m_start m -> length (m_rest m) < length rest)%nat.
Proof.
  intros H. apply search_sound in H as (skipped & searched & -> & Hs & M).
  apply Matches_consumed in M as (consumed & -> & He).
  rewrite !length_app. repeat split; lia.
Qed.

Lemma matchesFrom_total r : forall fuel pos rest,
  (length rest < fuel)%nat -> is_Some (matchesFrom fuel r pos rest).
Proof.
  induction fuel as [|fuel IH]; intros pos rest Hfuel; [lia|]. simpl.
  destruct (search r pos rest) as [m|] eqn:Hs; [|done].
  apply search_rest in Hs as (Hlen & _ & Hlt).
  destruct (Nat.eqb_spec (m_end m) (m_start m)) as [Heq|Hne].
  - destruct (m_rest m) as [|c rest'] eqn:Hrest; [done|].
    apply fmap_is_Some, IH. simpl in Hlen. lia.
  - apply fmap_is_Some, IH. specialize (Hlt Hne). lia.
Qed.

Lemma matchAll_total r s : is_Some (matchAll r s).
Proof. apply matchesFrom_total. lia. Qed.

(** ** Characters *)

Lemma isHashChar_range c : isHashChar c = true -> (c < 123)%N.
Proof.
  unfold isHashChar, isWord, isAlpha, isDigit, between.
  rewrite !orb_true_iff, !andb_true_iff, !N.leb_le, !N.eqb_eq. lia.
Qed.

Lemma isWord_isHashChar c : isWord c = true -> isHashChar c = true.
Proof. unfold isHashChar. by intros ->. Qed.

Lemma below_123 (P : N -> bool) :
  forallb (fun n => P (N.of_nat n)) (seq 0 123) = true ->
  forall c, (c < 123)%N -> P c = true.
Proof.
  intros Hall c Hc. rewrite forallb_forall in Hall.
  rewrite <- (N2Nat.id c). apply Hall, in_seq. lia.
Qed.

Lemma isHashChar_not_space c : isHashChar c = true -> isSpace c = false.
Proof.
  intros Hc.
  pose proof (below_123 (fun c => implb (isHashChar c) (negb (isSpace c))) eq_refl c
                (isHashChar_range c Hc)) as H.
  simpl in H. rewrite Hc in H. simpl in H. by destruct (isSpace c).
Qed.

Lemma isHashChar_unreserved c : isHashChar c = true -> isUnreserved c = true.
Proof.
  intros Hc.
  pose proof (below_123 (fun c => implb (isHashChar c) (isUnreserved c)) eq_refl c
                (isHashChar_range c Hc)) as H.
  simpl in H. by rewrite Hc in H.
Qed.

Lemma trimStart_id (v : jsString) :
  match v with c :: _ => isSpace c = false | [] => True end -> trimStart v = v.
Proof. destruct v as [|c v]; [done|]. simpl. by intros ->. Qed.

Lemma trim_id (v : jsString) : forallb isHashChar v = true -> trim v = v.
Proof.
  intros Hv. unfold trim.
  assert (forall w : jsString, forallb isHashChar w = true -> trimStart w = w) as Hstart.
  { intros w Hw. apply trimStart_id. destruct w as [|c w]; [done|].
    simpl in Hw. apply andb_true_iff in Hw as [Hc _]. by apply isHashChar_not_space. }
  rewrite (Hstart v Hv), Hstart, reverse_involutive; [done|].
  rewrite forallb_forall in *. intros c Hc. apply Hv.
  apply list_elem_of_In, elem_of_reverse. by apply list_elem_of_In.
Qed.

Lemma encodeURIComponent_id (v : jsString) :
  forallb isUnreserved v = true -> encodeURIComponent v = Some v.
Proof.
  induction v as [|c v IH]; [done|]. simpl.
  intros [Hc Hv]%andb_true_iff. by rewrite Hc, (IH Hv).
Qed.

(** ** The expressions of [queryFilters] *)

Ltac invert H := inversion H; subst; clear H.

Lemma Chr_marks c pos rest gs pos' rest' gs' :
  Matches (Chr c) pos rest gs pos' rest' gs' -> gs' = gs /\ rest = [c] ++ rest'.
Proof. intros M. by invert M. Qed.

Lemma litRe_marks cs : forall pos rest gs pos' rest' gs',
  Matches (litRe cs) pos rest gs pos' rest' gs' -> gs' = gs /\ rest = cs ++ rest'.
Proof.
  induction cs as [|c cs IH]; intros pos rest gs pos' rest' gs' M; simpl in M.
  - by invert M.
  - invert M.
    match goal with H : Matches (Chr _) _ _ _ _ _ _ |- _ => invert H end.
    match goal with H : Matches (litRe _) _ _ _ _ _ _ |- _ =>
      apply IH in H as [-> ->] end.
    done.
Qed.

(** A match of one of the filter expressions holds the mark and, after
    it, the value: a stretch of characters of the class, which is what the
    group [value] is. *)
Lemma filterRe_sound mark cs cls pos rest pos' rest' gs' :
  (forall pos rest gs pos' rest' gs',
     Matches mark pos rest gs pos' rest' gs' -> gs' = gs /\ rest = cs ++ rest') ->
  Matches (filterRe mark cls) pos rest [] pos' rest' gs' ->
  exists lead value,
    rest = lead ++ cs ++ value ++ rest'
    /\ value <> [] /\ forallb cls value = true
    /\ group "value" gs' = Some value.
Proof.
  intros Hmark M. unfold filterRe in M.
  invert M.
  match goal with H : Matches (Capture None _) _ _ _ _ _ _ |- _ => invert H end.
  match goal with H : Matches (Alt Bol _) _ _ _ _ _ ?g |- _ =>
    pose proof (Matches_consumed _ _ _ _ _ _ _ H) as (lead & -> & _);
    assert (g = []) as -> by (invert H;
      match goal with H' : Matches _ _ _ _ _ _ _ |- _ => by invert H' end)
  end.
  simpl in *.
  match goal with H : Matches (Seq (Opt _) _) _ _ _ _ _ _ |- _ => invert H end.
  match goal with H : Matches (Opt _) _ _ _ _ _ ?g |- _ =>
    pose proof (Matches_consumed _ _ _ _ _ _ _ H) as (neg & -> & _);
    assert (group "value" g = None) as Hnot
      by (invert H; [match goal with H' : Matches (Capture _ _) _ _ _ _ _ _ |- _ =>
                       invert H';
                       match goal with H'' : Matches (Alt _ _) _ _ _ _ _ _ |- _ =>
                         invert H'';
                         match goal with H3 : Matches (Chr _) _ _ _ _ _ _ |- _ =>
                           by invert H3 end end end
                    |done])
  end.
  match goal with H : Matches (Seq mark _) _ _ _ _ _ _ |- _ => invert H end.
  match goal with H : Matches mark _ _ _ _ _ _ |- _ => apply Hmark in H as [-> ->] end.
  match goal with H : Matches (Capture (Some "value") _) _ _ _ _ _ _ |- _ => invert H end.
  match goal with H : Matches (PlusCls _) _ _ _ _ _ _ |- _ => invert H end.
  match goal with H : forallb cls ?value = true |- _ =>
    exists (lead ++ neg), value; rewrite <- !app_assoc;
    split; [done|]; split; [done|]; split; [done|]; simpl
  end.
  match goal with |- context [take (?a + ?b - ?a)%nat] =>
    replace (a + b - a)%nat with b by lia end.
  by rewrite take_app_length.
Qed.

Lemma matchesFrom_sound r : forall fuel pos rest ms,
  matchesFrom fuel r pos rest = Some ms ->
  Forall (fun m => exists searched,
            Matches r (m_start m) searched [] (m_end m) (m_rest m) (m_groups m)) ms.
Proof.
  induction fuel as [|fuel IH]; intros pos rest ms H; simpl in H; [done|].
  destruct (search r pos rest) as [m|] eqn:Hs; [|by injection H as <-].
  apply search_sound in Hs as (skipped & searched & _ & _ & M).
  assert (forall pos' rest' ms', (cons m <$> matchesFrom fuel r pos' rest') = Some ms' ->
            Forall (fun m => exists searched,
              Matches r (m_start m) searched [] (m_end m) (m_rest m) (m_groups m)) ms')
    as Hrec.
  { intros pos' rest' ms' Hms.
    destruct (matchesFrom fuel r pos' rest') as [tl|] eqn:Htl; [|done].
    injection Hms as <-. constructor; [by exists searched|by eapply IH]. }
  destruct (m_end m =? m_start m)%nat.
  - destruct (m_rest m) as [|c rest'] eqn:Hrest.
    + injection H as <-. constructor; [|done]. exists searched. by rewrite Hrest.
    + by eapply Hrec.
  - by eapply Hrec.
Qed.

(** ** [parseQuery] *)

Section OneAttribute.

(** One of the three entries of [modelsFilters]. *)
Variables (attribute page : string) (mark : regex) (cs : jsString) (cls : N -> bool).
Hypothesis Hpage : (attribute, page) ∈ attributePages.
Hypothesis Hlookup :
  match lookup attribute (searchPageMap modelsFilters) with
  | Some page => page
  | None => attribute
  end = page.
Hypothesis Hcls : forall c, cls c = true -> isHashChar c = true.
Hypothesis Hmark :
  forall pos rest gs pos' rest' gs',
    Matches mark pos rest gs pos' rest' gs' -> gs' = gs /\ rest = cs ++ rest'.

Lemma addMatch_item st m searched :
  Matches (filterRe mark cls) (m_start m) searched [] (m_end m) (m_rest m) (m_groups m) ->
  exists filter part,
    FilterItem filter part
    /\ addMatch modelsFilters attribute st m
       = Some {| query := query st;
                 filtersFound := filtersFound st ++ [filter];
                 searchPageFound := searchPageFound st ++ [part] |}.
Proof.
  intros M.
  destruct (filterRe_sound _ _ _ _ _ _ _ _ Hmark M) as (lead & value & _ & Hne & Hv & Hg).
  assert (forallb isHashChar value = true) as Hhash.
  { rewrite forallb_forall in *. intros c Hc. by apply Hcls, Hv. }
  assert (forallb isUnreserved value = true) as Hunres.
  { rewrite forallb_forall in *. intros c Hc. by apply isHashChar_unreserved, Hhash. }
  unfold addMatch. rewrite Hg. cbn -[lookup lit]. rewrite (trim_id _ Hhash).
  rewrite (encodeURIComponent_id _ Hunres). cbn -[lookup lit].
  pose proof Hlookup as Hlookup'. cbn -[lookup lit] in Hlookup'. rewrite Hlookup'.
  eexists _, _. split; [|done].
  exists attribute, page, (bool_decide (group "not" (m_groups m) <> None)), value.
  done.
Qed.

Lemma addMatches_items ms : forall st,
  Forall (fun m => exists searched,
            Matches (filterRe mark cls) (m_start m) searched [] (m_end m) (m_rest m)
              (m_groups m)) ms ->
  Forall2 FilterItem (filtersFound st) (searchPageFound st) ->
  exists st',
    addMatches modelsFilters attribute st ms = Some st'
    /\ query st' = query st
    /\ Forall2 FilterItem (filtersFound st') (searchPageFound st')
    /\ (ms = [] -> st' = st).
Proof.
  induction ms as [|m ms IH]; intros st Hms Hst; simpl.
  - by exists st.
  - apply Forall_cons in Hms as [(searched & M) Hms].
    destruct (addMatch_item st m searched M) as (filter & part & Hitem & ->). simpl.
    destruct (IH {| query := query st;
                    filtersFound := filtersFound st ++ [filter];
                    searchPageFound := searchPageFound st ++ [part] |} Hms)
      as (st' & -> & Hq & Hinv & _).
    { simpl. apply Forall2_app; [done|]. by constructor. }
    exists st'. done.
Qed.

Lemma parseAttribute_items st :
  Forall2 FilterItem (filtersFound st) (searchPageFound st) ->
  exists st',
    parseAttribute modelsFilters st (attribute, filterRe mark cls) = Some st'
    /\ Forall2 FilterItem (filtersFound st') (searchPageFound st')
    /\ (filtersFound st' <> [] -> query st' <> []).
Proof.
  intros Hst. unfold parseAttribute.
  destruct (matchAll_total (filterRe mark cls) (query st)) as [ms Hms]. rewrite Hms. simpl.
  apply matchesFrom_sound in Hms.
  destruct (addMatches_items ms st Hms Hst) as (st1 & -> & Hq & Hinv & _). simpl.
  unfold replaceAllWithEmpty.
  destruct (matchAll_total (filterRe mark cls) (query st1)) as [ms' ->]. simpl.
  eexists. split; [done|]. simpl. split; [done|].
  intros Hfound. case_bool_decide as Hlen; simpl.
  - rewrite bool_decide_eq_false_2; [done|]. by destruct (filtersFound st1).
  - by destruct (cutOut ms' 0 (query st1)).
Qed.

(** Where the mark cannot be found there is no match. *)
Lemma search_without_mark x : forall rest pos,
  x ∈ cs -> x ∉ rest -> search (filterRe mark cls) pos rest = None.
Proof.
  assert (forall rest pos, x ∈ cs -> x ∉ rest ->
            matchAt (filterRe mark cls) pos rest = None) as Hat.
  { intros rest pos Hx Hrest.
    destruct (matchAt (filterRe mark cls) pos rest) as [m|] eqn:H; [|done].
    apply matchAt_sound in H as [_ M].
    destruct (filterRe_sound _ _ _ _ _ _ _ _ Hmark M) as (lead & value & -> & _).
    destruct Hrest. rewrite !elem_of_app. auto. }
  induction rest as [|c rest IH]; intros pos Hx Hrest; simpl; rewrite Hat by done; [done|].
  apply IH; [done|]. intros Hin. apply Hrest. by apply elem_of_cons; right.
Qed.

Lemma matchAll_without_mark x (s : jsString) :
  x ∈ cs -> x ∉ s -> matchAll (filterRe mark cls) s = Some [].
Proof.
  intros Hx Hs. unfold matchAll.
  change (matchesFrom (S (S (length s))) (filterRe mark cls) 0 s)
    with (match search (filterRe mark cls) 0 s with
          | None => Some []
          | Some m =>
              if (m_end m =? m_start m)%nat then
                match m_rest m with
                | [] => Some [m]
                | _ :: rest' =>
                    cons m <$> matchesFrom (S (length s)) (filterRe mark cls)
                                 (S (m_end m)) rest'
                end
              else cons m <$> matchesFrom (S (length s)) (filterRe mark cls)
                                (m_end m) (m_rest m)
          end).
  by rewrite (search_without_mark x _ _ Hx Hs).
Qed.

Lemma parseAttribute_without_mark x st :
  x ∈ cs -> x ∉ query st -> filtersFound st = [] ->
  parseAttribute modelsFilters st (attribute, filterRe mark cls) = Some st.
Proof.
  intros Hx Hq Hnone. unfold parseAttribute, replaceAllWithEmpty.
  rewrite (matchAll_without_mark x _ Hx Hq). cbn [mbind option_bind addMatches].
  rewrite (matchAll_without_mark x _ Hx Hq). cbn [mbind option_bind cutOut].
  rewrite Hnone. simpl. rewrite andb_false_r. destruct st; simpl in *. by subst.
Qed.

End OneAttribute.

Lemma parseQuery_shape index query :
  exists pq found parts,
    parseQuery index query = Some pq
    /\ pq_filters pq = join (lit " AND ") found
    /\ pq_searchPageQuery pq = join (lit "&") parts
    /\ Forall2 FilterItem found parts
    /\ (found <> [] -> pq_query pq <> []).
Proof.
  unfold parseQuery.
  destruct index;
    try (eexists _, [], []; split; [done|]; repeat split; [constructor|done]).
  cbn [queryFilters filters modelsFilters parseAttributes].
  destruct (parseAttribute_items "tags.name" "tags" (Chr 35) [35%N] isWord) with
    (st := {| Autocomplete.query := query; filtersFound := []; searchPageFound := [] |})
    as (st1 & H1 & Hinv1 & _);
    [by vm_compute; set_solver|done|apply isWord_isHashChar|apply Chr_marks|constructor|].
  rewrite H1. cbn [mbind option_bind].
  destruct (parseAttribute_items "user.username" "users" (Chr 64) [64%N] isWord) with
    (st := st1) as (st2 & H2 & Hinv2 & _);
    [by vm_compute; set_solver|done|apply isWord_isHashChar|apply Chr_marks|done|].
  rewrite H2. cbn [mbind option_bind].
  destruct (parseAttribute_items "versions.hashes" "versions.hashes"
              (litRe (lit "hash:")) (lit "hash:") isHashChar) with
    (st := st2) as (st3 & H3 & Hinv3 & Hquery);
    [by vm_compute; set_solver|done|done|apply litRe_marks|done|].
  rewrite H3. cbn [mbind option_bind].
  by eexists _, (filtersFound st3), (searchPageFound st3).
Qed.

(** *** What is left of the query *)

Lemma matchesFrom_in_order r fuel pos rest ms :
  matchesFrom fuel r pos rest = Some ms ->
  Forall (fun m => (m_start m <= m_end m)%nat) ms.
Proof.
  intros H. apply matchesFrom_sound in H.
  eapply Forall_impl; [exact H|]. intros m (searched & M).
  apply Matches_consumed in M as (consumed & _ & ->). lia.
Qed.

Lemma cutOut_sublist ms : forall pos rest,
  Forall (fun m => (m_start m <= m_end m)%nat) ms ->
  cutOut ms pos rest `sublist_of` rest.
Proof.
  induction ms as [|m ms IH]; intros pos rest Hms; simpl; [done|].
  apply Forall_cons in Hms as [Hm Hms].
  rewrite <- (take_drop (m_start m - pos) rest) at 3.
  apply sublist_app; [done|].
  etrans; [by apply IH|].
  replace (m_end m - pos)%nat
    with ((m_start m - pos) + (m_end m - pos - (m_start m - pos)))%nat by lia.
  rewrite <- drop_drop. apply sublist_drop.
Qed.

Lemma addMatches_grows filterAttributes attribute ms : forall st st',
  addMatches filterAttributes attribute st ms = Some st' ->
  query st' = query st /\ (filtersFound st <> [] -> filtersFound st' <> []).
Proof.
  induction ms as [|m ms IH]; intros st st' H; simpl in H.
  - by injection H as <-.
  - destruct (addMatch filterAttributes attribute st m) as [st1|] eqn:H1; [|done].
    simpl in H. apply IH in H as [-> Hfound].
    unfold addMatch in H1.
    destruct (encodeURIComponent _) as [encoded|]; [|done]. injection H1 as <-.
    simpl in *. split; [done|]. intros _. apply Hfound.
    by destruct (filtersFound st).
Qed.

Lemma parseAttribute_removes filterAttributes st entry st' :
  parseAttribute filterAttributes st entry = Some st' ->
  (filtersFound st <> [] -> filtersFound st' <> [])
  /\ (filtersFound st' <> [] -> query st' <> [])
  /\ ((query st' = lit " " /\ filtersFound st' <> [])
      \/ query st' `sublist_of` query st).
Proof.
  unfold parseAttribute. destruct entry as [attribute regex]. intros H.
  destruct (matchAll regex (query st)) as [ms|]; [|done]. simpl in H.
  destruct (addMatches filterAttributes attribute st ms) as [st1|] eqn:H1; [|done].
  apply addMatches_grows in H1 as [Hq Hfound]. simpl in H.
  unfold replaceAllWithEmpty, matchAll in H.
  destruct (matchesFrom _ regex 0 (query st1)) as [ms'|] eqn:Hms'; [|done].
  apply matchesFrom_in_order in Hms'. simpl in H. injection H as <-. simpl.
  split; [done|].
  pose proof (cutOut_sublist ms' 0 (query st1) Hms') as Hsub. rewrite Hq in *.
  case_bool_decide as Hlen; simpl.
  - case_bool_decide as Hnone; simpl.
    + split; [by destruct (filtersFound st1)|by right].
    + split; [done|]. left. split; [done|]. by destruct (filtersFound st1).
  - split; [by destruct (cutOut ms' 0 (query st))|by right].
Qed.

Lemma parseAttributes_removes filterAttributes typed entries : forall st st',
  parseAttributes filterAttributes st entries = Some st' ->
  (query st = lit " " /\ filtersFound st <> []) \/ query st `sublist_of` typed ->
  (query st' = lit " " /\ filtersFound st' <> []) \/ query st' `sublist_of` typed.
Proof.
  induction entries as [|entry entries IH]; intros st st' H Hst; simpl in H.
  - by injection H as <-.
  - destruct (parseAttribute filterAttributes st entry) as [st1|] eqn:H1; [|done].
    simpl in H. apply (IH _ _ H).
    apply parseAttribute_removes in H1 as (Hgrows & Hne & [Hspace|Hsub]); [by left|].
    destruct Hst as [[Hspace Hfound]|Hst].
    + left. split; [|by apply Hgrows]. rewrite Hspace in Hsub.
      specialize (Hne (Hgrows Hfound)).
      apply sublist_length in Hsub as Hlen.
      destruct (query st1) as [|c [|d q]]; [done| |simpl in Hlen; lia].
      apply sublist_cons_l in Hsub as (k1 & k2 & Hk & _).
      destruct k1 as [|e [|? ?]]; [by injection Hk as <-|done|done].
    + right. by etrans.
Qed.

(** X12. [parseQuery] returns for every index and every text, without
    a [URIError]: [filters] is the filters found joined by [ AND ] and
    [searchPageQuery] the parts joined by [&], one part for each filter,
    in the same order, with the same value, which is not empty and made of
    letters, digits, [_], [.] and [-] only, so that its encoding is
    itself. *)
Theorem parseQuery_pairs_filters_and_parts index typed :
  exists pq found parts,
    parseQuery index typed = Some pq
    /\ pq_filters pq = join (lit " AND ") found
    /\ pq_searchPageQuery pq = join (lit "&") parts
    /\ Forall2 FilterItem found parts.
Proof.
  destruct (parseQuery_shape index typed) as (pq & found & parts & H & Hf & Hp & Hitems & _).
  by exists pq, found, parts.
Qed.

(** X13. When [parseQuery] finds a filter, the query it returns is not
    empty: where the filters were all of the text, it is one space. *)
Theorem filters_found_query_not_empty index typed pq :
  parseQuery index typed = Some pq -> pq_filters pq <> [] -> pq_query pq <> [].
Proof.
  destruct (parseQuery_shape index typed) as (pq' & found & parts & -> & Hf & _ & _ & Hq).
  intros [= <-] Hfilters. apply Hq. intros ->. by rewrite Hf in Hfilters.
Qed.

(** X14. [parseQuery] adds no text: the query it returns is the text
    typed with some of its characters left out, in the same order, or it
    is one space. *)
Theorem parsed_query_is_typed_text_cut index typed pq :
  parseQuery index typed = Some pq ->
  pq_query pq = lit " " \/ pq_query pq `sublist_of` typed.
Proof.
  unfold parseQuery. intros H.
  destruct (queryFilters index) as [filterAttributes|].
  - destruct (parseAttributes _ _ _) as [st'|] eqn:Hst; [|done].
    simpl in H. injection H as <-. simpl.
    apply (parseAttributes_removes _ typed) in Hst as [[Hspace _]|Hsub]; [by left|by right|].
    by right.
  - simpl in H. injection H as <-. by right.
Qed.

(** X15. A text without [#], [@] and [:] holds no filter: [parseQuery]
    returns it as it is, with no filter and an empty search page query.
    So does every text for an index other than [models]. *)
Theorem plain_text_parsed_unchanged index (typed : jsString) :
  (index = models -> (35%N ∉ typed) /\ (64%N ∉ typed) /\ (58%N ∉ typed)) ->
  parseQuery index typed
  = Some {| pq_query := typed; pq_filters := []; pq_searchPageQuery := [] |}.
Proof.
  intros Hplain. unfold parseQuery.
  destruct index; try done.
  destruct Hplain as (Htag & Huser & Hhash); [done|].
  cbn [queryFilters filters modelsFilters parseAttributes].
  rewrite (parseAttribute_without_mark "tags.name" "tags" (Chr 35) [35%N] isWord)
    with (x := 35%N);
    [|by vm_compute; set_solver|done|apply Chr_marks|set_solver|done|done].
  cbn [mbind option_bind].
  rewrite (parseAttribute_without_mark "user.username" "users" (Chr 64) [64%N] isWord)
    with (x := 64%N);
    [|by vm_compute; set_solver|done|apply Chr_marks|set_solver|done|done].
  cbn [mbind option_bind].
  rewrite (parseAttribute_without_mark "versions.hashes" "versions.hashes"
             (litRe (lit "hash:")) (lit "hash:") isHashChar) with (x := 58%N);
    [|by vm_compute; set_solver|done|apply litRe_marks|by vm_compute; set_solver|done|done].
  done.
Qed.

(** ** [checkAIR] *)

Lemma matchAll_search r s ms : matchAll r s = Some ms -> head ms = search r 0 s.
Proof.
  unfold matchAll.
  change (matchesFrom (S (S (length s))) r 0 s)
    with (match search r 0 s with
          | None => Some []
          | Some m =>
              if (m_end m =? m_start m)%nat then
                match m_rest m with
                | [] => Some [m]
                | _ :: rest' => cons m <$> matchesFrom (S (length s)) r (S (m_end m)) rest'
                end
              else cons m <$> matchesFrom (S (length s)) r (m_end m) (m_rest m)
          end).
  destruct (search r 0 s) as [m|]; [|by intros [= <-]].
  destruct (m_end m =? m_start m)%nat.
  - destruct (m_rest m) as [|c rest']; [by intros [= <-]|].
    destruct (matchesFrom _ _ _ rest'); [by intros [= <-]|done].
  - destruct (matchesFrom _ _ _ (m_rest m)); [by intros [= <-]|done].
Qed.

Lemma matchRe_litRe {R} cs : forall pos rest gs (k : nat -> jsString -> Groups -> option R),
  matchRe (litRe cs) pos (cs ++ rest) gs k = k (pos + length cs)%nat rest gs.
Proof.
  induction cs as [|c cs IH]; intros pos rest gs k; simpl.
  - by rewrite Nat.add_0_r.
  - rewrite N.eqb_refl, IH. by rewrite Nat.add_succ_r.
Qed.

(** A repetition takes the whole stretch of characters of its class when
    what follows it accepts there. *)
Lemma plusCls_greedy {R} p run : forall pos rest (k : nat -> jsString -> option R) res,
  run <> [] -> forallb p run = true ->
  match rest with c :: _ => p c = false | [] => True end ->
  k (pos + length run)%nat rest = Some res ->
  plusCls p pos (run ++ rest) k = Some res.
Proof.
  induction run as [|c run IH]; intros pos rest k res Hne Hrun Hrest Hk; [done|].
  simpl in *. apply andb_true_iff in Hrun as [-> Hrun].
  destruct run as [|d run].
  - simpl in *. rewrite Nat.add_1_r in Hk.
    destruct rest as [|x rest]; simpl; [done|]. by rewrite Hrest.
  - rewrite (IH (S pos) rest k res); [done|done|done|done|].
    by rewrite <- Hk, Nat.add_succ_r.
Qed.

Lemma airRe_match modelId modelVersionId rest :
  modelId <> [] -> forallb isDigit modelId = true ->
  modelVersionId <> [] -> forallb isDigit modelVersionId = true ->
  match rest with c :: _ => isDigit c = false | [] => True end ->
  exists m,
    search airRe 0 (lit "civitai:" ++ modelId ++ [64%N] ++ modelVersionId ++ rest) = Some m
    /\ m_groups m = [("modelVersionId"%string, modelVersionId); ("modelId"%string, modelId)].
Proof.
  intros Hne1 Hd1 Hne2 Hd2 Hrest.
  eexists {| m_start := 0; m_end := _; m_rest := rest; m_groups := _ |}.
  split; [|done].
  assert (forall s, matchAt airRe 0 s = Some
            {| m_start := 0;
               m_end := (0 + length (lit "civitai:") + length modelId + 1
                         + length modelVersionId)%nat;
               m_rest := rest;
               m_groups := [("modelVersionId"%string, modelVersionId);
                            ("modelId"%string, modelId)] |} ->
          search airRe 0 s = Some
            {| m_start := 0;
               m_end := (0 + length (lit "civitai:") + length modelId + 1
                         + length modelVersionId)%nat;
               m_rest := rest;
               m_groups := [("modelVersionId"%string, modelVersionId);
                            ("modelId"%string, modelId)] |}) as Hsearch.
  { intros s Hs. destruct s; cbn [search]; by rewrite Hs. }
  apply Hsearch. unfold matchAt, airRe.
  cbn [matchRe Nat.eqb]. rewrite matchRe_litRe. cbn [matchRe].
  apply plusCls_greedy; [done|done|done|]. cbn [app].
  rewrite N.eqb_refl.
  apply plusCls_greedy; [done|done|done|].
  cbn [record].
  replace (S (0 + length (lit "civitai:") + length modelId) + length modelVersionId
           - S (0 + length (lit "civitai:") + length modelId))%nat
    with (length modelVersionId) by lia.
  replace (0 + length (lit "civitai:") + length modelId - (0 + length (lit "civitai:")))%nat
    with (length modelId) by lia.
  rewrite !take_app_length. do 2 f_equal. lia.
Qed.

Lemma checkAIR_of_groups query m ms modelId modelVersionId :
  matchAll airRe query = Some (m :: ms) ->
  m_groups m = [("modelVersionId"%string, modelVersionId); ("modelId"%string, modelId)] ->
  modelId <> [] -> modelVersionId <> [] ->
  checkAIR models query
  = Some (Some (lit "/models/" ++ modelId ++ lit "?modelVersionId=" ++ modelVersionId)).
Proof.
  intros Hms Hg Hne1 Hne2. unfold checkAIR. cbn [queryFilters AIR modelsFilters].
  rewrite Hms. cbn [mbind option_bind]. rewrite Hg.
  cbn [group String.eqb Ascii.eqb Bool.eqb]. cbn -[lit].
  destruct modelId; [done|]. destruct modelVersionId; done.
Qed.

Lemma checkAIR_redirects modelId modelVersionId rest :
  modelId <> [] -> forallb isDigit modelId = true ->
  modelVersionId <> [] -> forallb isDigit modelVersionId = true ->
  match rest with c :: _ => isDigit c = false | [] => True end ->
  checkAIR models (lit "civitai:" ++ modelId ++ [64%N] ++ modelVersionId ++ rest)
  = Some (Some (lit "/models/" ++ modelId ++ lit "?modelVersionId=" ++ modelVersionId)).
Proof.
  intros Hne1 Hd1 Hne2 Hd2 Hrest.
  destruct (airRe_match modelId modelVersionId rest) as (m & Hs & Hg); [done..|].
  destruct (matchAll_total airRe
              (lit "civitai:" ++ modelId ++ [64%N] ++ modelVersionId ++ rest)) as [ms Hms].
  pose proof (matchAll_search _ _ _ Hms) as Hhead. rewrite Hs in Hhead.
  destruct ms as [|m' ms]; [done|]. injection Hhead as ->.
  by eapply checkAIR_of_groups.
Qed.

Lemma Capture_PlusCls_groups name p pos rest gs pos' rest' gs' :
  Matches (Capture (Some name) (PlusCls p)) pos rest gs pos' rest' gs' ->
  exists value,
    rest = value ++ rest' /\ value <> [] /\ forallb p value = true
    /\ gs' = (name, value) :: gs.
Proof.
  intros M. invert M.
  match goal with H : Matches (PlusCls _) _ _ _ _ _ _ |- _ => invert H end.
  match goal with H : forallb p ?value = true |- _ => exists value end.
  repeat split; [done|done|]. simpl.
  match goal with |- context [take (?a + ?b - ?a)%nat] =>
    replace (a + b - a)%nat with b by lia end.
  by rewrite take_app_length.
Qed.

Lemma airRe_sound pos rest pos' rest' gs' :
  Matches airRe pos rest [] pos' rest' gs' ->
  pos = 0%nat
  /\ exists modelId modelVersionId,
       rest = lit "civitai:" ++ modelId ++ [64%N] ++ modelVersionId ++ rest'
       /\ modelId <> [] /\ forallb isDigit modelId = true
       /\ modelVersionId <> [] /\ forallb isDigit modelVersionId = true
       /\ gs' = [("modelVersionId"%string, modelVersionId); ("modelId"%string, modelId)].
Proof.
  unfold airRe. generalize (lit "civitai:"). intros prefix M. invert M.
  match goal with H : Matches Bol _ _ _ _ _ _ |- _ => invert H end.
  split; [done|].
  match goal with H : Matches (Seq (litRe _) _) _ _ _ _ _ _ |- _ => invert H end.
  match goal with H : Matches (litRe _) _ _ _ _ _ _ |- _ =>
    apply litRe_marks in H as [-> ->] end.
  match goal with H : Matches (Seq (Capture _ _) _) _ _ _ _ _ _ |- _ => invert H end.
  match goal with H : Matches (Capture (Some "modelId"%string) _) _ _ _ _ _ _ |- _ =>
    apply Capture_PlusCls_groups in H as (modelId & -> & Hne1 & Hd1 & ->) end.
  match goal with H : Matches (Seq (Chr _) _) _ _ _ _ _ _ |- _ => invert H end.
  match goal with H : Matches (Chr _) _ _ _ _ _ _ |- _ =>
    apply Chr_marks in H as [-> ->] end.
  match goal with H : Matches (Capture _ _) _ _ _ _ _ _ |- _ =>
    apply Capture_PlusCls_groups in H as (modelVersionId & -> & Hne2 & Hd2 & ->) end.
  by exists modelId, modelVersionId.
Qed.

(** A string is the longest stretch of characters of a class at its start,
    and what follows it. *)
Lemma longest_stretch (p : N -> bool) (s : jsString) :
  exists stretch rest,
    s = stretch ++ rest /\ forallb p stretch = true
    /\ match rest with c :: _ => p c = false | [] => True end.
Proof.
  induction s as [|c s (stretch & rest & -> & Hp & Hrest)].
  - by exists [], [].
  - destruct (p c) eqn:Hc.
    + exists (c :: stretch), rest. simpl. by rewrite Hc.
    + by exists [], (c :: stretch ++ rest).
Qed.

Lemma checkAIR_total index query : is_Some (checkAIR index query).
Proof.
  unfold checkAIR. destruct index; try done. cbn [queryFilters AIR modelsFilters].
  destruct (matchAll_total airRe query) as [ms ->]. cbn [mbind option_bind].
  destruct ms as [|m ms]; [done|]. by destruct (_ || _).
Qed.

(** ** [checkAIR] redirects for an AIR, and for nothing else *)

(** X16. [checkAIR] returns a path exactly when the index is [models] and
    the query starts with [civitai:], a model id of one digit or more, [@]
    and a version id of one digit or more; the path is that of the model,
    with the version in [modelVersionId], the version id being all the
    digits found after [@]. *)
Theorem air_redirect_iff index query url :
  checkAIR index query = Some (Some url)
  <-> index = models
      /\ exists modelId modelVersionId rest,
           query = lit "civitai:" ++ modelId ++ [64%N] ++ modelVersionId ++ rest
           /\ modelId <> [] /\ forallb isDigit modelId = true
           /\ modelVersionId <> [] /\ forallb isDigit modelVersionId = true
           /\ match rest with c :: _ => isDigit c = false | [] => True end
           /\ url = lit "/models/" ++ modelId ++ lit "?modelVersionId=" ++ modelVersionId.
Proof.
  split.
  - intros H.
    assert (index = models) as -> by (by destruct index).
    split; [done|].
    destruct (matchAll_total airRe query) as [ms Hms].
    destruct ms as [|m ms].
    { unfold checkAIR in H. cbn [queryFilters AIR modelsFilters] in H.
      by rewrite Hms in H. }
    pose proof (matchAll_search _ _ _ Hms) as Hs. symmetry in Hs. cbn [head] in Hs.
    apply search_sound in Hs as (skipped & searched & Hq & Hstart & M).
    apply airRe_sound in M as (H0 & modelId & v1 & -> & Hne1 & Hd1 & Hne2 & Hd2 & Hg).
    assert (skipped = []) as -> by (destruct skipped; [done|simpl in Hstart; lia]).
    rewrite app_nil_l in Hq.
    rewrite (checkAIR_of_groups _ _ _ _ _ Hms Hg Hne1 Hne2) in H.
    assert (url = lit "/models/" ++ modelId ++ lit "?modelVersionId=" ++ v1) as ->
      by congruence.
    destruct (longest_stretch isDigit (m_rest m)) as (more & rest & Hrest & Hmore & Hend).
    assert (v1 ++ more <> []) as Hne3 by (by destruct v1).
    assert (forallb isDigit (v1 ++ more) = true) as Hd3 by (by rewrite forallb_app, Hd2, Hmore).
    pose proof (checkAIR_redirects modelId (v1 ++ more) rest Hne1 Hd1 Hne3 Hd3 Hend) as Hall.
    rewrite <- app_assoc, <- Hrest, <- Hq in Hall.
    rewrite (checkAIR_of_groups _ _ _ _ _ Hms Hg Hne1 Hne2) in Hall.
    assert (lit "/models/" ++ modelId ++ lit "?modelVersionId=" ++ v1
            = lit "/models/" ++ modelId ++ lit "?modelVersionId=" ++ v1 ++ more) as Heq
      by congruence.
    do 3 apply app_inv_head in Heq.
    assert (more = []) as ->.
    { apply (f_equal length) in Heq. rewrite length_app in Heq.
      destruct more; [done|simpl in Heq; lia]. }
    rewrite app_nil_l in Hrest. exists modelId, v1, rest. by rewrite Hq, Hrest.
  - intros (-> & modelId & modelVersionId & rest & -> & Hne1 & Hd1 & Hne2 & Hd2 & Hrest & ->).
    by apply checkAIR_redirects.
Qed.

(** ** The theorems at sample texts *)

Lemma filters_found_query_not_empty_witness :
  parseQuery models (lit "#cat")
  = Some {| pq_query := lit " "; pq_filters := lit "tags.name = cat";
            pq_searchPageQuery := lit "tags=cat" |}
  /\ pq_query {| pq_query := lit " "; pq_filters := lit "tags.name = cat";
                 pq_searchPageQuery := lit "tags=cat" |} <> [].
Proof.
  split; [vm_compute; reflexivity|].
  apply (filters_found_query_not_empty models (lit "#cat")).
  - vm_compute. reflexivity.
  - vm_compute. discriminate.
Defined.

Lemma parsed_query_is_typed_text_cut_witness :
  let pq := {| pq_query := lit "cat";
               pq_filters := lit "tags.name = tag1 AND NOT user.username = bob";
               pq_searchPageQuery := lit "tags=tag1&users=bob" |} in
  parseQuery models (lit "cat #tag1 -@bob") = Some pq
  /\ (pq_query pq = lit " " \/ pq_query pq `sublist_of` lit "cat #tag1 -@bob").
Proof.
  split; [vm_compute; reflexivity|].
  apply (parsed_query_is_typed_text_cut models (lit "cat #tag1 -@bob")).
  vm_compute. reflexivity.
Defined.

Lemma plain_text_parsed_unchanged_witness :
  parseQuery models (lit "blue cat")
  = Some {| pq_query := lit "blue cat"; pq_filters := []; pq_searchPageQuery := [] |}.
Proof.
  apply (plain_text_parsed_unchanged models (lit "blue cat")).
  intros _. repeat split; apply (bool_decide_unpack _); vm_compute; exact I.
Defined.

End AutocompleteFacts.
